(** * TeenyJVM: a shallow embedding of the interpreter and its helpers

    The development follows the three C sources of the repository:
    - [heap.c]        the append-only table of integer arrays,
    - [read_class.c]  the loader of a class file, constant-pool lookup,
                      method lookup, descriptor parameter counting,
    - [jvm.c]         the operand-stack helpers, the [execute] loop and
                      [main].

    C integers are modelled as [Z] with the conversions written out.  The
    arithmetic is that of the compiled program on a two's-complement
    target: [+], [-], [*], unary [-] and [<<] on [int32_t] wrap modulo
    2^32, narrowing conversions wrap, [>>] on a signed value is the
    arithmetic shift, and a shift takes its count modulo 32, as the shift
    instructions of the target do.  A division by zero, the division
    [INT32_MIN / -1], the use of a null pointer and an access outside the
    modelled arrays have no result in the model.  Those are reported as the
    fault [UndefinedBehaviour]; a failed [assert] is the fault
    [AssertionFailed]. *)

From Stdlib Require Import ZArith Lia Ascii String.
From stdpp Require Import base list strings.

Open Scope Z_scope.

(** ** Machine integers *)

Module Int.

Definition wrap_unsigned (w x : Z) : Z := x mod 2 ^ w.

Definition wrap_signed (w x : Z) : Z :=
  (x + 2 ^ (w - 1)) mod 2 ^ w - 2 ^ (w - 1).

(** Conversions to the fixed-width C types used by the sources. *)
Definition u1 (x : Z) : Z := wrap_unsigned 8 x.
Definition u2 (x : Z) : Z := wrap_unsigned 16 x.
Definition u4 (x : Z) : Z := wrap_unsigned 32 x.
Definition int8_t (x : Z) : Z := wrap_signed 8 x.
Definition int16_t (x : Z) : Z := wrap_signed 16 x.
Definition int32_t (x : Z) : Z := wrap_signed 32 x.

Definition INT32_MIN : Z := - 2 ^ 31.
Definition INT32_MAX : Z := 2 ^ 31 - 1.

(** [size_t] is the 64-bit unsigned type of the x86-64 target. *)
Definition size_t (x : Z) : Z := wrap_unsigned 64 x.

End Int.

(** ** Results of fallible code *)

Inductive fault : Type :=
  | AssertionFailed      (* an [assert] of the C source failed *)
  | UndefinedBehaviour   (* the C source has no defined behaviour here *)
  | OutOfFuel.           (* the fuel of the model ran out; not a C outcome *)

Inductive result (A : Type) : Type :=
  | Ok (a : A)
  | Fault (f : fault).

Arguments Ok {A} a.
Arguments Fault {A} f.

#[global] Instance result_ret : MRet result := fun _ a => Ok a.

#[global] Instance result_bind : MBind result := fun _ _ k r =>
  match r with
  | Ok a => k a
  | Fault f => Fault f
  end.

Definition assert (b : bool) : result unit :=
  if b then Ok tt else Fault AssertionFailed.

Definition defined {A : Type} (o : option A) : result A :=
  match o with
  | Some a => Ok a
  | None => Fault UndefinedBehaviour
  end.

(** Reading a C array at an [int] index: defined inside the array only. *)
Definition array_get {A : Type} (a : list A) (i : Z) : result A :=
  if (0 <=? i) && (i <? Z.of_nat (length a))
  then defined (a !! Z.to_nat i)
  else Fault UndefinedBehaviour.

(** Writing a C array at an [int] index: defined inside the array only. *)
Definition array_set {A : Type} (a : list A) (i : Z) (v : A) : result (list A) :=
  if (0 <=? i) && (i <? Z.of_nat (length a))
  then Ok (<[Z.to_nat i := v]> a)
  else Fault UndefinedBehaviour.

(** ** C strings

    A [char *] is modelled by the [string] of the bytes it points to; the
    terminator is implicit, and a zero byte inside the data ends the string
    for [strchr] and [strcmp], as it does in C. *)

Definition NUL : ascii := "000"%char.

(** [strchr s c] for a non-zero [c]: offset of the first [c], or [None] for
    the null pointer. *)
Fixpoint strchr_from (s : string) (c : ascii) (pos : nat) : option nat :=
  match s with
  | EmptyString => None
  | String a s' =>
      if Ascii.eqb a c then Some pos
      else if Ascii.eqb a NUL then None
      else strchr_from s' c (S pos)
  end.

Definition strchr (s : string) (c : ascii) : option nat := strchr_from s c 0.

(** [strcmp a b == 0]. *)
Fixpoint strcmp_eq (a b : string) : bool :=
  match a, b with
  | EmptyString, EmptyString => true
  | EmptyString, String y _ => Ascii.eqb y NUL
  | String x _, EmptyString => Ascii.eqb x NUL
  | String x a', String y b' =>
      if Ascii.eqb x y
      then (if Ascii.eqb x NUL then true else strcmp_eq a' b')
      else false
  end.

(** [s[i]], the terminator included. *)
Definition char_at (s : string) (i : nat) : ascii :=
  match String.get i s with
  | Some c => c
  | None => NUL
  end.

(** ** The class file in memory (read_class.c) *)

(** Modelled from the spec: [cp_info] and its payload structs are declared in
    read_class.h, which is not among the sources.  The spec's data model
    gives the variants and their payloads; the C code selects the payload by
    the [tag] byte, which is the constructor here. *)
Inductive cp_info : Type :=
  | CONSTANT_Utf8 (info : string)
  | CONSTANT_Integer (bytes : Z)
  | CONSTANT_Class (string_index : Z)
  | CONSTANT_Fieldref (class_index name_and_type_index : Z)
  | CONSTANT_Methodref (class_index name_and_type_index : Z)
  | CONSTANT_NameAndType (name_index descriptor_index : Z).

Definition is_Integer (c : cp_info) : bool :=
  match c with CONSTANT_Integer _ => true | _ => false end.

Record code_t : Type := mk_code {
  max_stack : Z;        (* u2 *)
  max_locals : Z;       (* u2 *)
  code : list Z         (* the bytecode, [code_length] bytes *)
}.

Definition code_length (c : code_t) : Z := Z.of_nat (length (code c)).

Record method_t : Type := mk_method {
  name : string;
  descriptor : string;
  method_code : code_t
}.

(** The two arrays of a class; their terminating sentinel entries are
    implicit in the lists. *)
Record class_file_t : Type := mk_class {
  constant_pool : list cp_info;
  methods : list method_t
}.

Definition constant_pool_size (pool : list cp_info) : Z :=
  Int.u2 (Z.of_nat (length pool)).

Definition get_constant (pool : list cp_info) (index : Z) : result cp_info :=
  _ ← assert ((0 <? index) && (index <=? constant_pool_size pool));
  array_get pool (index - 1).

Definition get_method_name_and_type (pool : list cp_info) (index : Z)
  : result (Z * Z) :=
  method_constant ← get_constant pool index;
  match method_constant with
  | CONSTANT_Methodref _ name_and_type_index =>
      name_and_type_constant ← get_constant pool name_and_type_index;
      match name_and_type_constant with
      | CONSTANT_NameAndType name_index descriptor_index =>
          Ok (name_index, descriptor_index)
      | _ => Fault AssertionFailed
      end
  | _ => Fault AssertionFailed
  end.

(** The loop of [get_number_of_parameters]; [start] and [end_] are offsets
    into the descriptor.  Each iteration moves [start] forward, so
    [end_ - start] iterations are enough: see [params_loop_fuel]. *)
Fixpoint params_loop (fuel : nat) (d : string) (start end_ : nat) (params : Z)
  : Z :=
  match fuel with
  | O => params
  | S fuel' =>
      if (start <? end_)%nat then
        let start1 :=
          if Ascii.eqb (char_at d start) "["%char then S start else start in
        params_loop fuel' d (S start1) end_ (Int.u2 (params + 1))
      else params
  end.

(** For a descriptor without [')'], [end] is the null pointer: the test
    [start < end] fails at once and the count is 0.  With [')'] but without
    ['('], [start] is the null pointer and the loop reads through it. *)
Definition get_number_of_parameters (method : method_t) : result Z :=
  match strchr (descriptor method) ")"%char with
  | None => Ok 0
  | Some end_ =>
      start ← defined (strchr (descriptor method) "("%char);
      Ok (params_loop (end_ - start)%nat (descriptor method) (S start) end_ 0)
  end.

Fixpoint find_method (name0 descriptor0 : string) (ms : list method_t)
  : option method_t :=
  match ms with
  | [] => None
  | method :: ms' =>
      if strcmp_eq (name method) name0
         && strcmp_eq (descriptor method) descriptor0
      then Some method
      else find_method name0 descriptor0 ms'
  end.

Definition find_method_from_index (index : Z) (class : class_file_t)
  : result (option method_t) :=
  '(name_index, descriptor_index) ←
      get_method_name_and_type (constant_pool class) index;
  name0 ← get_constant (constant_pool class) name_index;
  match name0 with
  | CONSTANT_Utf8 name_info =>
      descriptor0 ← get_constant (constant_pool class) descriptor_index;
      match descriptor0 with
      | CONSTANT_Utf8 descriptor_info =>
          Ok (find_method name_info descriptor_info (methods class))
      | _ => Fault AssertionFailed
      end
  | _ => Fault AssertionFailed
  end.

(** ** The heap (heap.c) *)

(** An array owned by the heap: the cells of one [malloc]/[calloc] block. *)
Abbreviation array := (list Z).

(** [ptr] holds the [count] entries of the table; an entry is modelled by
    the array it points to, which the heap owns. *)
Record heap_t : Type := mk_heap {
  ptr : list array;
  count : Z             (* int32_t *)
}.

(** The allocator refuses a request above [PTRDIFF_MAX] bytes and returns
    the null pointer; memory is assumed sufficient for every other one. *)
Definition PTRDIFF_MAX : Z := 2 ^ 63 - 1.

Definition allocatable (bytes : Z) : bool :=
  (0 <=? bytes) && (bytes <=? PTRDIFF_MAX).

Definition heap_init : heap_t := mk_heap [] 0.

(** [realloc] to [count + 1] entries keeps the [count] entries of the
    table; the new last entry receives [p].  [sizeof(int32_t * )] is 8. *)
Definition heap_add (heap : heap_t) (p : array) : result (heap_t * Z) :=
  let request := Int.size_t (Int.size_t (Int.int32_t (count heap + 1)) * 8) in
  if allocatable request then
    let table := take (Z.to_nat (count heap)) (ptr heap) ++ [p] in
    let temp := count heap in
    Ok (mk_heap table (Int.int32_t (count heap + 1)), temp)
  else Fault UndefinedBehaviour.

Definition heap_get (heap : heap_t) (ref : Z) : result array :=
  array_get (ptr heap) ref.

(** [heap_add] applied to each array of a list in turn; the references it
    returned, in order. *)
Fixpoint heap_add_all (heap : heap_t) (ps : list array)
  : result (heap_t * list Z) :=
  match ps with
  | [] => Ok (heap, [])
  | p :: ps' =>
      '(heap1, ref) ← heap_add heap p;
      '(heap2, refs) ← heap_add_all heap1 ps';
      Ok (heap2, ref :: refs)
  end.

(** ** The instruction set (jvm.h) *)

(** Modelled from the spec: the enumeration of opcodes is declared in jvm.h,
    which is not among the sources.  The constructors are the names jvm.c
    dispatches on; the byte values are those of the class-file encoding the
    spec refers to, with which the [OFFSET_] constants of jvm.c and its
    comments on [i_aload_0] and [i_astore_0] agree. *)
Inductive jvm_instruction_t : Type :=
  | i_nop | i_iconst_m1 | i_iconst_0 | i_iconst_1 | i_iconst_2 | i_iconst_3
  | i_iconst_4 | i_iconst_5 | i_bipush | i_sipush | i_ldc | i_iload | i_aload
  | i_iload_0 | i_iload_1 | i_iload_2 | i_iload_3
  | i_aload_0 | i_aload_1 | i_aload_2 | i_aload_3 | i_iaload
  | i_istore | i_astore
  | i_istore_0 | i_istore_1 | i_istore_2 | i_istore_3
  | i_astore_0 | i_astore_1 | i_astore_2 | i_astore_3 | i_iastore | i_dup
  | i_iadd | i_isub | i_imul | i_idiv | i_irem | i_ineg
  | i_ishl | i_ishr | i_iushr | i_iand | i_ior | i_ixor | i_iinc
  | i_ifeq | i_ifne | i_iflt | i_ifge | i_ifgt | i_ifle
  | i_if_icmpeq | i_if_icmpne | i_if_icmplt | i_if_icmpge | i_if_icmpgt
  | i_if_icmple | i_goto | i_ireturn | i_areturn | i_return
  | i_getstatic | i_invokevirtual | i_invokestatic | i_newarray
  | i_arraylength.

Definition opcode (i : jvm_instruction_t) : Z :=
  match i with
  | i_nop => 0x00 | i_iconst_m1 => 0x02 | i_iconst_0 => 0x03
  | i_iconst_1 => 0x04 | i_iconst_2 => 0x05 | i_iconst_3 => 0x06
  | i_iconst_4 => 0x07 | i_iconst_5 => 0x08 | i_bipush => 0x10
  | i_sipush => 0x11 | i_ldc => 0x12 | i_iload => 0x15 | i_aload => 0x19
  | i_iload_0 => 0x1a | i_iload_1 => 0x1b | i_iload_2 => 0x1c
  | i_iload_3 => 0x1d | i_aload_0 => 0x2a | i_aload_1 => 0x2b
  | i_aload_2 => 0x2c | i_aload_3 => 0x2d | i_iaload => 0x2e
  | i_istore => 0x36 | i_astore => 0x3a
  | i_istore_0 => 0x3b | i_istore_1 => 0x3c | i_istore_2 => 0x3d
  | i_istore_3 => 0x3e | i_astore_0 => 0x4b | i_astore_1 => 0x4c
  | i_astore_2 => 0x4d | i_astore_3 => 0x4e | i_iastore => 0x4f
  | i_dup => 0x59 | i_iadd => 0x60 | i_isub => 0x64 | i_imul => 0x68
  | i_idiv => 0x6c | i_irem => 0x70 | i_ineg => 0x74 | i_ishl => 0x78
  | i_ishr => 0x7a | i_iushr => 0x7c | i_iand => 0x7e | i_ior => 0x80
  | i_ixor => 0x82 | i_iinc => 0x84
  | i_ifeq => 0x99 | i_ifne => 0x9a | i_iflt => 0x9b | i_ifge => 0x9c
  | i_ifgt => 0x9d | i_ifle => 0x9e
  | i_if_icmpeq => 0x9f | i_if_icmpne => 0xa0 | i_if_icmplt => 0xa1
  | i_if_icmpge => 0xa2 | i_if_icmpgt => 0xa3 | i_if_icmple => 0xa4
  | i_goto => 0xa7 | i_ireturn => 0xac | i_areturn => 0xb0
  | i_return => 0xb1 | i_getstatic => 0xb2 | i_invokevirtual => 0xb6
  | i_invokestatic => 0xb8 | i_newarray => 0xbc | i_arraylength => 0xbe
  end.

Definition all_instructions : list jvm_instruction_t :=
  [ i_nop; i_iconst_m1; i_iconst_0; i_iconst_1; i_iconst_2; i_iconst_3;
    i_iconst_4; i_iconst_5; i_bipush; i_sipush; i_ldc; i_iload; i_aload;
    i_iload_0; i_iload_1; i_iload_2; i_iload_3;
    i_aload_0; i_aload_1; i_aload_2; i_aload_3; i_iaload;
    i_istore; i_astore;
    i_istore_0; i_istore_1; i_istore_2; i_istore_3;
    i_astore_0; i_astore_1; i_astore_2; i_astore_3; i_iastore; i_dup;
    i_iadd; i_isub; i_imul; i_idiv; i_irem; i_ineg;
    i_ishl; i_ishr; i_iushr; i_iand; i_ior; i_ixor; i_iinc;
    i_ifeq; i_ifne; i_iflt; i_ifge; i_ifgt; i_ifle;
    i_if_icmpeq; i_if_icmpne; i_if_icmplt; i_if_icmpge; i_if_icmpgt;
    i_if_icmple; i_goto; i_ireturn; i_areturn; i_return;
    i_getstatic; i_invokevirtual; i_invokestatic; i_newarray;
    i_arraylength ].

(** The [case] label a fetched byte selects, if any. *)
Definition decode (instruction : Z) : option jvm_instruction_t :=
  find (fun i => opcode i =? instruction) all_instructions.

Definition OFFSET_ICONST : Z := 0x03.
Definition OFFSET_ILOAD : Z := 0x1a.
Definition OFFSET_ALOAD : Z := 0x2a.
Definition OFFSET_ASTORE : Z := 0x4b.
Definition OFFSET_ISTORE : Z := 0x3b.

(** ** The interpreter (jvm.c) *)

Record optional_value_t : Type := mk_optional {
  has_value : bool;
  value : Z
}.

Definition void_result : optional_value_t := mk_optional false 0.

(** [operand_stack[++( *stack_pointer)] = value] *)
Definition push (operand_stack : list Z) (stack_pointer value : Z)
  : result (list Z * Z) :=
  let sp := Int.int32_t (stack_pointer + 1) in
  stack' ← array_set operand_stack sp value;
  Ok (stack', sp).

(** [return operand_stack[( *stack_pointer)--]] *)
Definition pop (operand_stack : list Z) (stack_pointer : Z) : result (Z * Z) :=
  v ← array_get operand_stack stack_pointer;
  Ok (v, Int.int32_t (stack_pointer - 1)).

(** C's [/] and [%] on [int32_t]. *)
Definition c_div (value1 value2 : Z) : result Z :=
  if (value2 =? 0) || ((value1 =? Int.INT32_MIN) && (value2 =? -1))
  then Fault UndefinedBehaviour
  else Ok (Z.quot value1 value2).

Definition c_rem (value1 value2 : Z) : result Z :=
  if (value2 =? 0) || ((value1 =? Int.INT32_MIN) && (value2 =? -1))
  then Fault UndefinedBehaviour
  else Ok (Z.rem value1 value2).

(** C's shift operators at type [int32_t] and [uint32_t].  The source hands
    the popped amount to the operator unchecked; the shift instruction of
    the target takes the low five bits of its count register. *)
Definition shift_count (shift_amount : Z) : Z := Z.land shift_amount 31.

Definition c_shl (value shift_amount : Z) : Z :=
  Int.int32_t (Z.shiftl value (shift_count shift_amount)).

Definition c_shr (value shift_amount : Z) : Z :=
  Z.shiftr value (shift_count shift_amount).

Definition c_shru (value shift_amount : Z) : Z :=
  Int.int32_t (Z.shiftr (Int.u4 value) (shift_count shift_amount)).

Definition perform_binary_operation (value1 value2 : Z)
  (instruction : jvm_instruction_t) : result Z :=
  match instruction with
  | i_iadd => Ok (Int.int32_t (value1 + value2))
  | i_isub => Ok (Int.int32_t (value1 - value2))
  | i_imul => Ok (Int.int32_t (value1 * value2))
  | i_idiv => c_div value1 value2
  | i_irem => c_rem value1 value2
  | i_iand => Ok (Z.land value1 value2)
  | i_ior => Ok (Z.lor value1 value2)
  | i_ixor => Ok (Z.lxor value1 value2)
  | _ => Ok 0
  end.

(** The comparison with zero of the one-operand branches, and the comparison
    of the two-operand ones; [None] is the [default] label. *)
Definition unary_test (instruction : jvm_instruction_t) : option (Z -> bool) :=
  match instruction with
  | i_ifeq => Some (fun v => v =? 0)
  | i_ifne => Some (fun v => negb (v =? 0))
  | i_iflt => Some (fun v => v <? 0)
  | i_ifge => Some (fun v => 0 <=? v)
  | i_ifgt => Some (fun v => 0 <? v)
  | i_ifle => Some (fun v => v <=? 0)
  | _ => None
  end.

Definition binary_test (instruction : jvm_instruction_t)
  : option (Z -> Z -> bool) :=
  match instruction with
  | i_if_icmpeq => Some (fun value1 value2 => value1 =? value2)
  | i_if_icmpne => Some (fun value1 value2 => negb (value1 =? value2))
  | i_if_icmplt => Some (fun value1 value2 => value1 <? value2)
  | i_if_icmpge => Some (fun value1 value2 => value2 <=? value1)
  | i_if_icmpgt => Some (fun value1 value2 => value2 <? value1)
  | i_if_icmple => Some (fun value1 value2 => value1 <=? value2)
  | _ => None
  end.

(** Returns the decision and the stack pointer after the pops. *)
Definition should_jump_based_on_instruction (instruction : jvm_instruction_t)
  (operand_stack : list Z) (stack_pointer : Z) : result (bool * Z) :=
  match unary_test instruction, binary_test instruction with
  | Some test, _ =>
      '(v, sp1) ← pop operand_stack stack_pointer;
      Ok (test v, sp1)
  | None, Some test =>
      '(value2, sp1) ← pop operand_stack stack_pointer;
      '(value1, sp2) ← pop operand_stack sp1;
      Ok (test value1 value2, sp2)
  | None, None => Ok (false, stack_pointer)
  end.

(** *** Memory of a callee's locals

    [int32_t method_locals[max_locals]] is a fresh block of the host stack:
    its bytes are whatever the stack held.  [memset] and the [int32_t] view
    of the block are byte-level, little-endian as on x86. *)

Definition memset (block : list Z) (c : Z) (n : Z) : result (list Z) :=
  if (0 <=? n) && (n <=? Z.of_nat (length block))
  then Ok (replicate (Z.to_nat n) (Int.u1 c) ++ drop (Z.to_nat n) block)
  else Fault UndefinedBehaviour.

Definition byte_at (block : list Z) (i : nat) : Z :=
  default 0 (block !! i).

Definition load_int32 (block : list Z) (i : nat) : Z :=
  Int.int32_t
    (byte_at block (4 * i) + 2 ^ 8 * byte_at block (4 * i + 1)
     + 2 ^ 16 * byte_at block (4 * i + 2) + 2 ^ 24 * byte_at block (4 * i + 3)).

Definition as_int32_array (block : list Z) : list Z :=
  map (load_int32 block) (seq 0 (length block / 4)).

(** The loop that moves the arguments from the caller's operand stack into
    [method_locals], for [i] from [num_params - 1] down to 0. *)
Fixpoint pop_params (num_params : nat) (method_locals operand_stack : list Z)
  (stack_pointer : Z) : result (list Z * Z) :=
  match num_params with
  | O => Ok (method_locals, stack_pointer)
  | S i =>
      '(v, sp1) ← pop operand_stack stack_pointer;
      method_locals1 ← array_set method_locals (Z.of_nat i) v;
      pop_params i method_locals1 operand_stack sp1
  end.

(** [method_locals] as the callee receives it: the block, the [memset] of
    [max_locals] bytes, the parameters. *)
Definition init_method_locals (block : list Z) (max_locals0 : Z)
  (num_params : Z) (operand_stack : list Z) (stack_pointer : Z)
  : result (list Z * Z) :=
  zeroed ← memset block 0 max_locals0;
  pop_params (Z.to_nat num_params) (as_int32_array zeroed)
    operand_stack stack_pointer.

(** *** Allocation of an array by [newarray] *)

(** [calloc(nmemb, sizeof(int32_t))]; [None] is the null pointer. *)
Definition calloc_int32 (nmemb : Z) : option array :=
  if allocatable (nmemb * 4)
  then Some (replicate (Z.to_nat nmemb) 0)
  else None.

(** [for (int32_t i = 1; i < count + 1; i++) new_array[i] = 0;] *)
Fixpoint zero_cells (cells : nat) (i : Z) (new_array : array) : result array :=
  match cells with
  | O => Ok new_array
  | S cells' =>
      new_array1 ← array_set new_array i 0;
      zero_cells cells' (i + 1) new_array1
  end.

Definition new_int_array (count0 : Z) : result array :=
  new_array ←
    (if count0 <=? 0
     then Ok [count0]     (* one [malloc]ed cell, written just below *)
     else
       block ← defined
         (calloc_int32 (Int.size_t (Int.int32_t (count0 + 1))));
       array_set block 0 count0);
  zero_cells (Z.to_nat (Int.int32_t (count0 + 1) - 1)) 1 new_array.

(** *** Frames, the world, one instruction *)

(** The variables of one activation of [execute]. *)
Record frame : Type := mk_frame {
  operand_stack : list Z;   (* int32_t operand_stack[max_stack] *)
  stack_pointer : Z;        (* int32_t *)
  locals : list Z;          (* the caller-provided int32_t array *)
  pc : Z                    (* u4 *)
}.

(** What all activations share: the heap, the lines printed so far, and the
    number of callee frames created so far (it selects the bytes the next
    [method_locals] block is found to hold). *)
Record world : Type := mk_world {
  heap : heap_t;
  output : list Z;
  frames : nat
}.

Inductive outcome : Type :=
  | Next (f : frame) (w : world)              (* [break]: back to the loop *)
  | Return (r : optional_value_t) (w : world). (* [return] from [execute] *)

Definition set_pc (f : frame) (pc' : Z) : frame :=
  mk_frame (operand_stack f) (stack_pointer f) (locals f) pc'.

Definition set_stack (f : frame) (st : list Z * Z) (pc' : Z) : frame :=
  mk_frame (fst st) (snd st) (locals f) pc'.

Definition set_locals (f : frame) (sp : Z) (locals' : list Z) (pc' : Z)
  : frame :=
  mk_frame (operand_stack f) sp locals' pc'.

Definition print (w : world) (val : Z) : world :=
  mk_world (heap w) (output w ++ [val]) (frames w).

Definition set_heap (w : world) (h : heap_t) : world :=
  mk_world h (output w) (frames w).

Definition new_frame (w : world) : world :=
  mk_world (heap w) (output w) (S (frames w)).

(** The frame [execute] starts with: the operand stack zeroed by [memset]
    over its whole size, an empty stack, [pc] at 0. *)
Definition enter (method : method_t) (locals0 : list Z) : frame :=
  mk_frame (replicate (Z.to_nat (max_stack (method_code method))) 0)
           (-1) locals0 0.

Section Interpreter.

(** [residue k i]: byte [i] of the host-stack block that the [k]-th
    [method_locals] of the run occupies, as it was left there. *)
Variable residue : nat -> Z -> Z.

Definition stack_block (k : nat) (bytes : Z) : list Z :=
  map (fun i => Int.u1 (residue k (Z.of_nat i))) (seq 0 (Z.to_nat bytes)).

Section Step.

Variable class : class_file_t.
Variable method : method_t.

(** The recursive call [execute(called_method, method_locals, class, heap)]. *)
Variable call : method_t -> list Z -> world -> result (optional_value_t * world).

Definition bytecode (i : Z) : result Z :=
  b ← array_get (code (method_code method)) i;
  Ok (Int.u1 b).

Definition branch_offset (pc0 : Z) : result Z :=
  b1 ← bytecode (Int.u4 (pc0 + 1));
  b2 ← bytecode (Int.u4 (pc0 + 2));
  Ok (Int.int16_t (Int.u2 (Z.lor (Z.shiftl b1 8) b2))).

(** The [switch] of the loop body on an instruction that has a [case]. *)
Definition exec (i : jvm_instruction_t) (f : frame) (w : world)
  : result outcome :=
  let stack := operand_stack f in
  let sp := stack_pointer f in
  let instruction := opcode i in
  match i with
  | i_bipush =>
      b ← bytecode (Int.u4 (pc f + 1));
      st ← push stack sp (Int.int32_t (Int.int8_t (Int.u1 b)));
      Ok (Next (set_stack f st (Int.u4 (pc f + 2))) w)
  | i_getstatic => Ok (Next (set_pc f (Int.u4 (pc f + 3))) w)
  | i_invokevirtual =>
      '(val, sp1) ← pop stack sp;
      Ok (Next (set_stack f (stack, sp1) (Int.u4 (pc f + 3))) (print w val))
  | i_iconst_m1 | i_iconst_0 | i_iconst_1 | i_iconst_2 | i_iconst_3
  | i_iconst_4 | i_iconst_5 =>
      st ← push stack sp (instruction - OFFSET_ICONST);
      Ok (Next (set_stack f st (Int.u4 (pc f + 1))) w)
  | i_iadd | i_isub | i_imul | i_idiv | i_irem | i_iand | i_ior | i_ixor =>
      '(value2, sp1) ← pop stack sp;
      '(value1, sp2) ← pop stack sp1;
      r ← perform_binary_operation value1 value2 i;
      st ← push stack sp2 r;
      Ok (Next (set_stack f st (Int.u4 (pc f + 1))) w)
  | i_sipush =>
      let pc1 := Int.u4 (pc f + 1) in
      b1 ← bytecode pc1;
      b2 ← bytecode (Int.u4 (pc1 + 1));
      st ← push stack sp (Int.int16_t (Z.lor (Z.shiftl b1 8) b2));
      Ok (Next (set_stack f st (Int.u4 (pc1 + 2))) w)
  | i_ineg =>
      '(v, sp1) ← pop stack sp;
      st ← push stack sp1 (Int.int32_t (- v));
      Ok (Next (set_stack f st (Int.u4 (pc f + 1))) w)
  | i_ishl =>
      '(shift_amount, sp1) ← pop stack sp;
      '(v, sp2) ← pop stack sp1;
      st ← push stack sp2 (c_shl v shift_amount);
      Ok (Next (set_stack f st (Int.u4 (pc f + 1))) w)
  | i_ishr =>
      '(shift_amount, sp1) ← pop stack sp;
      '(v, sp2) ← pop stack sp1;
      st ← push stack sp2 (c_shr v shift_amount);
      Ok (Next (set_stack f st (Int.u4 (pc f + 1))) w)
  | i_iushr =>
      '(shift_amount, sp1) ← pop stack sp;
      '(v, sp2) ← pop stack sp1;
      st ← push stack sp2 (c_shru v shift_amount);
      Ok (Next (set_stack f st (Int.u4 (pc f + 1))) w)
  | i_iload | i_aload =>
      let pc1 := Int.u4 (pc f + 1) in
      index ← bytecode pc1;
      v ← array_get (locals f) index;
      st ← push stack sp v;
      Ok (Next (set_stack f st (Int.u4 (pc1 + 1))) w)
  | i_istore | i_astore =>
      let pc1 := Int.u4 (pc f + 1) in
      index ← bytecode pc1;
      '(v, sp1) ← pop stack sp;
      locals' ← array_set (locals f) index v;
      Ok (Next (set_locals f sp1 locals' (Int.u4 (pc1 + 1))) w)
  | i_iinc =>
      let pc1 := Int.u4 (pc f + 1) in
      index ← bytecode pc1;
      let pc2 := Int.u4 (pc1 + 1) in
      b ← bytecode pc2;
      let constant := Int.int8_t (Int.u1 b) in
      v ← array_get (locals f) index;
      locals' ← array_set (locals f) index (Int.int32_t (v + constant));
      Ok (Next (set_locals f sp locals' (Int.u4 (pc2 + 1))) w)
  | i_iload_0 | i_iload_1 | i_iload_2 | i_iload_3 =>
      v ← array_get (locals f) (instruction - OFFSET_ILOAD);
      st ← push stack sp v;
      Ok (Next (set_stack f st (Int.u4 (pc f + 1))) w)
  | i_istore_0 | i_istore_1 | i_istore_2 | i_istore_3 =>
      '(v, sp1) ← pop stack sp;
      locals' ← array_set (locals f) (instruction - OFFSET_ISTORE) v;
      Ok (Next (set_locals f sp1 locals' (Int.u4 (pc f + 1))) w)
  | i_ldc =>
      let pc1 := Int.u4 (pc f + 1) in
      index ← bytecode pc1;
      (* the list holds the constants only: the sentinel element that
         follows them in the C array and the memory around the array are
         not modelled, and the model gives no result for a read there *)
      constant ← array_get (constant_pool class) (index - 1);
      st ← match constant with
           | CONSTANT_Integer bytes => push stack sp bytes
           | _ => Ok (stack, sp)
           end;
      Ok (Next (set_stack f st (Int.u4 (pc1 + 1))) w)
  | i_ifeq | i_ifne | i_iflt | i_ifge | i_ifgt | i_ifle
  | i_if_icmpeq | i_if_icmpne | i_if_icmplt | i_if_icmpge | i_if_icmpgt
  | i_if_icmple =>
      offset ← branch_offset (pc f);
      '(shouldJump, sp1) ← should_jump_based_on_instruction i stack sp;
      let pc' := if shouldJump : bool then Int.u4 (pc f + offset)
                 else Int.u4 (pc f + 3) in
      Ok (Next (set_stack f (stack, sp1) pc') w)
  | i_goto =>
      offset ← branch_offset (pc f);
      Ok (Next (set_pc f (Int.u4 (pc f + offset))) w)
  | i_ireturn | i_areturn =>
      '(ret_val, _) ← pop stack sp;
      Ok (Return (mk_optional true ret_val) w)
  | i_invokestatic =>
      let pc1 := Int.u4 (pc f + 1) in
      b1 ← bytecode pc1;
      b2 ← bytecode (Int.u4 (pc1 + 1));
      let index := Int.u2 (Z.lor (Z.shiftl b1 8) b2) in
      found ← find_method_from_index index class;
      called_method ← defined found;
      num_params ← get_number_of_parameters called_method;
      let max_locals0 := max_locals (method_code called_method) in
      '(method_locals, sp1) ←
        init_method_locals (stack_block (frames w) (4 * max_locals0))
          max_locals0 num_params stack sp;
      '(r, w1) ← call called_method method_locals (new_frame w);
      st ← (if has_value r then push stack sp1 (value r)
            else Ok (stack, sp1));
      Ok (Next (set_stack f st (Int.u4 (pc1 + 2))) w1)
  | i_nop => Ok (Next (set_pc f (Int.u4 (pc f + 1))) w)
  | i_dup =>
      val ← array_get stack sp;
      st ← push stack sp val;
      Ok (Next (set_stack f st (Int.u4 (pc f + 1))) w)
  | i_newarray =>
      '(count0, sp1) ← pop stack sp;
      new_array ← new_int_array count0;
      '(heap1, ref) ← heap_add (heap w) new_array;
      st ← push stack sp1 ref;
      Ok (Next (set_stack f st (Int.u4 (pc f + 2))) (set_heap w heap1))
  | i_arraylength =>
      '(ref, sp1) ← pop stack sp;
      arr ← heap_get (heap w) ref;
      count0 ← array_get arr 0;
      st ← push stack sp1 count0;
      Ok (Next (set_stack f st (Int.u4 (pc f + 1))) w)
  | i_iastore =>
      '(v, sp1) ← pop stack sp;
      '(index, sp2) ← pop stack sp1;
      '(ref, sp3) ← pop stack sp2;
      arr ← heap_get (heap w) ref;
      arr' ← array_set arr (Int.int32_t (index + 1)) v;
      table ← array_set (ptr (heap w)) ref arr';
      Ok (Next (set_stack f (stack, sp3) (Int.u4 (pc f + 1)))
               (set_heap w (mk_heap table (count (heap w)))))
  | i_iaload =>
      '(index, sp1) ← pop stack sp;
      '(ref, sp2) ← pop stack sp1;
      arr ← heap_get (heap w) ref;
      v ← array_get arr (Int.int32_t (index + 1));
      st ← push stack sp2 v;
      Ok (Next (set_stack f st (Int.u4 (pc f + 1))) w)
  | i_aload_0 | i_aload_1 | i_aload_2 | i_aload_3 =>
      v ← array_get (locals f) (instruction - OFFSET_ALOAD);
      st ← push stack sp v;
      Ok (Next (set_stack f st (Int.u4 (pc f + 1))) w)
  | i_astore_0 | i_astore_1 | i_astore_2 | i_astore_3 =>
      '(v, sp1) ← pop stack sp;
      locals' ← array_set (locals f) (instruction - OFFSET_ASTORE) v;
      Ok (Next (set_locals f sp1 locals' (Int.u4 (pc f + 1))) w)
  | i_return => Ok (Return void_result w)
  end.

(** One turn of the [while] loop: fetch, then the [switch].  The [switch]
    has no [default] label: a byte without a [case] leaves every variable
    as it is. *)
Definition step (f : frame) (w : world) : result outcome :=
  instruction ← bytecode (pc f);
  match decode instruction with
  | Some i => exec i f w
  | None => Ok (Next f w)
  end.

End Step.

(** The [while (pc < code_length)] loop of [execute]; each turn and each
    nested activation consume one unit of fuel. *)
Fixpoint run (fuel : nat) (class : class_file_t) (method : method_t)
  (f : frame) (w : world) : result (optional_value_t * world) :=
  match fuel with
  | O => Fault OutOfFuel
  | S fuel' =>
      if pc f <? code_length (method_code method) then
        o ← step class method
              (fun m l w' => run fuel' class m (enter m l) w') f w;
        match o with
        | Next f' w' => run fuel' class method f' w'
        | Return r w' => Ok (r, w')
        end
      else Ok (void_result, w)
  end.

Definition execute (fuel : nat) (method : method_t) (locals0 : list Z)
  (class : class_file_t) (w : world) : result (optional_value_t * world) :=
  run fuel class method (enter method locals0) w.

End Interpreter.

(** ** The class loader (read_class.c) *)

(** *** The class file as a stream

    A [FILE *] opened for reading: the bytes of the file and the position
    of the next byte.  [fseek] may move the position past the end; every
    read there meets the end of the file. *)
Record FILE : Type := mk_file {
  contents : list Z;
  position : Z
}.

Definition advance (f : FILE) (n : Z) : FILE :=
  mk_file (contents f) (position f + n).

(** The bytes from the position on. *)
Definition remaining (f : FILE) : list Z :=
  if 0 <=? position f then drop (Z.to_nat (position f)) (contents f) else [].

(** [fgetc]: the next byte as an [unsigned char], or [None] for [EOF]. *)
Definition fgetc (f : FILE) : option Z * FILE :=
  match remaining f with
  | b :: _ => (Some (Int.u1 b), advance f 1)
  | [] => (None, f)
  end.

(** [fread(buffer, 1, n, f)]: the bytes read, at most [n]; their number is
    the value [fread] returns. *)
Definition fread (f : FILE) (n : Z) : list Z * FILE :=
  let bytes := take (Z.to_nat n) (remaining f) in
  (map Int.u1 bytes, advance f (Z.of_nat (length bytes))).

Definition ftell (f : FILE) : Z := position f.

(** [fseek(f, offset, SEEK_SET)]; a negative offset is refused and leaves
    the position where it is.  The loader ignores the value returned. *)
Definition fseek (f : FILE) (offset : Z) : FILE :=
  if 0 <=? offset then mk_file (contents f) offset else f.

(** *** Big-endian fields

    The two reads in [read_u2] and in [read_u4] are operands of [|]; they
    are taken in the order written, left operand first. *)

Definition read_u1 (class_file : FILE) : result (Z * FILE) :=
  match fgetc class_file with
  | (Some b, f1) => Ok (b, f1)
  | (None, _) => Fault AssertionFailed
  end.

Definition read_u2 (class_file : FILE) : result (Z * FILE) :=
  '(hi, f1) ← read_u1 class_file;
  '(lo, f2) ← read_u1 f1;
  Ok (Int.u2 (Z.lor (Z.shiftl (Int.u2 hi) 8) lo), f2).

Definition read_u4 (class_file : FILE) : result (Z * FILE) :=
  '(hi, f1) ← read_u2 class_file;
  '(lo, f2) ← read_u2 f1;
  Ok (Int.u4 (Z.lor (Int.u4 (Z.shiftl (Int.u4 hi) 16)) lo), f2).

Definition CLASS_MAGIC : Z := 0xCAFEBABE.
Definition IS_STATIC : Z := 0x0008.

Record class_header_t : Type := mk_header {
  magic : Z;
  major_version : Z;
  minor_version : Z
}.

Definition get_class_header (class_file : FILE)
  : result (class_header_t * FILE) :=
  '(magic0, f1) ← read_u4 class_file;
  _ ← assert (magic0 =? CLASS_MAGIC);
  '(major, f2) ← read_u2 f1;
  '(minor, f3) ← read_u2 f2;
  Ok (mk_header magic0 major minor, f3).

(** *** The constant pool *)

(** Modelled from the spec: the tag constants are declared in read_class.h,
    which is not among the sources; the spec names the six tags and refers
    to the standard class-file format for their encoding. *)
Definition tag_of (c : cp_info) : Z :=
  match c with
  | CONSTANT_Utf8 _ => 1
  | CONSTANT_Integer _ => 3
  | CONSTANT_Class _ => 7
  | CONSTANT_Fieldref _ _ => 9
  | CONSTANT_Methodref _ _ => 10
  | CONSTANT_NameAndType _ _ => 12
  end.

(** The C string held by a buffer of bytes. *)
Definition string_of_bytes (bytes : list Z) : string :=
  string_of_list_ascii (map (fun b => ascii_of_nat (Z.to_nat b)) bytes).

(** One turn of the [switch] on the tag byte. *)
Definition read_constant (tag : Z) (class_file : FILE)
  : result (cp_info * FILE) :=
  match tag with
  | 1 =>
      '(len, f1) ← read_u2 class_file;
      let '(info, f2) := fread f1 len in
      _ ← assert (Z.of_nat (length info) =? len);
      Ok (CONSTANT_Utf8 (string_of_bytes info), f2)
  | 3 =>
      '(bytes, f1) ← read_u4 class_file;
      Ok (CONSTANT_Integer (Int.int32_t bytes), f1)
  | 7 =>
      '(string_index, f1) ← read_u2 class_file;
      Ok (CONSTANT_Class string_index, f1)
  | 10 =>
      '(class_index, f1) ← read_u2 class_file;
      '(name_and_type_index, f2) ← read_u2 f1;
      Ok (CONSTANT_Methodref class_index name_and_type_index, f2)
  | 9 =>
      '(class_index, f1) ← read_u2 class_file;
      '(name_and_type_index, f2) ← read_u2 f1;
      Ok (CONSTANT_Fieldref class_index name_and_type_index, f2)
  | 12 =>
      '(name_index, f1) ← read_u2 class_file;
      '(descriptor_index, f2) ← read_u2 f1;
      Ok (CONSTANT_NameAndType name_index descriptor_index, f2)
  | _ => Fault AssertionFailed
  end.

(** The [while (constant_pool_count > 0)] loop. *)
Fixpoint read_constants (constant_pool_count : nat) (class_file : FILE)
  : result (list cp_info * FILE) :=
  match constant_pool_count with
  | O => Ok ([], class_file)
  | S n =>
      '(tag, f1) ← read_u1 class_file;
      '(constant, f2) ← read_constant tag f1;
      '(rest, f3) ← read_constants n f2;
      Ok (constant :: rest, f3)
  end.

Definition get_constant_pool (class_file : FILE)
  : result (list cp_info * FILE) :=
  '(n, f1) ← read_u2 class_file;
  let constant_pool_count := Int.u2 (n - 1) in
  read_constants (Z.to_nat constant_pool_count) f1.

(** *** Class information *)

Record class_info_t : Type := mk_class_info {
  access_flags : Z;
  this_class : Z;
  super_class : Z
}.

Definition get_class_info (class_file : FILE) : result (class_info_t * FILE) :=
  '(flags, f1) ← read_u2 class_file;
  '(this, f2) ← read_u2 f1;
  '(super, f3) ← read_u2 f2;
  '(interfaces_count, f4) ← read_u2 f3;
  _ ← assert (interfaces_count =? 0);
  '(fields_count, f5) ← read_u2 f4;
  _ ← assert (fields_count =? 0);
  Ok (mk_class_info flags this super, f5).

(** *** Methods *)

(** The body of the [if (strcmp(type_constant->info, "Code") == 0)].
    [malloc] is taken to return a block for every length of the code, the
    length 0 included. *)
Definition read_code (class_file : FILE) (found_code : bool)
  : result (code_t * FILE) :=
  _ ← assert (negb found_code);
  '(max_stack0, f1) ← read_u2 class_file;
  '(max_locals0, f2) ← read_u2 f1;
  '(code_length0, f3) ← read_u4 f2;
  let '(bytes, f4) := fread f3 code_length0 in
  _ ← assert (Z.of_nat (length bytes) =? code_length0);
  Ok (mk_code max_stack0 max_locals0 bytes, f4).

(** The [for] loop of [read_method_attributes]; [found] is the [Code]
    attribute read so far, whose presence is [found_code]. *)
Fixpoint read_attributes (attributes : nat) (class_file : FILE)
  (found : option code_t) (pool : list cp_info)
  : result (option code_t * FILE) :=
  match attributes with
  | O => Ok (found, class_file)
  | S n =>
      '(attribute_name_index, f1) ← read_u2 class_file;
      '(attribute_length, f2) ← read_u4 f1;
      let attribute_end := ftell f2 + attribute_length in
      type_constant ← get_constant pool attribute_name_index;
      match type_constant with
      | CONSTANT_Utf8 info =>
          '(found1, f3) ←
            (if strcmp_eq info "Code"
             then '(c, f3) ← read_code f2 (bool_decide (is_Some found));
                  Ok (Some c, f3)
             else Ok (found, f2));
          read_attributes n (fseek f3 attribute_end) found1 pool
      | _ => Fault AssertionFailed
      end
  end.

Definition read_method_attributes (class_file : FILE) (attributes_count : Z)
  (pool : list cp_info) : result (code_t * FILE) :=
  '(found, f1) ← read_attributes (Z.to_nat attributes_count) class_file None pool;
  match found with
  | Some c => Ok (c, f1)
  | None => Fault AssertionFailed
  end.

(** The [while (method_count > 0)] loop of [get_methods]. *)
Fixpoint read_methods (method_count : nat) (class_file : FILE)
  (pool : list cp_info) : result (list method_t * FILE) :=
  match method_count with
  | O => Ok ([], class_file)
  | S n =>
      '(flags, f1) ← read_u2 class_file;
      '(name_index, f2) ← read_u2 f1;
      '(descriptor_index, f3) ← read_u2 f2;
      '(attributes_count, f4) ← read_u2 f3;
      name0 ← get_constant pool name_index;
      match name0 with
      | CONSTANT_Utf8 name_info =>
          descriptor0 ← get_constant pool descriptor_index;
          match descriptor0 with
          | CONSTANT_Utf8 descriptor_info =>
              _ ← assert (strcmp_eq name_info "<init>"
                          || negb (Z.land flags IS_STATIC =? 0));
              '(c, f5) ← read_method_attributes f4 attributes_count pool;
              '(rest, f6) ← read_methods n f5 pool;
              Ok (mk_method name_info descriptor_info c :: rest, f6)
          | _ => Fault AssertionFailed
          end
      | _ => Fault AssertionFailed
      end
  end.

Definition get_methods (class_file : FILE) (pool : list cp_info)
  : result (list method_t * FILE) :=
  '(method_count, f1) ← read_u2 class_file;
  read_methods (Z.to_nat method_count) f1 pool.

Definition get_class (class_file : FILE) : result (class_file_t * FILE) :=
  '(_, f1) ← get_class_header class_file;
  '(pool, f2) ← get_constant_pool f1;
  '(_, f3) ← get_class_info f2;
  '(ms, f4) ← get_methods f3 pool;
  Ok (mk_class pool ms, f4).

(** ** The driver (jvm.c) *)

Definition MAIN_METHOD : string := "main".
Definition MAIN_DESCRIPTOR : string := "([Ljava/lang/String;)V".

(** [main] once the class file is open: the lines it prints. *)
Definition jvm_main (residue : nat -> Z -> Z) (fuel : nat) (class_file : FILE)
  : result (list Z) :=
  '(class, _) ← get_class class_file;
  let heap0 := heap_init in
  match find_method MAIN_METHOD MAIN_DESCRIPTOR (methods class) with
  | None => Fault AssertionFailed
  | Some main_method =>
      let locals0 :=
        replicate (Z.to_nat (max_locals (method_code main_method))) 0 in
      '(r, w) ← execute residue fuel main_method locals0 class
                  (mk_world heap0 [] 0);
      _ ← assert (negb (has_value r));
      Ok (output w)
  end.

(** ** Vocabulary of the statements *)

(** A parameter token of a descriptor: [dims] leading brackets and one
    component letter. *)
Record param_token : Type := mk_token {
  dims : nat;
  letter : ascii
}.

Definition render_token (t : param_token) : list ascii :=
  replicate (dims t) "["%char ++ [letter t].

Definition render_tokens (ts : list param_token) : list ascii :=
  concat (map render_token ts).

(** The descriptor [(<params>)<ret>]. *)
Definition descriptor_of (ts : list param_token) (ret : string) : string :=
  String "("%char
    (string_of_list_ascii (render_tokens ts) +:+ String ")"%char ret).

(** A component letter is a character other than the bracket, the closing
    parenthesis and the terminator. *)
Definition component_letter (c : ascii) : Prop :=
  c ≠ "["%char ∧ c ≠ ")"%char ∧ c ≠ NUL.

(** What the loop of [get_number_of_parameters] counts for one token. *)
Definition counted (t : param_token) : Z := Z.of_nat (dims t / 2) + 1.

Definition counted_all (ts : list param_token) : Z :=
  foldr (fun t r => counted t + r) 0 ts.

Definition is_byte (b : Z) : Prop := 0 <= b < 256.

(** The bytes [bs] are the code of [method] from [pc f] on. *)
Definition at_pc (method : method_t) (f : frame) (bs : list Z) : Prop :=
  0 <= pc f
  ∧ code_length (method_code method) < 2 ^ 32
  ∧ take (length bs) (drop (Z.to_nat (pc f)) (code (method_code method))) = bs
  ∧ Forall is_byte bs.

(** The operand stack is an array of at most 65535 cells ([max_stack] is a
    [u2]) and the stack pointer is -1 or the index of a cell. *)
Definition frame_ok (f : frame) : Prop :=
  Z.of_nat (length (operand_stack f)) <= 65535
  ∧ -1 <= stack_pointer f < Z.of_nat (length (operand_stack f)).

(** The cells [vs] are the topmost ones of the operand stack, the last of
    [vs] on top. *)
Definition on_top (f : frame) (vs : list Z) : Prop :=
  Z.of_nat (length vs) - 1 <= stack_pointer f
  ∧ take (length vs)
      (drop (Z.to_nat (stack_pointer f + 1 - Z.of_nat (length vs)))
         (operand_stack f)) = vs.

(** There is a free cell above the top of the stack. *)
Definition has_room (f : frame) : Prop :=
  stack_pointer f + 1 < Z.of_nat (length (operand_stack f)).

(** The table of a heap has [count] entries, and one more fits. *)
Definition heap_ok (h : heap_t) : Prop :=
  Z.of_nat (length (ptr h)) = count h ∧ count h < Int.INT32_MAX.

(** The frame after [n] cells were popped, [v] was pushed and [pc] became
    [pc']; the cells above the new top keep what they held. *)
Definition popped_pushed (n : nat) (f : frame) (v : Z) (pc' : Z) : frame :=
  let sp := stack_pointer f - Z.of_nat n + 1 in
  mk_frame (<[Z.to_nat sp := v]> (operand_stack f)) sp (locals f) pc'.

(** The frame after [n] cells were popped and [pc] became [pc']. *)
Definition popped (n : nat) (f : frame) (pc' : Z) : frame :=
  mk_frame (operand_stack f) (stack_pointer f - Z.of_nat n) (locals f) pc'.

(** Sign extension of an unsigned [bits]-bit value. *)
Definition sign_extend (bits : Z) (x : Z) : Z :=
  if x <? 2 ^ (bits - 1) then x else x - 2 ^ bits.

(** The shifts by the amount modulo 32: to the left, the product with the
    power of two reduced to an [int32_t]; to the right, the quotient by the
    power of two rounded down. *)
Definition masked_shl (v shift_amount : Z) : Z :=
  Int.int32_t (v * 2 ^ (shift_amount mod 32)).

Definition masked_shr (v shift_amount : Z) : Z :=
  v / 2 ^ (shift_amount mod 32).

Definition masked_shift (i : jvm_instruction_t) (v shift_amount : Z) : Z :=
  match i with
  | i_ishl => masked_shl v shift_amount
  | _ => masked_shr v shift_amount
  end.

(** The array [newarray] builds for a count [n]. *)
Definition fresh_array (n : Z) : array :=
  if 0 <? n then n :: replicate (Z.to_nat n) 0 else [n].

(** The +1 layout of an array for the count [n], an [int32_t]: slot 0
    holds [n], and the elements are the slots 1..n that follow it. *)
Definition laid_out (arr : array) (n : Z) : Prop :=
  arr !! 0%nat = Some n
  ∧ Z.of_nat (length arr) = Z.max n 0 + 1
  ∧ n <= Int.INT32_MAX.

(** The world after slot [slot] of the array [arr], which the heap holds at
    [ref], received [v]. *)
Definition stored (w : world) (ref slot v : Z) (arr : array) : world :=
  set_heap w
    (mk_heap (<[Z.to_nat ref := <[Z.to_nat slot := v]> arr]> (ptr (heap w)))
       (count (heap w))).

(** The block of the [k]-th [method_locals] after the [memset] of
    [max_locals] bytes. *)
Definition zeroed_block (residue : nat -> Z -> Z) (k : nat) (max_locals0 : Z)
  : list Z :=
  replicate (Z.to_nat max_locals0) 0
  ++ drop (Z.to_nat max_locals0) (stack_block residue k (4 * max_locals0)).

(** What the locals above the [n] parameters hold when a callee is entered:
    the [int32_t] view of that block past its first [n] slots. *)
Definition spare_locals (residue : nat -> Z -> Z) (k : nat) (max_locals0 : Z)
  (n : nat) : list Z :=
  drop n (as_int32_array (zeroed_block residue k max_locals0)).

(** A frame is stuck when no number of loop turns makes [execute] return. *)
Definition spins (residue : nat -> Z -> Z) (class : class_file_t)
  (method : method_t) (f : frame) (w : world) : Prop :=
  ∀ fuel, run residue fuel class method f w = Fault OutOfFuel.

(** *** Vocabulary of the loader statements *)

Definition is_u2 (x : Z) : Prop := 0 <= x < 65536.
Definition is_u4 (x : Z) : Prop := 0 <= x < 2 ^ 32.

(** The bytes [bs] come next in the file. *)
Definition ahead (f : FILE) (bs : list Z) : Prop :=
  0 <= position f
  ∧ Forall is_byte bs
  ∧ ∃ rest, drop (Z.to_nat (position f)) (contents f) = bs ++ rest.

(** The class-file encoding of 16-bit and 32-bit fields: high byte first. *)
Definition encode_u2 (x : Z) : list Z := [x / 256; x mod 256].

Definition encode_u4 (x : Z) : list Z :=
  encode_u2 (x / 65536) ++ encode_u2 (x mod 65536).

Definition bytes_of_string (s : string) : list Z :=
  map (fun c => Z.of_nat (nat_of_ascii c)) (list_ascii_of_string s).

(** The class-file encoding of a constant: its tag, then its fields. *)
Definition encode_constant (c : cp_info) : list Z :=
  tag_of c ::
  match c with
  | CONSTANT_Utf8 info =>
      encode_u2 (Z.of_nat (length (bytes_of_string info)))
      ++ bytes_of_string info
  | CONSTANT_Integer bytes => encode_u4 (Int.u4 bytes)
  | CONSTANT_Class string_index => encode_u2 string_index
  | CONSTANT_Fieldref a b | CONSTANT_Methodref a b
  | CONSTANT_NameAndType a b => encode_u2 a ++ encode_u2 b
  end.

Definition encode_constants (pool : list cp_info) : list Z :=
  concat (map encode_constant pool).

(** The count field of the file is one more than the number of entries. *)
Definition encode_constant_pool (pool : list cp_info) : list Z :=
  encode_u2 (Z.of_nat (length pool) + 1) ++ encode_constants pool.

(** The fields of a constant fit the widths of the file format. *)
Definition constant_ok (c : cp_info) : Prop :=
  match c with
  | CONSTANT_Utf8 info => Z.of_nat (length (bytes_of_string info)) < 65536
  | CONSTANT_Integer bytes => Int.INT32_MIN <= bytes <= Int.INT32_MAX
  | CONSTANT_Class string_index => is_u2 string_index
  | CONSTANT_Fieldref a b | CONSTANT_Methodref a b
  | CONSTANT_NameAndType a b => is_u2 a ∧ is_u2 b
  end.

(** An attribute of a method in the file: the [Code] attribute, with what
    follows the bytecode inside it (exception table, nested attributes), or
    any other attribute with its payload. *)
Inductive attribute : Type :=
  | Code_attribute (name_index : Z) (c : code_t) (trailer : list Z)
  | Other_attribute (name_index : Z) (payload : list Z).

Definition attribute_name (a : attribute) : Z :=
  match a with
  | Code_attribute name_index _ _ => name_index
  | Other_attribute name_index _ => name_index
  end.

Definition attribute_payload (a : attribute) : list Z :=
  match a with
  | Code_attribute _ c trailer =>
      encode_u2 (max_stack c) ++ encode_u2 (max_locals c)
      ++ encode_u4 (code_length c) ++ code c ++ trailer
  | Other_attribute _ payload => payload
  end.

Definition encode_attribute (a : attribute) : list Z :=
  encode_u2 (attribute_name a)
  ++ encode_u4 (Z.of_nat (length (attribute_payload a)))
  ++ attribute_payload a.

Definition encode_attributes (attrs : list attribute) : list Z :=
  concat (map encode_attribute attrs).

(** The [Code] attributes among a list of attributes. *)
Definition codes_in (attrs : list attribute) : list code_t :=
  omap (fun a => match a with
                 | Code_attribute _ c _ => Some c
                 | Other_attribute _ _ => None
                 end) attrs.

(** An attribute is well formed in a pool when its name is a Utf8 constant
    that is ["Code"] exactly for the [Code] attribute, and its fields fit
    the widths of the file format. *)
Definition attribute_ok (pool : list cp_info) (a : attribute) : Prop :=
  is_u2 (attribute_name a)
  ∧ is_u4 (Z.of_nat (length (attribute_payload a)))
  ∧ Forall is_byte (attribute_payload a)
  ∧ ∃ info,
      get_constant pool (attribute_name a) = Ok (CONSTANT_Utf8 info)
      ∧ strcmp_eq info "Code"
        = match a with Code_attribute _ _ _ => true | _ => false end
  ∧ match a with
    | Code_attribute _ c _ => is_u2 (max_stack c) ∧ is_u2 (max_locals c)
    | Other_attribute _ _ => True
    end.

(** A method of the file: its fields and attributes. *)
Record method_entry : Type := mk_entry {
  entry_flags : Z;
  entry_name : Z;
  entry_descriptor : Z;
  entry_attributes : list attribute
}.

Definition encode_method (e : method_entry) : list Z :=
  encode_u2 (entry_flags e) ++ encode_u2 (entry_name e)
  ++ encode_u2 (entry_descriptor e)
  ++ encode_u2 (Z.of_nat (length (entry_attributes e)))
  ++ encode_attributes (entry_attributes e).

Definition encode_methods (es : list method_entry) : list Z :=
  encode_u2 (Z.of_nat (length es)) ++ concat (map encode_method es).

(** The method the loader builds from an entry that names the Utf8
    constants [name_info] and [descriptor_info] and holds the code [c]. *)
Definition entry_loads_as (pool : list cp_info) (e : method_entry)
  (m : method_t) : Prop :=
  is_u2 (entry_flags e) ∧ is_u2 (entry_name e) ∧ is_u2 (entry_descriptor e)
  ∧ is_u2 (Z.of_nat (length (entry_attributes e)))
  ∧ get_constant pool (entry_name e) = Ok (CONSTANT_Utf8 (name m))
  ∧ get_constant pool (entry_descriptor e) = Ok (CONSTANT_Utf8 (descriptor m))
  ∧ (strcmp_eq (name m) "<init>" = true ∨ Z.land (entry_flags e) IS_STATIC ≠ 0)
  ∧ Forall (attribute_ok pool) (entry_attributes e)
  ∧ codes_in (entry_attributes e) = [method_code m].

(** The encoding of a whole class file: header with the two version
    fields, constant pool, class information without interfaces and
    fields, methods. *)
Definition encode_class (versions : Z * Z) (info : class_info_t)
  (pool : list cp_info) (es : list method_entry) : list Z :=
  encode_u4 CLASS_MAGIC ++ encode_u2 (fst versions) ++ encode_u2 (snd versions)
  ++ encode_constant_pool pool
  ++ encode_u2 (access_flags info) ++ encode_u2 (this_class info)
  ++ encode_u2 (super_class info) ++ encode_u2 0 ++ encode_u2 0
  ++ encode_methods es.

(** The conditions under which a class file encodes the class
    [mk_class pool ms]. *)
Definition class_encodes (versions : Z * Z) (info : class_info_t)
  (pool : list cp_info) (es : list method_entry) (ms : list method_t)
  : Prop :=
  is_u2 (fst versions) ∧ is_u2 (snd versions)
  ∧ is_u2 (access_flags info) ∧ is_u2 (this_class info)
  ∧ is_u2 (super_class info)
  ∧ Z.of_nat (length pool) < 65535 ∧ Forall constant_ok pool
  ∧ is_u2 (Z.of_nat (length es))
  ∧ Forall2 (entry_loads_as pool) es ms.

(** *** Vocabulary of the instruction statements *)

(** The values of an [int32_t]. *)
Definition in_int32 (x : Z) : Prop := Int.INT32_MIN <= x <= Int.INT32_MAX.

(** The table of a heap has [count] entries, and [count] is an [int32_t]. *)
Definition heap_counted (h : heap_t) : Prop :=
  Z.of_nat (length (ptr h)) = count h ∧ count h <= Int.INT32_MAX.

(** From [h] to [h']: the count does not decrease, and every reference of
    [h] is one of [h'], to an array of the same length. *)
Definition heap_grows (h h' : heap_t) : Prop :=
  count h <= count h'
  ∧ ∀ (r : nat) (a : array),
      ptr h !! r = Some a → ∃ a', ptr h' !! r = Some a' ∧ length a' = length a.

(** From [w] to [w']: lines were only added to the output, the heap grew,
    and no frame was forgotten. *)
Definition world_grows (w w' : world) : Prop :=
  (∃ printed, output w' = output w ++ printed)
  ∧ heap_grows (heap w) (heap w')
  ∧ (frames w <= frames w')%nat.

Definition world_of (o : outcome) : world :=
  match o with
  | Next _ w => w
  | Return _ w => w
  end.

(** *** Vocabulary of the lookup statements *)

(** The C string a character array holds: its characters before the first
    terminator. *)
Fixpoint c_string (s : string) : string :=
  match s with
  | EmptyString => EmptyString
  | String c s' =>
      if Ascii.eqb c NUL then EmptyString else String c (c_string s')
  end.

(** [method] has the name and the descriptor looked for. *)
Definition named (name0 descriptor0 : string) (method : method_t) : Prop :=
  c_string (name method) = c_string name0
  ∧ c_string (descriptor method) = c_string descriptor0.

(** Entry [index] of a constant pool, counted from 1. *)
Definition entry (pool : list cp_info) (index : Z) : option cp_info :=
  if 1 <=? index then pool !! Z.to_nat (index - 1) else None.

(** Entry [index] is a method reference whose name-and-type entry leads to
    the two strings [name0] and [descriptor0]. *)
Definition resolves (pool : list cp_info) (index : Z)
  (name0 descriptor0 : string) : Prop :=
  ∃ class_index name_and_type_index name_index descriptor_index,
    entry pool index
    = Some (CONSTANT_Methodref class_index name_and_type_index)
    ∧ entry pool name_and_type_index
      = Some (CONSTANT_NameAndType name_index descriptor_index)
    ∧ entry pool name_index = Some (CONSTANT_Utf8 name0)
    ∧ entry pool descriptor_index = Some (CONSTANT_Utf8 descriptor0).

(** ** Sample programs

    Small class files on which the statements below are exercised. *)

Module Sample.

Definition no_residue : nat -> Z -> Z := fun _ _ => 0.

(** The host stack was left full of the byte [0xAA]. *)
Definition dirty_residue : nat -> Z -> Z := fun _ _ => 0xAA.

Definition no_call : method_t -> list Z -> world
                     -> result (optional_value_t * world) :=
  fun _ _ _ => Fault OutOfFuel.

Definition main_descriptor : string := "([Ljava/lang/String;)V".

Definition empty_world : world := mk_world heap_init [] 0.

(** [bipush 0xFF; sipush 0x8000; sipush 0x7FFF; return] *)
Definition immediates : method_t :=
  mk_method "main" main_descriptor
    (mk_code 3 1 [0x10; 0xFF; 0x11; 0x80; 0x00; 0x11; 0x7F; 0xFF; 0xb1]).

(** A method whose only byte, [0x01], is the opcode of no instruction. *)
Definition unknown : method_t :=
  mk_method "main" main_descriptor (mk_code 1 1 [0x01]).

(** [ldc #1; return] in a class whose constant 1 is a Utf8 entry. *)
Definition ldc_utf8 : method_t :=
  mk_method "main" main_descriptor (mk_code 1 1 [0x12; 1; 0xb1]).

Definition ldc_utf8_class : class_file_t :=
  mk_class [CONSTANT_Utf8 "text"] [ldc_utf8].

(** [iconst_1; bipush n; ishl; invokevirtual; return]: prints [1 << n]. *)
Definition shl_by (n : Z) : method_t :=
  mk_method "main" main_descriptor
    (mk_code 2 1 [0x04; 0x10; n; 0x78; 0xb6; 0; 0; 0xb1]).

(** [iastore; iaload; arraylength; newarray int; return] *)
Definition arrays : method_t :=
  mk_method "main" main_descriptor
    (mk_code 3 1 [0x4f; 0x2e; 0xbe; 0xbc; 10; 0xb1]).

(** A world whose heap holds one array of three elements. *)
Definition one_array_world : world :=
  mk_world (mk_heap [[3; 0; 0; 0]] 1) [] 0.

(** The static method [second(a, b)], whose body is [iload_1; ireturn],
    and a [main] that prints [second(7, 9)]:
    [bipush 7; bipush 9; invokestatic #1; invokevirtual; return]. *)
Definition second : method_t :=
  mk_method "second" "(II)I" (mk_code 1 2 [0x1b; 0xac]).

Definition call_second : method_t :=
  mk_method "main" main_descriptor
    (mk_code 2 1 [0x10; 7; 0x10; 9; 0xb8; 0; 1; 0xb6; 0; 0; 0xb1]).

Definition second_class : class_file_t :=
  mk_class
    [ CONSTANT_Methodref 0 2; CONSTANT_NameAndType 3 4;
      CONSTANT_Utf8 "second"; CONSTANT_Utf8 "(II)I" ]
    [call_second; second].

(** The static method [spare(a)], which has one parameter and two locals
    and whose body is [iload_1; ireturn], and a [main] that prints
    [spare(5)]: [iconst_5; invokestatic #1; invokevirtual; return]. *)
Definition spare : method_t :=
  mk_method "spare" "(I)I" (mk_code 1 2 [0x1b; 0xac]).

Definition call_spare : method_t :=
  mk_method "main" main_descriptor
    (mk_code 2 1 [0x08; 0xb8; 0; 1; 0xb6; 0; 0; 0xb1]).

Definition spare_class : class_file_t :=
  mk_class
    [ CONSTANT_Methodref 0 2; CONSTANT_NameAndType 3 4;
      CONSTANT_Utf8 "spare"; CONSTANT_Utf8 "(I)I" ]
    [call_spare; spare].

(** The class file of [second_class]: its pool extended with the names the
    method table and the attributes need, [main] with a line-number table
    before its code, [second] with its code only. *)
Definition loader_pool : list cp_info :=
  constant_pool second_class
  ++ [ CONSTANT_Utf8 "main"; CONSTANT_Utf8 main_descriptor;
       CONSTANT_Utf8 "Code"; CONSTANT_Utf8 "LineNumberTable" ].

Definition main_attributes : list attribute :=
  [ Other_attribute 8 [0; 1; 0; 0; 0; 0];
    Code_attribute 7 (method_code call_second) [0; 0; 0; 0] ].

Definition second_entries : list method_entry :=
  [ mk_entry 0x0009 5 6 main_attributes;
    mk_entry 0x0008 3 4
      [Code_attribute 7 (method_code second) [0; 0; 0; 0]] ].

Definition loaded_class : class_file_t :=
  mk_class loader_pool [call_second; second].

Definition second_file : FILE :=
  mk_file (encode_class (0, 52) (mk_class_info 0x21 0 0) loader_pool
             second_entries) 0.

(** A file that ends inside its magic number. *)
Definition truncated_file : FILE := mk_file [0xCA; 0xFE; 0xBA] 0.

(** [isub; idiv; irem; iushr; iinc 0 -3; return] *)
Definition arithmetic : method_t :=
  mk_method "main" main_descriptor
    (mk_code 2 1 [0x64; 0x6c; 0x70; 0x7c; 0x84; 0; 0xFD; 0xb1]).

(** [iflt -2; if_icmplt +5; goto +0x7F00; return] *)
Definition branches : method_t :=
  mk_method "main" main_descriptor
    (mk_code 2 1 [0x9b; 0xFF; 0xFE; 0xa1; 0; 5; 0xa7; 0x7F; 0; 0xb1]).

(** [istore 1; iload 1; return] *)
Definition store_load : method_t :=
  mk_method "main" main_descriptor (mk_code 1 2 [0x36; 1; 0x15; 1; 0xb1]).

(** [getstatic #2; bipush 42; invokevirtual #3; return] *)
Definition println : method_t :=
  mk_method "main" main_descriptor
    (mk_code 1 1 [0xb2; 0; 2; 0x10; 42; 0xb6; 0; 3; 0xb1]).

(** [ldc #1; return] in a class whose constant 1 is an Integer. *)
Definition ldc_int : method_t :=
  mk_method "main" main_descriptor (mk_code 2 1 [0x12; 1; 0xb1]).

Definition ldc_int_class : class_file_t :=
  mk_class [CONSTANT_Integer 100000] [ldc_int].

(** [invokestatic #1; return] in a class that has no method of the name
    that constant 1 refers to. *)
Definition call_absent : method_t :=
  mk_method "main" main_descriptor (mk_code 1 1 [0xb8; 0; 1; 0xb1]).

Definition absent_class : class_file_t :=
  mk_class
    [ CONSTANT_Methodref 0 2; CONSTANT_NameAndType 3 4;
      CONSTANT_Utf8 "absent"; CONSTANT_Utf8 "()V" ]
    [call_absent].

(** [iconst_2; newarray int; arraylength; invokevirtual; return]: allocates
    an array of two elements and prints its length. *)
Definition allocate : method_t :=
  mk_method "main" main_descriptor
    (mk_code 1 1 [0x05; 0xbc; 10; 0xbe; 0xb6; 0; 0; 0xb1]).

(** [bipush 42; invokevirtual; return]: prints 42. *)
Definition hello : method_t :=
  mk_method "main" main_descriptor (mk_code 1 1 [0x10; 42; 0xb6; 0; 0; 0xb1]).

(** [iconst_3; newarray int; astore_0; aload_0; iconst_1; bipush 20;
    iastore; aload_0; iconst_1; iaload; invokevirtual; return]: stores 20 in
    element 1 of a new array of three, loads it back and prints it. *)
Definition store_and_load : method_t :=
  mk_method "main" main_descriptor
    (mk_code 3 1
       [0x06; 0xbc; 10; 0x4b; 0x2a; 0x04; 0x10; 20; 0x4f; 0x2a; 0x04; 0x2e;
        0xb6; 0; 0; 0xb1]).

(** [ldc #1; newarray int; return] in a class whose constant 1 is the
    largest [int32_t]. *)
Definition newarray_of_max : method_t :=
  mk_method "main" main_descriptor (mk_code 1 1 [0x12; 1; 0xbc; 10; 0xb1]).

Definition newarray_of_max_class : class_file_t :=
  mk_class [CONSTANT_Integer 2147483647] [newarray_of_max].

End Sample.

(** Tactics that check [at_pc] and the frame conditions on a sample. *)
Ltac solve_at_pc :=
  unfold at_pc, code_length; simpl;
  repeat split; try reflexivity; try lia;
  repeat constructor; unfold is_byte; lia.

Ltac solve_frame :=
  unfold frame_ok, has_room, on_top; simpl;
  repeat split; try reflexivity; lia.

(** The same for [ahead], given the bytes that follow. *)
Ltac solve_bytes :=
  match goal with
  | |- Forall is_byte ?l =>
      let l' := eval vm_compute in l in
      change (Forall is_byte l');
      repeat (constructor; [unfold is_byte; lia|]); constructor
  end.

Ltac solve_ahead rest :=
  split; [simpl; lia|]; split; [solve_bytes|exists rest; reflexivity].

(** The same for the attributes of a sample method. *)
Ltac solve_attributes :=
  repeat (constructor;
          [repeat split; try (unfold is_u2, is_u4; simpl; lia);
           try solve_bytes;
           eexists; repeat split; try reflexivity;
           unfold is_u2; simpl; lia|]);
  try constructor.

Ltac at_offset H k :=
  match type of H with
  | ahead (advance ?f ?e) _ => replace e with k in H by lia
  end.

(** * Properties *)

(** ** Machine integers *)

Lemma u1_small x : 0 <= x < 256 → Int.u1 x = x.
Proof. intros H. unfold Int.u1, Int.wrap_unsigned. apply Z.mod_small. lia. Qed.

Lemma u2_small x : 0 <= x < 65536 → Int.u2 x = x.
Proof. intros H. unfold Int.u2, Int.wrap_unsigned. apply Z.mod_small. lia. Qed.

Lemma u4_small x : 0 <= x < 2 ^ 32 → Int.u4 x = x.
Proof. intros H. unfold Int.u4, Int.wrap_unsigned. apply Z.mod_small. lia. Qed.

Lemma size_t_small x : 0 <= x < 2 ^ 64 → Int.size_t x = x.
Proof.
  intros H. unfold Int.size_t, Int.wrap_unsigned. apply Z.mod_small. lia.
Qed.

Lemma int32_small x : - 2 ^ 31 <= x < 2 ^ 31 → Int.int32_t x = x.
Proof.
  intros H. unfold Int.int32_t, Int.wrap_signed.
  change (2 ^ (32 - 1)) with (2 ^ 31). rewrite Z.mod_small; lia.
Qed.

Lemma int8_sign_extend b :
  0 <= b < 256 → Int.int8_t b = sign_extend 8 b.
Proof.
  intros H. unfold Int.int8_t, Int.wrap_signed, sign_extend.
  change (2 ^ (8 - 1)) with 128. change (2 ^ 8) with 256.
  destruct (Z.ltb_spec b 128).
  - rewrite Z.mod_small; lia.
  - replace (b + 128) with (b - 128 + 1 * 256) by lia.
    rewrite Z.mod_add by lia. rewrite Z.mod_small; lia.
Qed.

Lemma int16_sign_extend x :
  0 <= x < 65536 → Int.int16_t x = sign_extend 16 x.
Proof.
  intros H. unfold Int.int16_t, Int.wrap_signed, sign_extend.
  change (2 ^ (16 - 1)) with 32768. change (2 ^ 16) with 65536.
  destruct (Z.ltb_spec x 32768).
  - rewrite Z.mod_small; lia.
  - replace (x + 32768) with (x - 32768 + 1 * 65536) by lia.
    rewrite Z.mod_add by lia. rewrite Z.mod_small; lia.
Qed.

(** Two bytes combined high byte first. *)
Lemma big_endian_pair b1 b2 :
  0 <= b1 < 256 → 0 <= b2 < 256 →
  Z.lor (Z.shiftl b1 8) b2 = 256 * b1 + b2 ∧ 0 <= 256 * b1 + b2 < 65536.
Proof.
  intros H1 H2. split; [|lia].
  rewrite Z.shiftl_mul_pow2 by lia.
  assert (Hdisjoint : Z.land (b1 * 2 ^ 8) b2 = 0).
  { apply Z.bits_inj'. intros n Hn. rewrite Z.land_spec, Z.bits_0.
    destruct (Z.ltb_spec n 8).
    - rewrite Z.mul_pow2_bits_low by lia. reflexivity.
    - replace (Z.testbit b2 n) with false; [apply andb_false_r|].
      symmetry. destruct (Z.eq_dec b2 0) as [->|]; [apply Z.bits_0|].
      apply Z.bits_above_log2; [lia|].
      apply Z.log2_lt_pow2; [lia|].
      apply Z.lt_le_trans with (2 ^ 8); [lia|].
      apply Z.pow_le_mono_r; lia. }
  rewrite <- Z.lxor_lor, <- Z.add_nocarry_lxor by exact Hdisjoint. lia.
Qed.

(** ** Descriptors (read_class.c) *)

Lemma chars_app a b :
  list_ascii_of_string (a +:+ b)
  = list_ascii_of_string a ++ list_ascii_of_string b.
Proof. induction a as [|c a IH]; simpl; [reflexivity|]. now rewrite IH. Qed.

Lemma char_at_chars s i :
  char_at s i = default NUL (list_ascii_of_string s !! i).
Proof.
  unfold char_at. revert i.
  induction s as [|c s IH]; intros [|i]; simpl; try reflexivity. apply IH.
Qed.

Lemma chars_descriptor_of ts ret :
  list_ascii_of_string (descriptor_of ts ret)
  = "("%char :: render_tokens ts ++ ")"%char :: list_ascii_of_string ret.
Proof.
  unfold descriptor_of. simpl.
  now rewrite chars_app, list_ascii_of_string_of_list_ascii.
Qed.

Lemma strchr_from_chars s c pos pre post :
  list_ascii_of_string s = pre ++ c :: post →
  Forall (fun a => a ≠ c ∧ a ≠ NUL) pre →
  strchr_from s c pos = Some (pos + length pre)%nat.
Proof.
  revert s pos. induction pre as [|a pre IH]; intros s pos Hs Hpre.
  - destruct s as [|x s]; simpl in Hs; [discriminate|].
    injection Hs as -> _. simpl. rewrite Ascii.eqb_refl. f_equal. lia.
  - destruct s as [|x s]; simpl in Hs; [discriminate|].
    injection Hs as -> Hs. inversion Hpre as [|? ? [Hc Hn] Hrest]; subst.
    simpl. apply Ascii.eqb_neq in Hc, Hn. rewrite Hc, Hn.
    rewrite (IH s (S pos) Hs Hrest). f_equal. lia.
Qed.

(** The loop does not depend on its fuel once there is enough of it. *)
Lemma params_loop_fuel d end_ fuel1 fuel2 start params :
  (end_ - start <= fuel1)%nat → (end_ - start <= fuel2)%nat →
  params_loop fuel1 d start end_ params = params_loop fuel2 d start end_ params.
Proof.
  revert fuel2 start params.
  induction fuel1 as [|fuel1 IH]; intros fuel2 start params H1 H2.
  - destruct fuel2; simpl; [reflexivity|].
    destruct (Nat.ltb_spec start end_); [lia|reflexivity].
  - destruct fuel2; simpl.
    + destruct (Nat.ltb_spec start end_); [lia|reflexivity].
    + destruct (Nat.ltb_spec start end_); [|reflexivity].
      apply IH; destruct (Ascii.eqb _ _); lia.
Qed.

Lemma render_token_length t : length (render_token t) = S (dims t).
Proof.
  unfold render_token. rewrite length_app, length_replicate. simpl. lia.
Qed.

Lemma counted_pos t : 1 <= counted t.
Proof. unfold counted. lia. Qed.

Lemma counted_all_cons t ts : counted_all (t :: ts) = counted t + counted_all ts.
Proof. reflexivity. Qed.

Lemma counted_all_nonneg ts : 0 <= counted_all ts.
Proof.
  induction ts as [|t ts IH]; [reflexivity|].
  rewrite counted_all_cons. pose proof (counted_pos t). lia.
Qed.

Lemma counted_all_pos t ts : 1 <= counted_all (t :: ts).
Proof.
  rewrite counted_all_cons.
  pose proof (counted_pos t). pose proof (counted_all_nonneg ts). lia.
Qed.

Lemma counted_two_more k c :
  counted (mk_token (S (S k)) c) = counted (mk_token k c) + 1.
Proof.
  unfold counted. simpl dims.
  replace (S (S k)) with (k + 1 * 2)%nat by lia.
  rewrite Nat.div_add by lia. lia.
Qed.

Lemma params_loop_turn fuel d start end_ params :
  (start < end_)%nat →
  params_loop (S fuel) d start end_ params
  = params_loop fuel d
      (S (if Ascii.eqb (char_at d start) "["%char then S start else start))
      end_ (Int.u2 (params + 1)).
Proof.
  intros H. simpl. destruct (Nat.ltb_spec start end_); [reflexivity|lia].
Qed.

Lemma char_at_after d pre c rest :
  list_ascii_of_string d = pre ++ c :: rest → char_at d (length pre) = c.
Proof.
  intros Hd. rewrite char_at_chars, Hd.
  rewrite lookup_app_r by lia. now rewrite Nat.sub_diag.
Qed.

Lemma render_tokens_cons k c ts :
  render_tokens (mk_token k c :: ts)
  = replicate k "["%char ++ c :: render_tokens ts.
Proof.
  unfold render_tokens, render_token. simpl. now rewrite <- app_assoc.
Qed.

(** The loop over the rendering of a list of tokens: a token with [k]
    brackets is counted [k / 2 + 1] times, because a bracket makes the loop
    skip exactly one character, whatever it is. *)
Lemma params_loop_tokens d fuel : ∀ ts pre post acc,
  list_ascii_of_string d = pre ++ render_tokens ts ++ post →
  Forall (fun t => component_letter (letter t)) ts →
  (length (render_tokens ts) <= fuel)%nat →
  0 <= acc → acc + counted_all ts < 65536 →
  params_loop fuel d (length pre) (length pre + length (render_tokens ts)) acc
  = acc + counted_all ts.
Proof.
  induction fuel as [|fuel IH]; intros ts pre post acc Hd Hts Hfuel Hacc Hsum.
  - destruct ts as [|[k c] ts]; simpl; [lia|].
    rewrite render_tokens_cons, length_app in Hfuel. simpl in Hfuel. lia.
  - destruct ts as [|[k c] ts].
    { simpl. replace (length pre + 0)%nat with (length pre) by lia.
      rewrite Nat.ltb_irrefl. lia. }
    inversion Hts as [|? ? [Hc1 [Hc2 Hc3]] Hts']; subst. simpl in Hc1.
    pose proof (counted_all_pos (mk_token k c) ts) as Hpos.
    pose proof (counted_all_nonneg ts) as Hnn.
    rewrite counted_all_cons in *.
    rewrite render_tokens_cons in *.
    rewrite length_app, length_replicate in *. simpl length in *.
    rewrite params_loop_turn by lia.
    rewrite (u2_small (acc + 1)) by lia.
    destruct k as [|[|k]].
    + (* no bracket: the letter is counted *)
      simpl in Hd. rewrite (char_at_after _ _ _ _ Hd).
      apply Ascii.eqb_neq in Hc1. rewrite Hc1.
      replace (S (length pre)) with (length (pre ++ [c]))
        by (rewrite length_app; simpl; lia).
      replace (length pre + (0 + S (length (render_tokens ts))))%nat
        with (length (pre ++ [c]) + length (render_tokens ts))%nat
        by (rewrite length_app; simpl; lia).
      rewrite (IH ts (pre ++ [c]) post (acc + 1)); unfold counted in *;
        simpl dims in *; change (0 / 2)%nat with 0%nat in *;
        try assumption; try lia.
      now rewrite <- app_assoc.
    + (* one bracket: the letter is skipped, the token is counted once *)
      simpl in Hd. rewrite (char_at_after _ _ _ _ Hd). rewrite Ascii.eqb_refl.
      replace (S (S (length pre))) with (length (pre ++ ["["%char; c]))
        by (rewrite length_app; simpl; lia).
      replace (length pre + (1 + S (length (render_tokens ts))))%nat
        with (length (pre ++ ["["%char; c]) + length (render_tokens ts))%nat
        by (rewrite length_app; simpl; lia).
      rewrite (IH ts (pre ++ ["["%char; c]) post (acc + 1)); unfold counted in *;
        simpl dims in *; change (1 / 2)%nat with 0%nat in *;
        try assumption; try lia.
      now rewrite <- app_assoc.
    + (* two brackets or more: the second one is skipped, and the first
         two are counted as a parameter of their own *)
      simpl in Hd. rewrite (char_at_after _ _ _ _ Hd). rewrite Ascii.eqb_refl.
      pose proof (counted_two_more k c) as Htwo.
      replace (S (S (length pre))) with (length (pre ++ ["["%char; "["%char]))
        by (rewrite length_app; simpl; lia).
      replace (length pre + (S (S k) + S (length (render_tokens ts))))%nat
        with (length (pre ++ ["["%char; "["%char])
              + length (render_tokens (mk_token k c :: ts)))%nat
        by (rewrite render_tokens_cons, !length_app, length_replicate;
            simpl; lia).
      rewrite (IH (mk_token k c :: ts) (pre ++ ["["%char; "["%char]) post
                 (acc + 1)); rewrite ?counted_all_cons; try lia.
      * rewrite render_tokens_cons, <- !app_assoc. simpl.
        now rewrite <- app_assoc in Hd.
      * constructor; [repeat split|]; assumption.
      * rewrite render_tokens_cons, length_app, length_replicate. simpl. lia.
Qed.

Lemma render_tokens_clean ts :
  Forall (fun t => component_letter (letter t)) ts →
  Forall (fun a => a ≠ ")"%char ∧ a ≠ NUL) (render_tokens ts).
Proof.
  induction 1 as [|[k c] ts [_ [Hc2 Hc3]] _ IH]; [constructor|].
  rewrite render_tokens_cons. apply Forall_app. split.
  - apply Forall_replicate. split; discriminate.
  - constructor; [split|]; assumption.
Qed.

(** What [get_number_of_parameters] returns on a descriptor made of tokens,
    whatever their numbers of brackets. *)
Lemma get_number_of_parameters_counted name0 ts ret c :
  Forall (fun t => component_letter (letter t)) ts →
  counted_all ts < 65536 →
  get_number_of_parameters (mk_method name0 (descriptor_of ts ret) c)
  = Ok (counted_all ts).
Proof.
  intros Hts Hsum. unfold get_number_of_parameters. simpl descriptor.
  pose proof (chars_descriptor_of ts ret) as Hd.
  unfold strchr.
  rewrite (strchr_from_chars _ ")"%char 0 ("("%char :: render_tokens ts)
             (list_ascii_of_string ret)); cycle 1.
  { exact Hd. }
  { constructor; [split; discriminate|]. now apply render_tokens_clean. }
  rewrite (strchr_from_chars _ "("%char 0 []
             (render_tokens ts ++ ")"%char :: list_ascii_of_string ret));
    [|exact Hd|constructor].
  cbn [mbind result_bind defined length Nat.add]. cbn beta iota.
  rewrite (params_loop_fuel _ _ _ (length (render_tokens ts)) 1) by lia.
  pose proof (params_loop_tokens (descriptor_of ts ret)
                (length (render_tokens ts)) ts ["("%char]
                (")"%char :: list_ascii_of_string ret) 0) as Hloop.
  simpl length in Hloop. simpl Nat.add in Hloop.
  rewrite Hloop; [f_equal; lia|exact Hd|assumption|lia|lia|lia].
Qed.

Lemma counted_all_one_bracket ts :
  Forall (fun t => component_letter (letter t) ∧ (dims t <= 1)%nat) ts →
  counted_all ts = Z.of_nat (length ts).
Proof.
  induction 1 as [|[k c] ts [_ Hk] _ IH]; [reflexivity|].
  rewrite counted_all_cons, IH. unfold counted. simpl dims in *.
  destruct k as [|[|k]]; [| |lia].
  - change (0 / 2)%nat with 0%nat. simpl length. lia.
  - change (1 / 2)%nat with 0%nat. simpl length. lia.
Qed.

(** C3, as the code has it.  On a descriptor [(<params>)<ret>] whose
    parameter tokens each consist of at most one leading bracket and one
    component letter, [get_number_of_parameters] returns the number of
    tokens: each such token counts as exactly one parameter. *)
Theorem get_number_of_parameters_one_bracket :
  ∀ (name0 : string) (ts : list param_token) (ret : string) (c : code_t),
    Forall (fun t => component_letter (letter t) ∧ (dims t <= 1)%nat) ts →
    Z.of_nat (length ts) < 65536 →
    get_number_of_parameters (mk_method name0 (descriptor_of ts ret) c)
    = Ok (Z.of_nat (length ts)).
Proof.
  intros name0 ts ret c Hts Hlen.
  rewrite <- (counted_all_one_bracket ts Hts).
  apply get_number_of_parameters_counted.
  - eapply Forall_impl; [exact Hts|]. now intros t [H _].
  - now rewrite (counted_all_one_bracket ts Hts).
Qed.

Lemma get_number_of_parameters_one_bracket_witness :
  get_number_of_parameters
    (mk_method "sum"
       (descriptor_of [mk_token 0 "I"%char; mk_token 1 "I"%char] "I")
       (mk_code 2 2 []))
  = Ok 2.
Proof.
  apply (get_number_of_parameters_one_bracket "sum"
           [mk_token 0 "I"%char; mk_token 1 "I"%char] "I" (mk_code 2 2 [])).
  - repeat constructor; simpl; discriminate.
  - simpl. lia.
Defined.

(** C3, as the claim states it, fails: the token [[[I] (two brackets and a
    component letter) is one parameter, and the code counts two. *)
Lemma get_number_of_parameters_two_brackets :
  component_letter "I"%char
  ∧ descriptor_of [mk_token 2 "I"%char] "V" = "([[I)V"%string
  ∧ get_number_of_parameters
      (mk_method "f" (descriptor_of [mk_token 2 "I"%char] "V") (mk_code 0 0 []))
    = Ok 2
  ∧ get_number_of_parameters
      (mk_method "f" (descriptor_of [mk_token 2 "I"%char] "V") (mk_code 0 0 []))
    ≠ Ok (Z.of_nat (length [mk_token 2 "I"%char])).
Proof.
  repeat split; try discriminate; reflexivity.
Qed.

(** ** C arrays *)

Lemma array_get_ok {A : Type} (a : list A) (i : Z) (v : A) :
  0 <= i → a !! Z.to_nat i = Some v → array_get a i = Ok v.
Proof.
  intros Hi Hv. unfold array_get.
  pose proof (lookup_lt_Some _ _ _ Hv) as Hlt.
  destruct (Z.leb_spec 0 i); [|lia].
  destruct (Z.ltb_spec i (Z.of_nat (length a))); [|lia].
  simpl. now rewrite Hv.
Qed.

Lemma array_set_ok {A : Type} (a : list A) (i : Z) (v : A) :
  0 <= i < Z.of_nat (length a) →
  array_set a i v = Ok (<[Z.to_nat i := v]> a).
Proof.
  intros Hi. unfold array_set.
  destruct (Z.leb_spec 0 i); [|lia].
  destruct (Z.ltb_spec i (Z.of_nat (length a))); [|lia]. reflexivity.
Qed.

Lemma array_get_outside {A : Type} (a : list A) (i : Z) :
  i < 0 ∨ Z.of_nat (length a) <= i → array_get a i = Fault UndefinedBehaviour.
Proof.
  intros Hi. unfold array_get.
  destruct (Z.leb_spec 0 i); [|reflexivity].
  destruct (Z.ltb_spec i (Z.of_nat (length a))); [lia|reflexivity].
Qed.

(** ** The heap (heap.c) *)

Lemma heap_add_ok h p :
  heap_ok h →
  heap_add h p = Ok (mk_heap (ptr h ++ [p]) (count h + 1), count h).
Proof.
  intros [Hlen Hmax]. unfold heap_add, Int.INT32_MAX in *.
  assert (0 <= count h) by lia.
  rewrite (int32_small (count h + 1)) by lia.
  rewrite (size_t_small (count h + 1)) by lia.
  rewrite size_t_small by lia.
  unfold allocatable, PTRDIFF_MAX.
  destruct (Z.leb_spec 0 ((count h + 1) * 8)); [|lia].
  destruct (Z.leb_spec ((count h + 1) * 8) (2 ^ 63 - 1)); [|lia].
  simpl. rewrite take_ge by lia. reflexivity.
Qed.

Lemma heap_get_ok h (r : nat) a :
  ptr h !! r = Some a → heap_get h (Z.of_nat r) = Ok a.
Proof.
  intros Hr. unfold heap_get. apply array_get_ok; [lia|].
  now rewrite Nat2Z.id.
Qed.

(** Adding the arrays [ps] to a heap of [count h] entries: the references
    are [count h], [count h + 1], ..., and the table is extended by [ps]. *)
Lemma heap_add_all_ok ps : ∀ h,
  Z.of_nat (length (ptr h)) = count h →
  count h + Z.of_nat (length ps) <= Int.INT32_MAX →
  heap_add_all h ps
  = Ok (mk_heap (ptr h ++ ps) (count h + Z.of_nat (length ps)),
        map (fun i => count h + Z.of_nat i) (seq 0 (length ps))).
Proof.
  induction ps as [|p ps IH]; intros h Hlen Hmax.
  - simpl. rewrite app_nil_r, Z.add_0_r. now destruct h.
  - simpl length in *. cbn [heap_add_all].
    rewrite heap_add_ok by (split; [assumption|lia]).
    cbn [mbind result_bind].
    rewrite IH; cbn [ptr count].
    + cbn [mbind result_bind]. f_equal. f_equal.
      * f_equal; [now rewrite <- app_assoc|lia].
      * cbn [seq map]. f_equal; [lia|].
        rewrite <- seq_shift, map_map. apply map_ext. intros i. lia.
    + rewrite length_app. simpl. lia.
    + lia.
Qed.

(** C9.  Starting from the empty heap, the references [heap_add] returns for
    successive arrays are 0, 1, 2, ... in this order (each is the count of
    the heap at the time, which the call increments), no reference is
    given twice, and after any number of further additions [heap_get r]
    still returns the array stored by the [r]-th addition. *)
Theorem heap_references_monotone :
  ∀ (ps : list array) (p : array),
    Z.of_nat (length ps) < Int.INT32_MAX →
    ∃ h h',
      heap_add_all heap_init ps = Ok (h, map Z.of_nat (seq 0 (length ps)))
      ∧ count h = Z.of_nat (length ps)
      ∧ (∀ (r : nat) a, ps !! r = Some a → heap_get h (Z.of_nat r) = Ok a)
      ∧ heap_add h p = Ok (h', count h)
      ∧ count h' = count h + 1
      ∧ heap_get h' (count h) = Ok p
      ∧ (∀ (r : nat) a, ps !! r = Some a → heap_get h' (Z.of_nat r) = Ok a).
Proof.
  intros ps p Hmax.
  exists (mk_heap ps (Z.of_nat (length ps))).
  exists (mk_heap (ps ++ [p]) (Z.of_nat (length ps) + 1)).
  assert (Hok : heap_ok (mk_heap ps (Z.of_nat (length ps)))) by now split.
  repeat split.
  - rewrite heap_add_all_ok; simpl; [reflexivity|reflexivity|lia].
  - intros r a Hr. now apply heap_get_ok.
  - now rewrite heap_add_ok.
  - cbn [count]. apply heap_get_ok. cbn [ptr].
    rewrite lookup_app_r by lia. now rewrite Nat.sub_diag.
  - intros r a Hr. apply heap_get_ok. cbn [ptr].
    rewrite lookup_app_l; [assumption|]. now apply lookup_lt_Some in Hr.
Qed.

Lemma heap_references_monotone_witness :
  ∃ h h',
    heap_add_all heap_init [[2; 0; 0]; [0]; [1; 0]] = Ok (h, [0; 1; 2])
    ∧ count h = 3
    ∧ (∀ (r : nat) a,
         [[2; 0; 0]; [0]; [1; 0]] !! r = Some a → heap_get h (Z.of_nat r) = Ok a)
    ∧ heap_add h [3; 0; 0; 0] = Ok (h', count h)
    ∧ count h' = count h + 1
    ∧ heap_get h' (count h) = Ok [3; 0; 0; 0]
    ∧ (∀ (r : nat) a,
         [[2; 0; 0]; [0]; [1; 0]] !! r = Some a
         → heap_get h' (Z.of_nat r) = Ok a).
Proof.
  apply (heap_references_monotone [[2; 0; 0]; [0]; [1; 0]] [3; 0; 0; 0]).
  unfold Int.INT32_MAX. simpl. lia.
Defined.

(** ** Fetching, pushing, popping *)

Lemma bind_Ok {A B : Type} (a : A) (k : A → result B) :
  (Ok a ≫= k) = k a.
Proof. reflexivity. Qed.

Lemma at_pc_bound method f bs :
  at_pc method f bs → bs ≠ [] →
  pc f + Z.of_nat (length bs) <= code_length (method_code method).
Proof.
  intros (Hpc & _ & Hbs & _) Hne. unfold code_length.
  apply (f_equal length) in Hbs. rewrite length_take, length_drop in Hbs.
  destruct bs; [congruence|]. simpl length in *. lia.
Qed.

Lemma at_pc_lookup method f bs (i : nat) b :
  at_pc method f bs → bs !! i = Some b →
  code (method_code method) !! (Z.to_nat (pc f) + i)%nat = Some b ∧ is_byte b.
Proof.
  intros (Hpc & _ & Hbs & Hbytes) Hb. split.
  - rewrite <- Hbs in Hb. apply lookup_take_Some in Hb as [Hb _].
    now rewrite lookup_drop in Hb.
  - rewrite Forall_lookup in Hbytes. eauto.
Qed.

Lemma bytecode_at method f bs (k : Z) b :
  at_pc method f bs → 0 <= k → bs !! Z.to_nat k = Some b →
  bytecode method (pc f + k) = Ok b.
Proof.
  intros Hat Hk Hb. pose proof Hat as (Hpc & _).
  destruct (at_pc_lookup _ _ _ _ _ Hat Hb) as [Hcode Hbyte].
  unfold bytecode. rewrite (array_get_ok _ _ b); [|lia|].
  - rewrite bind_Ok. now rewrite u1_small.
  - now replace (Z.to_nat (pc f + k)) with (Z.to_nat (pc f) + Z.to_nat k)%nat
      by lia.
Qed.

Lemma bytecode_fetch method f b bs :
  at_pc method f (b :: bs) → bytecode method (pc f) = Ok b.
Proof.
  intros Hat. rewrite <- (Z.add_0_r (pc f)).
  now apply (bytecode_at method f (b :: bs) 0 b).
Qed.

Lemma u4_pc method f bs (k : Z) :
  at_pc method f bs → bs ≠ [] → 0 <= k <= Z.of_nat (length bs) →
  Int.u4 (pc f + k) = pc f + k.
Proof.
  intros Hat Hne Hk. pose proof (at_pc_bound _ _ _ Hat Hne).
  destruct Hat as (Hpc & Hlen & _). apply u4_small. lia.
Qed.

Lemma push_ok stack sp v :
  Z.of_nat (length stack) <= 65535 → -1 <= sp → sp + 1 < Z.of_nat (length stack) →
  push stack sp v = Ok (<[Z.to_nat (sp + 1) := v]> stack, sp + 1).
Proof.
  intros Hlen Hsp Hroom. unfold push.
  rewrite int32_small by lia. rewrite array_set_ok by lia. reflexivity.
Qed.

Lemma pop_ok stack sp v :
  Z.of_nat (length stack) <= 65535 → 0 <= sp →
  stack !! Z.to_nat sp = Some v →
  pop stack sp = Ok (v, sp - 1).
Proof.
  intros Hlen Hsp Hv. unfold pop.
  pose proof (lookup_lt_Some _ _ _ Hv).
  rewrite (array_get_ok _ _ v) by assumption.
  rewrite bind_Ok. rewrite int32_small by lia. reflexivity.
Qed.

(** The cell [j] of the topmost cells [vs]. *)
Lemma on_top_lookup f vs (j : nat) v :
  on_top f vs → vs !! j = Some v →
  operand_stack f
    !! Z.to_nat (stack_pointer f + 1 - Z.of_nat (length vs) + Z.of_nat j)
  = Some v.
Proof.
  intros [Hsp Hvs] Hv. rewrite <- Hvs in Hv.
  apply lookup_take_Some in Hv as [Hv _]. rewrite lookup_drop in Hv.
  now replace (Z.to_nat (stack_pointer f + 1 - Z.of_nat (length vs) + Z.of_nat j))
    with (Z.to_nat (stack_pointer f + 1 - Z.of_nat (length vs)) + j)%nat by lia.
Qed.

(** ** Immediate operands: [bipush] and [sipush] *)

Lemma sign_extend_8_range b : is_byte b → -128 <= sign_extend 8 b < 128.
Proof.
  unfold is_byte, sign_extend. change (2 ^ (8 - 1)) with 128.
  change (2 ^ 8) with 256. intros H. destruct (Z.ltb_spec b 128); lia.
Qed.

Lemma sign_extend_16_range x :
  0 <= x < 65536 → -32768 <= sign_extend 16 x < 32768.
Proof.
  unfold sign_extend. change (2 ^ (16 - 1)) with 32768.
  change (2 ^ 16) with 65536. intros H. destruct (Z.ltb_spec x 32768); lia.
Qed.

(** ** The parameters of a callee *)

Lemma drop_insert_here {A : Type} (l : list A) (n : nat) (v : A) :
  (n < length l)%nat → drop n (<[n := v]> l) = v :: drop (S n) l.
Proof.
  intros Hn.
  rewrite (drop_S (<[n := v]> l) v n) by now apply list_lookup_insert_eq.
  now rewrite drop_insert_lt by lia.
Qed.

(** The loop of [invokestatic] moves the [n] topmost cells of the operand
    stack into the first [n] locals in the order they have on the stack:
    the deepest one into [method_locals[0]], the top into
    [method_locals[n - 1]]. *)
Lemma pop_params_ok stack :
  Z.of_nat (length stack) <= 65535 →
  ∀ args method_locals sp,
    (length args <= length method_locals)%nat →
    Z.of_nat (length args) - 1 <= sp →
    take (length args)
      (drop (Z.to_nat (sp + 1 - Z.of_nat (length args))) stack) = args →
    pop_params (length args) method_locals stack sp
    = Ok (args ++ drop (length args) method_locals,
          sp - Z.of_nat (length args)).
Proof.
  intros Hstack args.
  induction args as [|v args IH] using rev_ind; intros ml sp Hml Hsp Htop.
  - simpl. rewrite drop_0. repeat f_equal. lia.
  - rewrite length_app in *. simpl length in *.
    replace (length args + 1)%nat with (S (length args)) in * by lia.
    cbn [pop_params].
    assert (Hv : stack !! Z.to_nat sp = Some v).
    { assert (Hlast : (args ++ [v]) !! length args = Some v).
      { rewrite lookup_app_r by lia. now rewrite Nat.sub_diag. }
      rewrite <- Htop in Hlast. apply lookup_take_Some in Hlast as [Hlast _].
      rewrite lookup_drop in Hlast.
      now replace (Z.to_nat (sp + 1 - Z.of_nat (S (length args))) + length args)%nat
        with (Z.to_nat sp) in Hlast by lia. }
    rewrite (pop_ok stack sp v) by (assumption || lia). rewrite bind_Ok.
    cbn beta iota. rewrite array_set_ok by lia. rewrite bind_Ok.
    rewrite Nat2Z.id. rewrite IH.
    + rewrite drop_insert_here by lia.
      rewrite <- app_assoc. simpl. do 2 f_equal. lia.
    + rewrite length_insert. lia.
    + lia.
    + replace (sp - 1 + 1 - Z.of_nat (length args))
        with (sp + 1 - Z.of_nat (S (length args))) by lia.
      apply (f_equal (take (length args))) in Htop.
      rewrite take_take, take_app_length in Htop.
      now replace (length args `min` S (length args))%nat
        with (length args) in Htop by lia.
Qed.

Lemma stack_block_length residue k bytes :
  length (stack_block residue k bytes) = Z.to_nat bytes.
Proof. unfold stack_block. now rewrite length_map, length_seq. Qed.

Lemma as_int32_array_length block :
  length (as_int32_array block) = (length block / 4)%nat.
Proof. unfold as_int32_array. now rewrite length_map, length_seq. Qed.

Lemma init_method_locals_ok residue k max_locals0 stack sp args :
  Z.of_nat (length stack) <= 65535 →
  Z.of_nat (length args) - 1 <= sp →
  take (length args)
    (drop (Z.to_nat (sp + 1 - Z.of_nat (length args))) stack) = args →
  Z.of_nat (length args) <= max_locals0 <= 65535 →
  Z.of_nat (length (args ++ spare_locals residue k max_locals0 (length args)))
  = max_locals0
  ∧ init_method_locals (stack_block residue k (4 * max_locals0)) max_locals0
      (Z.of_nat (length args)) stack sp
    = Ok (args ++ spare_locals residue k max_locals0 (length args),
          sp - Z.of_nat (length args)).
Proof.
  intros Hstack Hsp Htop Hmax.
  unfold init_method_locals, memset, spare_locals, zeroed_block.
  rewrite stack_block_length.
  destruct (Z.leb_spec 0 max_locals0); [|lia].
  destruct (Z.leb_spec max_locals0 (Z.of_nat (Z.to_nat (4 * max_locals0))));
    [|lia].
  cbn [andb]. rewrite bind_Ok. rewrite Nat2Z.id.
  change (Int.u1 0) with 0.
  set (zeroed := replicate _ _ ++ drop _ _).
  assert (Hzeroed : length (as_int32_array zeroed) = Z.to_nat max_locals0).
  { rewrite as_int32_array_length. unfold zeroed.
    rewrite length_app, length_replicate, length_drop, stack_block_length.
    replace (Z.to_nat max_locals0 + (Z.to_nat (4 * max_locals0) - Z.to_nat max_locals0))%nat
      with (Z.to_nat max_locals0 * 4)%nat by lia.
    now rewrite Nat.div_mul by lia. }
  split.
  - rewrite length_app, length_drop, Hzeroed. lia.
  - apply pop_params_ok; try assumption. lia.
Qed.

Section Steps.

Variable residue : nat → Z → Z.
Variable class : class_file_t.
Variable method : method_t.
Variable call : method_t → list Z → world → result (optional_value_t * world).

Local Abbreviation step1 := (step residue class method call).

Lemma step_bipush f w b :
  at_pc method f [0x10; b] → frame_ok f → has_room f →
  step1 f w = Ok (Next (popped_pushed 0 f (sign_extend 8 b) (pc f + 2)) w).
Proof.
  intros Hat [Hlen Hsp] Hroom. unfold step.
  rewrite (bytecode_fetch _ _ _ _ Hat), bind_Ok.
  change (decode 16) with (Some i_bipush). cbn [exec].
  destruct (at_pc_lookup _ _ _ 1%nat b Hat eq_refl) as [_ Hb].
  rewrite !(u4_pc _ _ _ _ Hat) by (simpl; (discriminate || lia)).
  rewrite (bytecode_at _ _ _ 1 b Hat) by (lia || reflexivity).
  rewrite bind_Ok, (u1_small b) by exact Hb.
  rewrite int8_sign_extend by exact Hb.
  pose proof (sign_extend_8_range b Hb).
  rewrite int32_small by lia.
  unfold has_room in Hroom. rewrite push_ok by lia.
  rewrite bind_Ok. unfold popped_pushed, set_stack. simpl.
  repeat f_equal; lia.
Qed.

Lemma step_sipush f w b1 b2 :
  at_pc method f [0x11; b1; b2] → frame_ok f → has_room f →
  step1 f w
  = Ok (Next (popped_pushed 0 f (sign_extend 16 (256 * b1 + b2)) (pc f + 3)) w).
Proof.
  intros Hat [Hlen Hsp] Hroom. unfold step.
  rewrite (bytecode_fetch _ _ _ _ Hat), bind_Ok.
  change (decode 17) with (Some i_sipush). cbn [exec].
  destruct (at_pc_lookup _ _ _ 1%nat b1 Hat eq_refl) as [_ Hb1].
  destruct (at_pc_lookup _ _ _ 2%nat b2 Hat eq_refl) as [_ Hb2].
  rewrite !(u4_pc _ _ _ 1 Hat) by (simpl; (discriminate || lia)).
  replace (pc f + 1 + 1) with (pc f + 2) by lia.
  replace (pc f + 1 + 2) with (pc f + 3) by lia.
  rewrite !(u4_pc _ _ _ _ Hat) by (simpl; (discriminate || lia)).
  rewrite (bytecode_at _ _ _ 1 b1 Hat) by (lia || reflexivity).
  rewrite bind_Ok.
  rewrite (bytecode_at _ _ _ 2 b2 Hat) by (lia || reflexivity).
  rewrite bind_Ok.
  destruct (big_endian_pair b1 b2 Hb1 Hb2) as [-> Hrange].
  rewrite int16_sign_extend by exact Hrange.
  unfold has_room in Hroom. rewrite push_ok by lia.
  rewrite bind_Ok. unfold popped_pushed, set_stack. simpl.
  repeat f_equal; lia.
Qed.

Lemma step_ldc_not_Integer f w index c :
  at_pc method f [0x12; index] → 1 <= index →
  constant_pool class !! Z.to_nat (index - 1) = Some c →
  is_Integer c = false →
  step1 f w = Ok (Next (set_pc f (pc f + 2)) w).
Proof.
  intros Hat Hindex Hc Htag. unfold step.
  rewrite (bytecode_fetch _ _ _ _ Hat), bind_Ok.
  change (decode 18) with (Some i_ldc). cbn [exec].
  rewrite !(u4_pc _ _ _ 1 Hat) by (simpl; (discriminate || lia)).
  replace (pc f + 1 + 1) with (pc f + 2) by lia.
  rewrite !(u4_pc _ _ _ _ Hat) by (simpl; (discriminate || lia)).
  rewrite (bytecode_at _ _ _ 1 index Hat) by (lia || reflexivity).
  rewrite bind_Ok. rewrite (array_get_ok _ _ c) by (lia || assumption).
  rewrite bind_Ok. destruct c; try discriminate Htag; reflexivity.
Qed.

Lemma all_instructions_complete i : In i all_instructions.
Proof. destruct i; vm_compute; tauto. Qed.

Lemma decode_unrecognized op : (∀ i, opcode i ≠ op) → decode op = None.
Proof.
  intros Hop. unfold decode.
  destruct (find _ all_instructions) as [i|] eqn:Hfind; [|reflexivity].
  apply find_some in Hfind as [_ Hi]. apply Z.eqb_eq in Hi.
  now destruct (Hop i).
Qed.

Lemma decode_recognized op i : decode op = Some i → opcode i = op.
Proof.
  unfold decode. intros Hfind.
  apply find_some in Hfind as [_ Hi]. now apply Z.eqb_eq in Hi.
Qed.

Lemma step_unrecognized f w op :
  bytecode method (pc f) = Ok op → (∀ i, opcode i ≠ op) →
  step1 f w = Ok (Next f w).
Proof.
  intros Hfetch Hop. unfold step.
  now rewrite Hfetch, bind_Ok, (decode_unrecognized op Hop).
Qed.

Lemma bytecode_in_code i b :
  bytecode method i = Ok b → 0 <= i < code_length (method_code method).
Proof.
  unfold bytecode, array_get, code_length.
  destruct (Z.leb_spec 0 i); [|discriminate].
  destruct (Z.ltb_spec i (Z.of_nat (length (code (method_code method)))));
    [|discriminate].
  intros _. lia.
Qed.

(** *** Shifts *)

Lemma land_31 s : 0 <= s < 32 → Z.land s 31 = s.
Proof.
  intros Hs. change 31 with (Z.ones 5). rewrite Z.land_ones by lia.
  apply Z.mod_small. lia.
Qed.

Lemma land_31_mod s : Z.land s 31 = s mod 32.
Proof. change 31 with (Z.ones 5). now rewrite Z.land_ones by lia. Qed.

Lemma shift_count_mod s : shift_count s = s mod 32 ∧ 0 <= s mod 32 < 32.
Proof.
  unfold shift_count. rewrite land_31_mod. split; [reflexivity|].
  apply Z.mod_pos_bound. lia.
Qed.

Lemma c_shl_masked v s : c_shl v s = masked_shl v s.
Proof.
  unfold c_shl, masked_shl. destruct (shift_count_mod s) as [-> Hs].
  now rewrite Z.shiftl_mul_pow2 by lia.
Qed.

Lemma c_shr_masked v s : c_shr v s = masked_shr v s.
Proof.
  unfold c_shr, masked_shr. destruct (shift_count_mod s) as [-> Hs].
  now rewrite Z.shiftr_div_pow2 by lia.
Qed.

Lemma pop_two f v1 v2 :
  frame_ok f → on_top f [v1; v2] →
  pop (operand_stack f) (stack_pointer f) = Ok (v2, stack_pointer f - 1)
  ∧ pop (operand_stack f) (stack_pointer f - 1) = Ok (v1, stack_pointer f - 2).
Proof.
  intros [Hlen Hsp] Htop. pose proof Htop as [Hdepth _]. simpl in Hdepth.
  pose proof (on_top_lookup f _ 0%nat v1 Htop eq_refl) as H1.
  pose proof (on_top_lookup f _ 1%nat v2 Htop eq_refl) as H2.
  simpl length in *. split.
  - apply pop_ok; [lia|lia|].
    now replace (stack_pointer f + 1 - Z.of_nat 2 + Z.of_nat 1)
      with (stack_pointer f) in H2 by lia.
  - replace (stack_pointer f - 2) with (stack_pointer f - 1 - 1) by lia.
    apply pop_ok; [lia|lia|].
    now replace (stack_pointer f + 1 - Z.of_nat 2 + Z.of_nat 0)
      with (stack_pointer f - 1) in H1 by lia.
Qed.

Lemma pop_one f v :
  frame_ok f → on_top f [v] →
  pop (operand_stack f) (stack_pointer f) = Ok (v, stack_pointer f - 1).
Proof.
  intros [Hlen Hsp] Htop. pose proof Htop as [Hdepth _]. simpl in Hdepth.
  pose proof (on_top_lookup f _ 0%nat v Htop eq_refl) as H1.
  simpl length in *. apply pop_ok; [lia|lia|].
  now replace (stack_pointer f + 1 - Z.of_nat 1 + Z.of_nat 0)
    with (stack_pointer f) in H1 by lia.
Qed.

Lemma step_shift i f w v s :
  i = i_ishl ∨ i = i_ishr →
  at_pc method f [opcode i] → frame_ok f → on_top f [v; s] →
  step1 f w
  = Ok (Next (popped_pushed 2 f (masked_shift i v s) (pc f + 1)) w).
Proof.
  intros Hi Hat Hok Htop. pose proof Hok as [Hlen Hsp].
  pose proof Htop as [Hdepth _]. simpl in Hdepth.
  destruct (pop_two f v s Hok Htop) as [Hpop1 Hpop2].
  unfold step. rewrite (bytecode_fetch _ _ _ _ Hat), bind_Ok.
  destruct Hi as [-> | ->].
  - change (decode (opcode i_ishl)) with (Some i_ishl). cbn [exec].
    rewrite !(u4_pc _ _ _ _ Hat) by (simpl; (discriminate || lia)).
    rewrite Hpop1, bind_Ok. cbn beta iota.
    rewrite Hpop2, bind_Ok. cbn beta iota. rewrite c_shl_masked.
    rewrite push_ok by lia. rewrite bind_Ok.
    unfold popped_pushed, set_stack, masked_shift. simpl.
    repeat f_equal; lia.
  - change (decode (opcode i_ishr)) with (Some i_ishr). cbn [exec].
    rewrite !(u4_pc _ _ _ _ Hat) by (simpl; (discriminate || lia)).
    rewrite Hpop1, bind_Ok. cbn beta iota.
    rewrite Hpop2, bind_Ok. cbn beta iota. rewrite c_shr_masked.
    rewrite push_ok by lia. rewrite bind_Ok.
    unfold popped_pushed, set_stack, masked_shift. simpl.
    repeat f_equal; lia.
Qed.

(** *** Arrays *)

Lemma pop_three f v1 v2 v3 :
  frame_ok f → on_top f [v1; v2; v3] →
  pop (operand_stack f) (stack_pointer f) = Ok (v3, stack_pointer f - 1)
  ∧ pop (operand_stack f) (stack_pointer f - 1) = Ok (v2, stack_pointer f - 2)
  ∧ pop (operand_stack f) (stack_pointer f - 2) = Ok (v1, stack_pointer f - 3).
Proof.
  intros [Hlen Hsp] Htop. pose proof Htop as [Hdepth _]. simpl in Hdepth.
  pose proof (on_top_lookup f _ 0%nat v1 Htop eq_refl) as H1.
  pose proof (on_top_lookup f _ 1%nat v2 Htop eq_refl) as H2.
  pose proof (on_top_lookup f _ 2%nat v3 Htop eq_refl) as H3.
  simpl length in *. repeat split.
  - apply pop_ok; [lia|lia|].
    now replace (stack_pointer f + 1 - Z.of_nat 3 + Z.of_nat 2)
      with (stack_pointer f) in H3 by lia.
  - replace (stack_pointer f - 2) with (stack_pointer f - 1 - 1) by lia.
    apply pop_ok; [lia|lia|].
    now replace (stack_pointer f + 1 - Z.of_nat 3 + Z.of_nat 1)
      with (stack_pointer f - 1) in H2 by lia.
  - replace (stack_pointer f - 3) with (stack_pointer f - 2 - 1) by lia.
    apply pop_ok; [lia|lia|].
    now replace (stack_pointer f + 1 - Z.of_nat 3 + Z.of_nat 0)
      with (stack_pointer f - 2) in H1 by lia.
Qed.

Lemma step_iastore f w ref index v arr :
  at_pc method f [0x4f] → frame_ok f → on_top f [ref; index; v] →
  0 <= ref → ptr (heap w) !! Z.to_nat ref = Some arr →
  0 <= index + 1 < Z.of_nat (length arr) → index + 1 < 2 ^ 31 →
  step1 f w
  = Ok (Next (popped 3 f (pc f + 1))
          (set_heap w
             (mk_heap
                (<[Z.to_nat ref := <[Z.to_nat (index + 1) := v]> arr]>
                   (ptr (heap w)))
                (count (heap w))))).
Proof.
  intros Hat Hok Htop Href Harr Hindex Hint.
  destruct (pop_three f ref index v Hok Htop) as (Hpop1 & Hpop2 & Hpop3).
  unfold step. rewrite (bytecode_fetch _ _ _ _ Hat), bind_Ok.
  change (decode 79) with (Some i_iastore). cbn [exec].
  rewrite !(u4_pc _ _ _ _ Hat) by (simpl; (discriminate || lia)).
  rewrite Hpop1, bind_Ok. cbn beta iota.
  rewrite Hpop2, bind_Ok. cbn beta iota.
  rewrite Hpop3, bind_Ok. cbn beta iota.
  unfold heap_get. rewrite (array_get_ok _ _ arr) by assumption.
  rewrite bind_Ok, int32_small by lia.
  rewrite array_set_ok by lia. rewrite bind_Ok.
  pose proof (lookup_lt_Some _ _ _ Harr).
  rewrite array_set_ok by lia. rewrite bind_Ok. reflexivity.
Qed.

Lemma step_iaload f w ref index arr x :
  at_pc method f [0x2e] → frame_ok f → on_top f [ref; index] →
  0 <= ref → ptr (heap w) !! Z.to_nat ref = Some arr →
  0 <= index + 1 < 2 ^ 31 → arr !! Z.to_nat (index + 1) = Some x →
  step1 f w = Ok (Next (popped_pushed 2 f x (pc f + 1)) w).
Proof.
  intros Hat Hok Htop Href Harr Hindex Hx. pose proof Hok as [Hlen Hsp].
  pose proof Htop as [Hdepth _]. simpl in Hdepth.
  destruct (pop_two f ref index Hok Htop) as [Hpop1 Hpop2].
  unfold step. rewrite (bytecode_fetch _ _ _ _ Hat), bind_Ok.
  change (decode 46) with (Some i_iaload). cbn [exec].
  rewrite !(u4_pc _ _ _ _ Hat) by (simpl; (discriminate || lia)).
  rewrite Hpop1, bind_Ok. cbn beta iota.
  rewrite Hpop2, bind_Ok. cbn beta iota.
  unfold heap_get. rewrite (array_get_ok _ _ arr) by assumption.
  rewrite bind_Ok, int32_small by lia.
  rewrite (array_get_ok _ _ x) by (lia || assumption).
  rewrite bind_Ok. rewrite push_ok by lia. rewrite bind_Ok.
  unfold popped_pushed, set_stack. simpl. repeat f_equal; lia.
Qed.

Lemma step_arraylength f w ref arr n :
  at_pc method f [0xbe] → frame_ok f → on_top f [ref] →
  0 <= ref → ptr (heap w) !! Z.to_nat ref = Some arr →
  arr !! 0%nat = Some n →
  step1 f w = Ok (Next (popped_pushed 1 f n (pc f + 1)) w).
Proof.
  intros Hat Hok Htop Href Harr Hn. pose proof Hok as [Hlen Hsp].
  pose proof Htop as [Hdepth _]. simpl in Hdepth.
  pose proof (pop_one f ref Hok Htop) as Hpop.
  unfold step. rewrite (bytecode_fetch _ _ _ _ Hat), bind_Ok.
  change (decode 190) with (Some i_arraylength). cbn [exec].
  rewrite !(u4_pc _ _ _ _ Hat) by (simpl; (discriminate || lia)).
  rewrite Hpop, bind_Ok. cbn beta iota.
  unfold heap_get. rewrite (array_get_ok _ _ arr) by assumption.
  rewrite bind_Ok. rewrite (array_get_ok _ _ n) by (lia || assumption).
  rewrite bind_Ok. rewrite push_ok by lia. rewrite bind_Ok.
  unfold popped_pushed, set_stack. simpl. repeat f_equal; lia.
Qed.

(** The zeroing loop writes zeros where [calloc] left zeros. *)
Lemma zero_cells_zero cells : ∀ i (a : array),
  0 <= i →
  (∀ j, (j < cells)%nat → a !! (Z.to_nat i + j)%nat = Some 0) →
  zero_cells cells i a = Ok a.
Proof.
  induction cells as [|cells IH]; intros i a Hi Hzero; [reflexivity|].
  cbn [zero_cells].
  pose proof (Hzero 0%nat ltac:(lia)) as H0. rewrite Nat.add_0_r in H0.
  pose proof (lookup_lt_Some _ _ _ H0).
  rewrite array_set_ok by lia. rewrite bind_Ok.
  rewrite list_insert_id by assumption.
  apply IH; [lia|]. intros j Hj.
  replace (Z.to_nat (i + 1) + j)%nat with (Z.to_nat i + S j)%nat by lia.
  apply Hzero. lia.
Qed.

Lemma new_int_array_ok n :
  Int.INT32_MIN <= n < Int.INT32_MAX →
  new_int_array n = Ok (fresh_array n).
Proof.
  unfold Int.INT32_MIN, Int.INT32_MAX. intros Hn.
  unfold new_int_array, fresh_array.
  rewrite (int32_small (n + 1)) by lia.
  destruct (Z.leb_spec n 0); destruct (Z.ltb_spec 0 n); try lia.
  - rewrite bind_Ok. replace (Z.to_nat (n + 1 - 1)) with 0%nat by lia.
    reflexivity.
  - rewrite size_t_small by lia. unfold calloc_int32, allocatable, PTRDIFF_MAX.
    destruct (Z.leb_spec 0 ((n + 1) * 4)); [|lia].
    destruct (Z.leb_spec ((n + 1) * 4) (2 ^ 63 - 1)); [|lia].
    cbn [andb defined]. rewrite bind_Ok.
    replace (Z.to_nat (n + 1)) with (S (Z.to_nat n)) by lia.
    rewrite array_set_ok by (rewrite length_replicate; lia).
    rewrite bind_Ok. cbn [replicate Z.to_nat list_insert insert].
    replace (n + 1 - 1) with n by lia.
    apply zero_cells_zero; [lia|]. intros j Hj.
    change (Z.to_nat 1 + j)%nat with (S j). cbn [lookup list_lookup].
    now apply lookup_replicate_2.
Qed.

(** At the one count left out above, the allocation is refused. *)
Lemma new_int_array_INT32_MAX :
  new_int_array Int.INT32_MAX = Fault UndefinedBehaviour.
Proof. reflexivity. Qed.

Lemma step_newarray f w n t :
  at_pc method f [0xbc; t] → frame_ok f → on_top f [n] →
  heap_ok (heap w) → Int.INT32_MIN <= n < Int.INT32_MAX →
  step1 f w
  = Ok (Next (popped_pushed 1 f (count (heap w)) (pc f + 2))
          (set_heap w
             (mk_heap (ptr (heap w) ++ [fresh_array n])
                (count (heap w) + 1)))).
Proof.
  intros Hat Hok Htop Hheap Hn. pose proof Hok as [Hlen Hsp].
  pose proof Htop as [Hdepth _]. simpl in Hdepth.
  pose proof (pop_one f n Hok Htop) as Hpop.
  unfold step. rewrite (bytecode_fetch _ _ _ _ Hat), bind_Ok.
  change (decode 188) with (Some i_newarray). cbn [exec].
  rewrite !(u4_pc _ _ _ _ Hat) by (simpl; (discriminate || lia)).
  rewrite Hpop, bind_Ok. cbn beta iota.
  rewrite new_int_array_ok by assumption. rewrite bind_Ok.
  rewrite heap_add_ok by assumption. rewrite bind_Ok. cbn beta iota.
  rewrite push_ok by lia. rewrite bind_Ok.
  unfold popped_pushed, set_stack. simpl. repeat f_equal; lia.
Qed.

(** *** Locals and returns *)

Lemma step_iload_n f w k v :
  at_pc method f [0x1a + k] → 0 <= k <= 3 →
  locals f !! Z.to_nat k = Some v → frame_ok f → has_room f →
  step1 f w = Ok (Next (popped_pushed 0 f v (pc f + 1)) w).
Proof.
  intros Hat Hk Hv [Hlen Hsp] Hroom. unfold has_room in Hroom.
  unfold step. rewrite (bytecode_fetch _ _ _ _ Hat), bind_Ok.
  assert (Hcases : k = 0 ∨ k = 1 ∨ k = 2 ∨ k = 3) by lia.
  destruct Hcases as [-> | [-> | [-> | ->]]].
  - change (decode (26 + 0)) with (Some i_iload_0). cbn [exec].
    change (opcode i_iload_0 - OFFSET_ILOAD) with 0.
    rewrite !(u4_pc _ _ _ _ Hat) by (simpl; (discriminate || lia)).
    rewrite (array_get_ok _ _ v) by (lia || assumption).
    rewrite bind_Ok, push_ok by lia. rewrite bind_Ok.
    unfold popped_pushed, set_stack. simpl. repeat f_equal; lia.
  - change (decode (26 + 1)) with (Some i_iload_1). cbn [exec].
    change (opcode i_iload_1 - OFFSET_ILOAD) with 1.
    rewrite !(u4_pc _ _ _ _ Hat) by (simpl; (discriminate || lia)).
    rewrite (array_get_ok _ _ v) by (lia || assumption).
    rewrite bind_Ok, push_ok by lia. rewrite bind_Ok.
    unfold popped_pushed, set_stack. simpl. repeat f_equal; lia.
  - change (decode (26 + 2)) with (Some i_iload_2). cbn [exec].
    change (opcode i_iload_2 - OFFSET_ILOAD) with 2.
    rewrite !(u4_pc _ _ _ _ Hat) by (simpl; (discriminate || lia)).
    rewrite (array_get_ok _ _ v) by (lia || assumption).
    rewrite bind_Ok, push_ok by lia. rewrite bind_Ok.
    unfold popped_pushed, set_stack. simpl. repeat f_equal; lia.
  - change (decode (26 + 3)) with (Some i_iload_3). cbn [exec].
    change (opcode i_iload_3 - OFFSET_ILOAD) with 3.
    rewrite !(u4_pc _ _ _ _ Hat) by (simpl; (discriminate || lia)).
    rewrite (array_get_ok _ _ v) by (lia || assumption).
    rewrite bind_Ok, push_ok by lia. rewrite bind_Ok.
    unfold popped_pushed, set_stack. simpl. repeat f_equal; lia.
Qed.

Lemma step_ireturn f w v :
  at_pc method f [0xac] → frame_ok f → on_top f [v] →
  step1 f w = Ok (Return (mk_optional true v) w).
Proof.
  intros Hat Hok Htop. pose proof (pop_one f v Hok Htop) as Hpop.
  unfold step. rewrite (bytecode_fetch _ _ _ _ Hat), bind_Ok.
  change (decode 172) with (Some i_ireturn). cbn [exec].
  rewrite Hpop, bind_Ok. reflexivity.
Qed.

(** *** Invocation *)

Lemma step_invokestatic f w b1 b2 callee args :
  at_pc method f [0xb8; b1; b2] → frame_ok f → on_top f args →
  find_method_from_index (256 * b1 + b2) class = Ok (Some callee) →
  get_number_of_parameters callee = Ok (Z.of_nat (length args)) →
  Z.of_nat (length args) <= max_locals (method_code callee) <= 65535 →
  step1 f w
  = ('(r, w1) ←
       call callee
         (args ++ spare_locals residue (frames w)
                    (max_locals (method_code callee)) (length args))
         (new_frame w);
     st ← (if has_value r
           then push (operand_stack f)
                  (stack_pointer f - Z.of_nat (length args)) (value r)
           else Ok (operand_stack f,
                    stack_pointer f - Z.of_nat (length args)));
     Ok (Next (set_stack f st (pc f + 3)) w1)).
Proof.
  intros Hat [Hlen Hsp] [Hdepth Hargs] Hfind Hparams Hlocals.
  destruct (at_pc_lookup _ _ _ 1%nat b1 Hat eq_refl) as [_ Hb1].
  destruct (at_pc_lookup _ _ _ 2%nat b2 Hat eq_refl) as [_ Hb2].
  destruct (big_endian_pair b1 b2 Hb1 Hb2) as [Hpair Hrange].
  destruct (init_method_locals_ok residue (frames w)
              (max_locals (method_code callee)) (operand_stack f)
              (stack_pointer f) args) as [_ Hinit]; try assumption.
  unfold step. rewrite (bytecode_fetch _ _ _ _ Hat), bind_Ok.
  change (decode 184) with (Some i_invokestatic). cbn [exec].
  rewrite !(u4_pc _ _ _ 1 Hat) by (simpl; (discriminate || lia)).
  replace (pc f + 1 + 1) with (pc f + 2) by lia.
  replace (pc f + 1 + 2) with (pc f + 3) by lia.
  rewrite !(u4_pc _ _ _ _ Hat) by (simpl; (discriminate || lia)).
  rewrite (bytecode_at _ _ _ 1 b1 Hat) by (lia || reflexivity).
  rewrite bind_Ok.
  rewrite (bytecode_at _ _ _ 2 b2 Hat) by (lia || reflexivity).
  rewrite bind_Ok. rewrite Hpair, (u2_small _ Hrange).
  rewrite Hfind, bind_Ok. cbn [defined]. rewrite bind_Ok.
  rewrite Hparams, bind_Ok. rewrite Hinit, bind_Ok. reflexivity.
Qed.

End Steps.

(** C2.  [ishl] and [ishr] use only the low 5 bits of the popped shift
    amount: whatever the amount, the pushed result is the popped value
    shifted by the amount modulo 32 (to the left: multiplied by the power
    of two and reduced to 32 bits; to the right: divided by it, rounding
    down).  So two amounts that agree modulo 32 give the same result, and
    shifting by 33 is shifting by 1. *)
Theorem shifts_use_low_five_bits :
  ∀ residue class method call (i : jvm_instruction_t) (f : frame)
    (w : world) (v s : Z),
    i = i_ishl ∨ i = i_ishr →
    at_pc method f [opcode i] → frame_ok f → on_top f [v; s] →
    step residue class method call f w
    = Ok (Next (popped_pushed 2 f (masked_shift i v s) (pc f + 1)) w)
    ∧ masked_shift i v s = masked_shift i v (s mod 32)
    ∧ masked_shift i v 33 = masked_shift i v 1.
Proof.
  intros residue class method call i f w v s Hi Hat Hok Htop.
  split; [now apply step_shift|].
  destruct Hi as [-> | ->]; unfold masked_shift, masked_shl, masked_shr;
    rewrite Z.mod_mod by lia; split; reflexivity.
Qed.

Lemma shifts_use_low_five_bits_witness :
  step Sample.no_residue (mk_class [] [Sample.shl_by 33]) (Sample.shl_by 33)
    Sample.no_call (mk_frame [1; 33] 1 [0] 3) Sample.empty_world
  = Ok (Next (mk_frame [2; 33] 0 [0] 4) Sample.empty_world)
  ∧ masked_shift i_ishl 1 33 = masked_shift i_ishl 1 (33 mod 32)
  ∧ masked_shift i_ishl 1 33 = masked_shift i_ishl 1 1.
Proof.
  apply (shifts_use_low_five_bits Sample.no_residue
           (mk_class [] [Sample.shl_by 33]) (Sample.shl_by 33) Sample.no_call
           i_ishl (mk_frame [1; 33] 1 [0] 3) Sample.empty_world 1 33).
  - left. reflexivity.
  - solve_at_pc.
  - solve_frame.
  - solve_frame.
Defined.

(** The program that pushes 1 and the shift amount 33 and executes [ishl]
    prints 2, as the one with the shift amount 1 does. *)
Example ishl_by_33_is_ishl_by_1 :
  execute Sample.no_residue 5 (Sample.shl_by 33) [0]
    (mk_class [] [Sample.shl_by 33]) Sample.empty_world
  = Ok (void_result, mk_world heap_init [2] 0)
  ∧ execute Sample.no_residue 5 (Sample.shl_by 1) [0]
      (mk_class [] [Sample.shl_by 1]) Sample.empty_world
    = Ok (void_result, mk_world heap_init [2] 0).
Proof. split; reflexivity. Qed.

(** C8.  [bipush] pushes its operand byte sign-extended to 32 bits, and
    [sipush] pushes its two operand bytes, combined high byte first, as a
    signed 16-bit value; so [bipush 0xFF] pushes -1, [sipush 0x8000] pushes
    -32768 and [sipush 0x7FFF] pushes 32767.  Each of the two holds of its
    instruction wherever that occurs, in any method. *)
Theorem immediates_sign_extended :
  (∀ residue class method call (f : frame) (w : world) (b : Z),
     at_pc method f [0x10; b] → frame_ok f → has_room f →
     step residue class method call f w
     = Ok (Next (popped_pushed 0 f (sign_extend 8 b) (pc f + 2)) w))
  ∧ (∀ residue class method call (g : frame) (w : world) (b1 b2 : Z),
       at_pc method g [0x11; b1; b2] → frame_ok g → has_room g →
       step residue class method call g w
       = Ok (Next (popped_pushed 0 g (sign_extend 16 (256 * b1 + b2))
                     (pc g + 3)) w))
  ∧ sign_extend 8 0xFF = -1
  ∧ sign_extend 16 (256 * 0x80 + 0x00) = -32768
  ∧ sign_extend 16 (256 * 0x7F + 0xFF) = 32767.
Proof.
  split; [|split; [|repeat split]].
  - intros. now apply step_bipush.
  - intros. now apply step_sipush.
Qed.

(** [bipush 42] in a method that has no [sipush], and [bipush 0xFF],
    [sipush 0x8000], [sipush 0x7FFF] one after the other. *)
Lemma immediates_sign_extended_witness :
  step Sample.no_residue (mk_class [] [Sample.hello]) Sample.hello
    Sample.no_call (enter Sample.hello [0]) Sample.empty_world
  = Ok (Next (mk_frame [42] 0 [0] 2) Sample.empty_world)
  ∧ step Sample.no_residue (mk_class [] [Sample.immediates])
      Sample.immediates Sample.no_call (mk_frame [0; 0; 0] (-1) [0] 0)
      Sample.empty_world
    = Ok (Next (mk_frame [-1; 0; 0] 0 [0] 2) Sample.empty_world)
  ∧ step Sample.no_residue (mk_class [] [Sample.immediates])
      Sample.immediates Sample.no_call (mk_frame [-1; 0; 0] 0 [0] 2)
      Sample.empty_world
    = Ok (Next (mk_frame [-1; -32768; 0] 1 [0] 5) Sample.empty_world)
  ∧ step Sample.no_residue (mk_class [] [Sample.immediates])
      Sample.immediates Sample.no_call (mk_frame [-1; -32768; 0] 1 [0] 5)
      Sample.empty_world
    = Ok (Next (mk_frame [-1; -32768; 32767] 2 [0] 8) Sample.empty_world).
Proof.
  destruct immediates_sign_extended as (Hbipush & Hsipush & _).
  split; [|split; [|split]].
  - apply (Hbipush Sample.no_residue (mk_class [] [Sample.hello])
             Sample.hello Sample.no_call (enter Sample.hello [0])
             Sample.empty_world 42); [solve_at_pc|solve_frame|solve_frame].
  - apply (Hbipush Sample.no_residue (mk_class [] [Sample.immediates])
             Sample.immediates Sample.no_call (mk_frame [0; 0; 0] (-1) [0] 0)
             Sample.empty_world 0xFF); [solve_at_pc|solve_frame|solve_frame].
  - apply (Hsipush Sample.no_residue (mk_class [] [Sample.immediates])
             Sample.immediates Sample.no_call (mk_frame [-1; 0; 0] 0 [0] 2)
             Sample.empty_world 0x80 0x00);
      [solve_at_pc|solve_frame|solve_frame].
  - apply (Hsipush Sample.no_residue (mk_class [] [Sample.immediates])
             Sample.immediates Sample.no_call
             (mk_frame [-1; -32768; 0] 1 [0] 5) Sample.empty_world 0x7F 0xFF);
      [solve_at_pc|solve_frame|solve_frame].
Defined.

(** C4.  When the fetched byte is the opcode of no instruction, the loop
    turn changes nothing: the outcome is the very same frame (operand stack,
    stack pointer, locals, [pc]) and the very same world (heap, output), so
    the loop fetches the same byte again and [execute] never returns. *)
Theorem unrecognized_opcode_changes_nothing :
  ∀ residue class method call (f : frame) (w : world) (op : Z),
    bytecode method (pc f) = Ok op →
    (∀ i, opcode i ≠ op) →
    step residue class method call f w = Ok (Next f w)
    ∧ spins residue class method f w.
Proof.
  intros residue class method call f w op Hfetch Hop. split.
  - now apply step_unrecognized with op.
  - intros fuel. induction fuel as [|fuel IH]; [reflexivity|].
    cbn [run]. pose proof (bytecode_in_code _ _ _ Hfetch) as Hpc.
    destruct (Z.ltb_spec (pc f) (code_length (method_code method))); [|lia].
    rewrite (step_unrecognized residue class method _ f w op Hfetch Hop).
    rewrite bind_Ok. exact IH.
Qed.

Lemma unrecognized_opcode_changes_nothing_witness :
  step Sample.no_residue (mk_class [] [Sample.unknown]) Sample.unknown
    Sample.no_call (enter Sample.unknown [0]) Sample.empty_world
  = Ok (Next (enter Sample.unknown [0]) Sample.empty_world)
  ∧ spins Sample.no_residue (mk_class [] [Sample.unknown]) Sample.unknown
      (enter Sample.unknown [0]) Sample.empty_world.
Proof.
  apply (unrecognized_opcode_changes_nothing Sample.no_residue
           (mk_class [] [Sample.unknown]) Sample.unknown Sample.no_call
           (enter Sample.unknown [0]) Sample.empty_world 0x01).
  - reflexivity.
  - intros i. destruct i; discriminate.
Defined.

(** C10.  [ldc] on a constant-pool entry whose tag is not Integer pushes
    nothing and faults nowhere: the operand stack, the stack pointer, the
    locals and the world (heap, output) are unchanged, and [pc] advances by
    exactly 2. *)
Theorem ldc_not_Integer_pushes_nothing :
  ∀ residue class method call (f : frame) (w : world) (index : Z)
    (c : cp_info),
    at_pc method f [0x12; index] → 1 <= index →
    constant_pool class !! Z.to_nat (index - 1) = Some c →
    is_Integer c = false →
    ∃ f',
      step residue class method call f w = Ok (Next f' w)
      ∧ operand_stack f' = operand_stack f
      ∧ stack_pointer f' = stack_pointer f
      ∧ locals f' = locals f
      ∧ pc f' = pc f + 2.
Proof.
  intros residue class method call f w index c Hat Hindex Hc Htag.
  exists (set_pc f (pc f + 2)). repeat split.
  now apply step_ldc_not_Integer with index c.
Qed.

Lemma ldc_not_Integer_pushes_nothing_witness :
  ∃ f',
    step Sample.no_residue Sample.ldc_utf8_class Sample.ldc_utf8
      Sample.no_call (enter Sample.ldc_utf8 [0]) Sample.empty_world
    = Ok (Next f' Sample.empty_world)
    ∧ operand_stack f' = [0]
    ∧ stack_pointer f' = -1
    ∧ locals f' = [0]
    ∧ pc f' = 0 + 2.
Proof.
  apply (ldc_not_Integer_pushes_nothing Sample.no_residue
           Sample.ldc_utf8_class Sample.ldc_utf8 Sample.no_call
           (enter Sample.ldc_utf8 [0]) Sample.empty_world 1
           (CONSTANT_Utf8 "text")).
  - solve_at_pc.
  - lia.
  - reflexivity.
  - reflexivity.
Defined.

Lemma fresh_array_head n : fresh_array n !! 0%nat = Some n.
Proof. unfold fresh_array. now destruct (0 <? n). Qed.

Lemma fresh_array_length n :
  Z.of_nat (length (fresh_array n)) = if 0 <? n then n + 1 else 1.
Proof.
  unfold fresh_array. destruct (Z.ltb_spec 0 n); simpl; [|reflexivity].
  rewrite length_replicate. lia.
Qed.

Lemma fresh_array_laid_out n : n <= Int.INT32_MAX → laid_out (fresh_array n) n.
Proof.
  intros Hn. repeat split; [apply fresh_array_head| |exact Hn].
  rewrite fresh_array_length. destruct (Z.ltb_spec 0 n); lia.
Qed.

Lemma laid_out_insert arr n i v :
  laid_out arr n → 0 <= i < n → laid_out (<[Z.to_nat (i + 1) := v]> arr) n.
Proof.
  intros (Hhead & Hlen & Hmax) Hi. repeat split; [| |exact Hmax].
  - rewrite list_lookup_insert_ne by lia. exact Hhead.
  - now rewrite length_insert.
Qed.

(** C6.  Arrays use the +1 layout: slot 0 holds the count and the elements
    follow it.  Every array [newarray] builds has this layout, and a store
    at an index [0 <= i < n] keeps it.  On an array of the heap with the
    layout, each instruction wherever it occurs: [arraylength] pushes slot
    0, the count; [iastore] at index [i] writes slot [i + 1] of that array
    and nothing else; [iaload] at index [i] pushes slot [i + 1].  So after
    the store of [v] at index [i], [iaload] at index [i] pushes [v] and
    [arraylength] pushes the same count as before. *)
Theorem array_plus_one_layout :
  (∀ n, n <= Int.INT32_MAX → laid_out (fresh_array n) n)
  ∧ (∀ residue class method call (k : frame) (w : world) (ref n : Z)
       (arr : array),
       0 <= ref → ptr (heap w) !! Z.to_nat ref = Some arr → laid_out arr n →
       at_pc method k [0xbe] → frame_ok k → on_top k [ref] →
       step residue class method call k w
       = Ok (Next (popped_pushed 1 k n (pc k + 1)) w))
  ∧ (∀ residue class method call (f : frame) (w : world) (ref n i v : Z)
       (arr : array),
       0 <= ref → ptr (heap w) !! Z.to_nat ref = Some arr → laid_out arr n →
       0 <= i < n →
       at_pc method f [0x4f] → frame_ok f → on_top f [ref; i; v] →
       step residue class method call f w
       = Ok (Next (popped 3 f (pc f + 1)) (stored w ref (i + 1) v arr))
       ∧ ptr (heap (stored w ref (i + 1) v arr)) !! Z.to_nat ref
         = Some (<[Z.to_nat (i + 1) := v]> arr)
       ∧ laid_out (<[Z.to_nat (i + 1) := v]> arr) n)
  ∧ (∀ residue class method call (g : frame) (w : world) (ref n i : Z)
       (arr : array),
       0 <= ref → ptr (heap w) !! Z.to_nat ref = Some arr → laid_out arr n →
       0 <= i < n →
       at_pc method g [0x2e] → frame_ok g → on_top g [ref; i] →
       ∃ x, arr !! Z.to_nat (i + 1) = Some x
            ∧ step residue class method call g w
              = Ok (Next (popped_pushed 2 g x (pc g + 1)) w))
  ∧ (∀ residue class method call (g : frame) (w : world) (ref n i v : Z)
       (arr : array),
       0 <= ref → ptr (heap w) !! Z.to_nat ref = Some arr → laid_out arr n →
       0 <= i < n →
       at_pc method g [0x2e] → frame_ok g → on_top g [ref; i] →
       step residue class method call g (stored w ref (i + 1) v arr)
       = Ok (Next (popped_pushed 2 g v (pc g + 1))
               (stored w ref (i + 1) v arr)))
  ∧ (∀ residue class method call (k : frame) (w : world) (ref n i v : Z)
       (arr : array),
       0 <= ref → ptr (heap w) !! Z.to_nat ref = Some arr → laid_out arr n →
       0 <= i < n →
       at_pc method k [0xbe] → frame_ok k → on_top k [ref] →
       step residue class method call k (stored w ref (i + 1) v arr)
       = Ok (Next (popped_pushed 1 k n (pc k + 1))
               (stored w ref (i + 1) v arr))).
Proof.
  assert (Hstored : ∀ (w : world) ref i v (arr : array),
            ptr (heap w) !! Z.to_nat ref = Some arr →
            ptr (heap (stored w ref (i + 1) v arr)) !! Z.to_nat ref
            = Some (<[Z.to_nat (i + 1) := v]> arr)).
  { intros w ref i v arr Harr. unfold stored. cbn [set_heap heap ptr].
    apply list_lookup_insert_eq. now apply lookup_lt_Some in Harr. }
  split; [exact fresh_array_laid_out|]. split; [|split; [|split; [|split]]].
  - intros residue class method call k w ref n arr Href Harr (Hn & _) Hk
      Hkok Hktop.
    now apply step_arraylength with ref arr.
  - intros residue class method call f w ref n i v arr Href Harr Hlay Hi Hf
      Hfok Hftop.
    pose proof Hlay as (_ & Hlen & Hmax). unfold Int.INT32_MAX in Hmax.
    split; [|split].
    + apply step_iastore; try assumption; lia.
    + now apply Hstored.
    + now apply laid_out_insert.
  - intros residue class method call g w ref n i arr Href Harr
      (_ & Hlen & Hmax) Hi Hg Hgok Hgtop. unfold Int.INT32_MAX in Hmax.
    destruct (lookup_lt_is_Some_2 arr (Z.to_nat (i + 1)) ltac:(lia))
      as [x Hx].
    exists x. split; [exact Hx|].
    apply step_iaload with ref i arr; try assumption; lia.
  - intros residue class method call g w ref n i v arr Href Harr
      (_ & Hlen & Hmax) Hi Hg Hgok Hgtop. unfold Int.INT32_MAX in Hmax.
    apply step_iaload with ref i (<[Z.to_nat (i + 1) := v]> arr);
      try assumption; try lia; [now apply Hstored|].
    apply list_lookup_insert_eq. lia.
  - intros residue class method call k w ref n i v arr Href Harr Hlay Hi Hk
      Hkok Hktop.
    apply step_arraylength with ref (<[Z.to_nat (i + 1) := v]> arr);
      try assumption; [now apply Hstored|].
    now destruct (laid_out_insert arr n i v Hlay Hi) as [Hn _].
Qed.

(** The store and the load of [Sample.store_and_load], a method that has no
    [arraylength]: [iastore] of 20 at index 1 of a new array of three, then
    [iaload] at index 1. *)
Lemma array_plus_one_layout_witness :
  step Sample.no_residue (mk_class [] [Sample.store_and_load])
    Sample.store_and_load Sample.no_call (mk_frame [0; 1; 20] 2 [0] 8)
    Sample.one_array_world
  = Ok (Next (mk_frame [0; 1; 20] (-1) [0] 9)
          (mk_world (mk_heap [[3; 0; 20; 0]] 1) [] 0))
  ∧ step Sample.no_residue (mk_class [] [Sample.store_and_load])
      Sample.store_and_load Sample.no_call (mk_frame [0; 1; 20] 1 [0] 11)
      (mk_world (mk_heap [[3; 0; 20; 0]] 1) [] 0)
    = Ok (Next (mk_frame [20; 1; 20] 0 [0] 12)
            (mk_world (mk_heap [[3; 0; 20; 0]] 1) [] 0))
  ∧ step Sample.no_residue (mk_class [] [Sample.arrays]) Sample.arrays
      Sample.no_call (mk_frame [0; 1; 20] 0 [0] 2)
      (mk_world (mk_heap [[3; 0; 20; 0]] 1) [] 0)
    = Ok (Next (mk_frame [3; 1; 20] 0 [0] 3)
            (mk_world (mk_heap [[3; 0; 20; 0]] 1) [] 0)).
Proof.
  destruct array_plus_one_layout
    as (Hfresh & _ & Hstore & _ & Hload & Hlength).
  assert (Hlay : laid_out [3; 0; 0; 0] 3)
    by (apply (Hfresh 3); unfold Int.INT32_MAX; lia).
  split; [|split].
  - apply (Hstore Sample.no_residue (mk_class [] [Sample.store_and_load])
             Sample.store_and_load Sample.no_call
             (mk_frame [0; 1; 20] 2 [0] 8) Sample.one_array_world
             0 3 1 20 [3; 0; 0; 0]);
      [lia|reflexivity|exact Hlay|lia|solve_at_pc|solve_frame|solve_frame].
  - apply (Hload Sample.no_residue (mk_class [] [Sample.store_and_load])
             Sample.store_and_load Sample.no_call
             (mk_frame [0; 1; 20] 1 [0] 11) Sample.one_array_world
             0 3 1 20 [3; 0; 0; 0]);
      [lia|reflexivity|exact Hlay|lia|solve_at_pc|solve_frame|solve_frame].
  - apply (Hlength Sample.no_residue (mk_class [] [Sample.arrays])
             Sample.arrays Sample.no_call
             (mk_frame [0; 1; 20] 0 [0] 2) Sample.one_array_world
             0 3 1 20 [3; 0; 0; 0]);
      [lia|reflexivity|exact Hlay|lia|solve_at_pc|solve_frame|solve_frame].
Defined.

(** The whole of [Sample.store_and_load] prints the value stored. *)
Example store_and_load_prints_20 :
  execute Sample.no_residue 12 Sample.store_and_load [0]
    (mk_class [] [Sample.store_and_load]) Sample.empty_world
  = Ok (void_result, mk_world (mk_heap [[3; 0; 20; 0]] 1) [20] 0).
Proof. reflexivity. Qed.

(** Outside the range [0 <= i < n] the layout gives no protection: the
    index -1 is inside the C block, and [iastore] there overwrites slot 0,
    the count that [arraylength] pushes. *)
Example iastore_at_minus_one_overwrites_count :
  step Sample.no_residue (mk_class [] [Sample.arrays]) Sample.arrays
    Sample.no_call (mk_frame [0; -1; 7] 2 [0] 0) Sample.one_array_world
  = Ok (Next (mk_frame [0; -1; 7] (-1) [0] 1)
          (mk_world (mk_heap [[7; 0; 0; 0]] 1) [] 0)).
Proof. reflexivity. Qed.

(** C7, as the code has it.  [newarray] with a popped count
    [n < INT32_MAX], wherever it occurs, on a heap with room for one more
    entry, appends one array to the heap and pushes its reference.  For
    [n > 0] the array has [n + 1] slots, slot 0 holding [n] and slots 1..n
    holding 0; for [n <= 0] it has the single slot holding [n].
    [arraylength] on the new reference, wherever it occurs, pushes [n],
    hence 0 after [newarray] of 0. *)
Theorem newarray_allocates :
  ∀ residue class method call (f : frame) (w : world) (n t : Z),
    at_pc method f [0xbc; t] → frame_ok f → on_top f [n] →
    heap_ok (heap w) → Int.INT32_MIN <= n < Int.INT32_MAX →
    let w' := set_heap w (mk_heap (ptr (heap w) ++ [fresh_array n])
                            (count (heap w) + 1)) in
    step residue class method call f w
    = Ok (Next (popped_pushed 1 f (count (heap w)) (pc f + 2)) w')
    ∧ heap_get (heap w') (count (heap w)) = Ok (fresh_array n)
    ∧ fresh_array n = (if 0 <? n then n :: replicate (Z.to_nat n) 0 else [n])
    ∧ Z.of_nat (length (fresh_array n)) = (if 0 <? n then n + 1 else 1)
    ∧ (∀ residue' class' method' call' (k : frame),
         at_pc method' k [0xbe] → frame_ok k → on_top k [count (heap w)] →
         step residue' class' method' call' k w'
         = Ok (Next (popped_pushed 1 k n (pc k + 1)) w')).
Proof.
  intros residue class method call f w n t Hf Hfok Hftop Hheap Hn w'.
  pose proof Hheap as [Hlen Hcount].
  assert (Hnew : ptr (heap w') !! Z.to_nat (count (heap w))
                 = Some (fresh_array n)).
  { unfold w'. cbn [set_heap heap ptr].
    rewrite lookup_app_r by lia.
    now replace (Z.to_nat (count (heap w)) - length (ptr (heap w)))%nat
      with 0%nat by lia. }
  repeat split.
  - now apply step_newarray with t.
  - unfold heap_get. apply array_get_ok; [lia|exact Hnew].
  - apply fresh_array_length.
  - intros residue' class' method' call' k Hk Hkok Hktop.
    apply step_arraylength with (count (heap w)) (fresh_array n);
      try assumption; [lia|apply fresh_array_head].
Qed.

(** [newarray] of 3 in [Sample.store_and_load], a method that has no
    [arraylength]. *)
Lemma newarray_allocates_witness :
  let w' := mk_world (mk_heap [[3; 0; 0; 0]] 1) [] 0 in
  step Sample.no_residue (mk_class [] [Sample.store_and_load])
    Sample.store_and_load Sample.no_call (mk_frame [3; 0; 0] 0 [0] 1)
    Sample.empty_world
  = Ok (Next (mk_frame [0; 0; 0] 0 [0] 3) w')
  ∧ heap_get (heap w') 0 = Ok [3; 0; 0; 0]
  ∧ fresh_array 3 = [3; 0; 0; 0]
  ∧ Z.of_nat (length (fresh_array 3)) = 3 + 1
  ∧ (∀ residue' class' method' call' (k : frame),
       at_pc method' k [0xbe] → frame_ok k → on_top k [0] →
       step residue' class' method' call' k w'
       = Ok (Next (popped_pushed 1 k 3 (pc k + 1)) w')).
Proof.
  apply (newarray_allocates Sample.no_residue
           (mk_class [] [Sample.store_and_load]) Sample.store_and_load
           Sample.no_call (mk_frame [3; 0; 0] 0 [0] 1) Sample.empty_world
           3 10).
  - solve_at_pc.
  - solve_frame.
  - solve_frame.
  - unfold heap_ok, Int.INT32_MAX. simpl. lia.
  - unfold Int.INT32_MIN, Int.INT32_MAX. lia.
Defined.

(** [newarray] of 0 followed by [arraylength], in [Sample.arrays]: the
    array has the one slot holding 0, and 0 is pushed. *)
Example newarray_of_0_then_arraylength :
  step Sample.no_residue (mk_class [] [Sample.arrays]) Sample.arrays
    Sample.no_call (mk_frame [0; 0; 0] 0 [0] 3) Sample.empty_world
  = Ok (Next (mk_frame [0; 0; 0] 0 [0] 5)
          (mk_world (mk_heap [[0]] 1) [] 0))
  ∧ step Sample.no_residue (mk_class [] [Sample.arrays]) Sample.arrays
      Sample.no_call (mk_frame [0; 0; 0] 0 [0] 2)
      (mk_world (mk_heap [[0]] 1) [] 0)
    = Ok (Next (mk_frame [0; 0; 0] 0 [0] 3)
            (mk_world (mk_heap [[0]] 1) [] 0)).
Proof. split; reflexivity. Qed.

(** C7, as the claim states it, fails at the count [INT32_MAX], which is
    greater than 0: [count + 1] is then no [int32_t], the request that
    reaches [calloc] is refused, and the write of the count goes through
    the null pointer.  No array of [n + 1] slots is allocated and no
    reference is pushed; the program that loads this count and executes
    [newarray] has no result. *)
Lemma newarray_of_INT32_MAX_allocates_nothing :
  0 < Int.INT32_MAX
  ∧ new_int_array Int.INT32_MAX = Fault UndefinedBehaviour
  ∧ step Sample.no_residue Sample.newarray_of_max_class
      Sample.newarray_of_max Sample.no_call
      (mk_frame [Int.INT32_MAX] 0 [0] 2) Sample.empty_world
    = Fault UndefinedBehaviour
  ∧ (∀ w',
       step Sample.no_residue Sample.newarray_of_max_class
         Sample.newarray_of_max Sample.no_call
         (mk_frame [Int.INT32_MAX] 0 [0] 2) Sample.empty_world
       ≠ Ok (Next (popped_pushed 1 (mk_frame [Int.INT32_MAX] 0 [0] 2) 0 4)
               w'))
  ∧ execute Sample.no_residue 4 Sample.newarray_of_max [0]
      Sample.newarray_of_max_class Sample.empty_world
    = Fault UndefinedBehaviour.
Proof.
  repeat split; try reflexivity. intros w'. discriminate.
Qed.

(** ** Parameter passing *)

(** A callee whose body is [iload_k; ireturn] returns its local [k]. *)
Lemma run_iload_ireturn residue class callee l k v w fuel :
  code (method_code callee) = [0x1a + k; 0xac] → 0 <= k <= 3 →
  1 <= max_stack (method_code callee) <= 65535 →
  l !! Z.to_nat k = Some v →
  run residue (S (S fuel)) class callee (enter callee l) w
  = Ok (mk_optional true v, w).
Proof.
  intros Hcode Hk Hstack Hv.
  set (f0 := enter callee l).
  set (f1 := popped_pushed 0 f0 v (pc f0 + 1)).
  assert (Hlen : code_length (method_code callee) = 2)
    by (unfold code_length; now rewrite Hcode).
  assert (Hcells : length (operand_stack f0)
                   = Z.to_nat (max_stack (method_code callee)))
    by (simpl; apply length_replicate).
  assert (Hat0 : at_pc callee f0 [0x1a + k]).
  { unfold at_pc. rewrite Hlen, Hcode. simpl.
    repeat split; try lia. repeat constructor; unfold is_byte; lia. }
  assert (Hok0 : frame_ok f0).
  { unfold frame_ok. rewrite Hcells. simpl. lia. }
  assert (Hroom0 : has_room f0).
  { unfold has_room. rewrite Hcells. simpl. lia. }
  assert (Hat1 : at_pc callee f1 [0xac]).
  { unfold at_pc. rewrite Hlen, Hcode. simpl.
    repeat split; try lia. repeat constructor; unfold is_byte; lia. }
  assert (Hok1 : frame_ok f1).
  { unfold frame_ok. simpl. rewrite length_insert, length_replicate. lia. }
  assert (Htop1 : on_top f1 [v]).
  { unfold on_top. simpl. split; [lia|].
    destruct (Z.to_nat (max_stack (method_code callee))) eqn:Hcells';
      [lia|reflexivity]. }
  cbn [run].
  destruct (Z.ltb_spec (pc f0) (code_length (method_code callee)));
    [|simpl in *; lia].
  rewrite (step_iload_n residue class callee _ f0 w k v) by assumption.
  rewrite bind_Ok. fold f1.
  destruct (Z.ltb_spec (pc f1) (code_length (method_code callee)));
    [|simpl in *; lia].
  rewrite (step_ireturn residue class callee _ f1 w v) by assumption.
  reflexivity.
Qed.

(** C5.  [invokestatic] of a callee with [n] parameters hands the callee the
    [n] topmost cells [args] of the caller's operand stack as the first [n]
    locals, in the order they have on the stack: local [j] is the cell [j]
    above the deepest popped one, so the first argument pushed is
    [locals[0]] and the top of the stack is [locals[n - 1]].  Hence a
    callee whose body is [iload_k; ireturn] returns its argument [k]
    (counted from 0), which the caller finds pushed in place of the
    arguments. *)
Theorem invokestatic_parameter_order :
  ∀ residue class method call (f : frame) (w : world) (b1 b2 : Z)
    (callee : method_t) (args : list Z),
    at_pc method f [0xb8; b1; b2] → frame_ok f → on_top f args →
    find_method_from_index (256 * b1 + b2) class = Ok (Some callee) →
    get_number_of_parameters callee = Ok (Z.of_nat (length args)) →
    Z.of_nat (length args) <= max_locals (method_code callee) <= 65535 →
    let method_locals :=
      args ++ spare_locals residue (frames w)
                (max_locals (method_code callee)) (length args) in
    Z.of_nat (length method_locals) = max_locals (method_code callee)
    ∧ step residue class method call f w
      = ('(r, w1) ← call callee method_locals (new_frame w);
         st ← (if has_value r
               then push (operand_stack f)
                      (stack_pointer f - Z.of_nat (length args)) (value r)
               else Ok (operand_stack f,
                        stack_pointer f - Z.of_nat (length args)));
         Ok (Next (set_stack f st (pc f + 3)) w1))
    ∧ (∀ (j : nat) v, args !! j = Some v →
         method_locals !! j = Some v
         ∧ operand_stack f
             !! Z.to_nat (stack_pointer f + 1 - Z.of_nat (length args)
                          + Z.of_nat j) = Some v)
    ∧ (∀ k v fuel,
         0 <= k <= 3 → args !! Z.to_nat k = Some v →
         code (method_code callee) = [0x1a + k; 0xac] →
         1 <= max_stack (method_code callee) <= 65535 →
         execute residue (S (S fuel)) callee method_locals class (new_frame w)
         = Ok (mk_optional true v, new_frame w)
         ∧ step residue class method
             (fun m l w' => execute residue (S (S fuel)) m l class w') f w
           = Ok (Next (popped_pushed (length args) f v (pc f + 3))
                   (new_frame w))).
Proof.
  intros residue class method call f w b1 b2 callee args
    Hat Hok Htop Hfind Hparams Hlocals method_locals.
  pose proof Hok as [Hlen Hsp]. pose proof Htop as [Hdepth Hargs].
  destruct (init_method_locals_ok residue (frames w)
              (max_locals (method_code callee)) (operand_stack f)
              (stack_pointer f) args) as [Hsize _]; try assumption.
  split; [exact Hsize|]. split; [|split].
  - now apply step_invokestatic with b1 b2.
  - intros j v Hj. split.
    + now apply lookup_app_l_Some.
    + now apply on_top_lookup.
  - intros k v fuel Hk Hv Hcode Hstack.
    assert (Hrun : execute residue (S (S fuel)) callee method_locals class
                     (new_frame w)
                   = Ok (mk_optional true v, new_frame w)).
    { unfold execute. apply run_iload_ireturn with k; try assumption.
      now apply lookup_app_l_Some. }
    split; [exact Hrun|].
    rewrite (step_invokestatic residue class method _ f w b1 b2 callee args)
      by assumption.
    fold method_locals. rewrite Hrun, bind_Ok. cbn [has_value value].
    pose proof (lookup_lt_Some _ _ _ Hv) as Hn.
    rewrite push_ok by lia. rewrite bind_Ok. reflexivity.
Qed.

Lemma invokestatic_parameter_order_witness :
  let method_locals :=
    [7; 9] ++ spare_locals Sample.no_residue 0 2 2 in
  Z.of_nat (length method_locals) = 2
  ∧ step Sample.no_residue Sample.second_class Sample.call_second
      Sample.no_call (mk_frame [7; 9] 1 [0] 4) Sample.empty_world
    = ('(r, w1) ← Sample.no_call Sample.second method_locals
                    (new_frame Sample.empty_world);
       st ← (if has_value r
             then push [7; 9] (1 - Z.of_nat 2) (value r)
             else Ok ([7; 9], 1 - Z.of_nat 2));
       Ok (Next (set_stack (mk_frame [7; 9] 1 [0] 4) st (4 + 3)) w1))
  ∧ (∀ (j : nat) v, [7; 9] !! j = Some v →
       method_locals !! j = Some v
       ∧ [7; 9] !! Z.to_nat (1 + 1 - Z.of_nat 2 + Z.of_nat j) = Some v)
  ∧ (∀ k v fuel,
       0 <= k <= 3 → [7; 9] !! Z.to_nat k = Some v →
       code (method_code Sample.second) = [0x1a + k; 0xac] →
       1 <= max_stack (method_code Sample.second) <= 65535 →
       execute Sample.no_residue (S (S fuel)) Sample.second method_locals
         Sample.second_class (new_frame Sample.empty_world)
       = Ok (mk_optional true v, new_frame Sample.empty_world)
       ∧ step Sample.no_residue Sample.second_class Sample.call_second
           (fun m l w' =>
              execute Sample.no_residue (S (S fuel)) m l Sample.second_class w')
           (mk_frame [7; 9] 1 [0] 4) Sample.empty_world
         = Ok (Next (popped_pushed 2 (mk_frame [7; 9] 1 [0] 4) v (4 + 3))
                 (new_frame Sample.empty_world))).
Proof.
  apply (invokestatic_parameter_order Sample.no_residue Sample.second_class
           Sample.call_second Sample.no_call (mk_frame [7; 9] 1 [0] 4)
           Sample.empty_world 0 1 Sample.second [7; 9]).
  - solve_at_pc.
  - solve_frame.
  - solve_frame.
  - reflexivity.
  - reflexivity.
  - simpl. lia.
Defined.

(** The sample program prints [second(7, 9)] as 9, the second argument. *)
Example second_returns_second_argument :
  execute Sample.no_residue 7 Sample.call_second [0] Sample.second_class
    Sample.empty_world
  = Ok (void_result, mk_world heap_init [9] 1).
Proof. reflexivity. Qed.

(** ** What [memset] leaves in the locals of a callee *)

Section SpareLocals.

Variable residue : nat → Z → Z.
Variable k : nat.
Variable max_locals0 : Z.
Hypothesis max_locals_nonneg : 0 <= max_locals0.

Local Abbreviation block := (stack_block residue k (4 * max_locals0)).
Local Abbreviation zeroed := (zeroed_block residue k max_locals0).

Lemma zeroed_length : length zeroed = (Z.to_nat max_locals0 * 4)%nat.
Proof.
  unfold zeroed_block.
  rewrite length_app, length_replicate, length_drop, stack_block_length. lia.
Qed.

Lemma spare_locals_lookup n j :
  Z.of_nat (n + j) < max_locals0 →
  spare_locals residue k max_locals0 n !! j
  = Some (load_int32 zeroed (n + j)).
Proof.
  intros Hi. unfold spare_locals.
  rewrite lookup_drop. unfold as_int32_array.
  rewrite list_lookup_fmap, zeroed_length, Nat.div_mul by lia.
  rewrite lookup_seq_lt by lia. reflexivity.
Qed.

(** The bytes below [max_locals] are zero, the others are as they were. *)
Lemma byte_at_zeroed i :
  byte_at zeroed i
  = if (Z.of_nat i <? max_locals0) then 0 else byte_at block i.
Proof.
  unfold byte_at, zeroed_block.
  destruct (Z.ltb_spec (Z.of_nat i) max_locals0).
  - rewrite lookup_app_l by (rewrite length_replicate; lia).
    rewrite lookup_replicate_2 by lia. reflexivity.
  - rewrite lookup_app_r by (rewrite length_replicate; lia).
    rewrite length_replicate, lookup_drop. f_equal. f_equal. lia.
Qed.

(** A slot that lies within the first [max_locals] bytes is zero. *)
Lemma spare_local_zeroed n j :
  4 * (Z.of_nat (n + j) + 1) <= max_locals0 →
  spare_locals residue k max_locals0 n !! j = Some 0.
Proof.
  intros Hi. rewrite spare_locals_lookup by lia. f_equal.
  unfold load_int32. rewrite !byte_at_zeroed.
  repeat match goal with
         | |- context [Z.of_nat ?i <? max_locals0] =>
             destruct (Z.ltb_spec (Z.of_nat i) max_locals0); [|lia]
         end.
  reflexivity.
Qed.

(** A slot that lies past the first [max_locals] bytes holds what the host
    stack held there. *)
Lemma spare_local_untouched n j :
  max_locals0 <= 4 * Z.of_nat (n + j) → Z.of_nat (n + j) < max_locals0 →
  spare_locals residue k max_locals0 n !! j
  = Some (load_int32 block (n + j)).
Proof.
  intros Hlow Hi. rewrite spare_locals_lookup by lia. f_equal.
  unfold load_int32. rewrite !byte_at_zeroed.
  repeat match goal with
         | |- context [Z.of_nat ?i <? max_locals0] =>
             destruct (Z.ltb_spec (Z.of_nat i) max_locals0); [lia|]
         end.
  reflexivity.
Qed.

End SpareLocals.

(** C1, at a failing input.  [invokestatic] of the static method
    [spare(int)], which has [max_locals = 2] and one parameter, on a host
    stack that holds the bytes [0xAA]: [memset(method_locals, 0, max_locals)]
    zeroes 2 bytes, not 2 slots, so on entry to the callee [locals[1]] is
    [0xAAAAAAAA] and not 0; the callee [iload_1; ireturn] returns it and the
    caller prints it. *)
Theorem callee_locals_not_zeroed :
  get_number_of_parameters Sample.spare = Ok 1
  ∧ max_locals (method_code Sample.spare) = 2
  ∧ init_method_locals (stack_block Sample.dirty_residue 0 (4 * 2)) 2 1
      [5; 0] 0
    = Ok ([5; -1431655766], -1)
  ∧ [5; -1431655766] !! 1%nat ≠ Some 0
  ∧ execute Sample.dirty_residue 6 Sample.call_spare [0] Sample.spare_class
      Sample.empty_world
    = Ok (void_result, mk_world heap_init [-1431655766] 1).
Proof.
  repeat split; try reflexivity. discriminate.
Qed.

(** * The class loader *)

(** ** Reading the stream *)

Lemma bind_Ok_inv {A B : Type} (r : result A) (k : A → result B) (b : B) :
  (r ≫= k) = Ok b → ∃ a, r = Ok a ∧ k a = Ok b.
Proof. destruct r as [a|e]; [eauto|discriminate]. Qed.

Lemma advance_advance f a b : advance (advance f a) b = advance f (a + b).
Proof. unfold advance. simpl. f_equal. lia. Qed.

Lemma advance_0 f : advance f 0 = f.
Proof. destruct f. unfold advance. simpl. f_equal. lia. Qed.

Lemma remaining_ahead f bs :
  ahead f bs → ∃ rest, remaining f = bs ++ rest.
Proof.
  intros (Hpos & _ & rest & Hrest). exists rest. unfold remaining.
  destruct (Z.leb_spec 0 (position f)); [exact Hrest|lia].
Qed.

Lemma ahead_nil f : 0 <= position f → ahead f [].
Proof.
  intros Hpos. repeat split; [assumption|constructor|].
  now exists (drop (Z.to_nat (position f)) (contents f)).
Qed.

Lemma ahead_app f a b :
  ahead f (a ++ b) → ahead f a ∧ ahead (advance f (Z.of_nat (length a))) b.
Proof.
  intros (Hpos & Hbytes & rest & Hrest).
  apply Forall_app in Hbytes as [Ha Hb]. split.
  - repeat split; try assumption. exists (b ++ rest).
    now rewrite Hrest, <- app_assoc.
  - repeat split; try assumption; [simpl; lia|]. exists rest. simpl.
    replace (Z.to_nat (position f + Z.of_nat (length a)))
      with (Z.to_nat (position f) + length a)%nat by lia.
    rewrite <- drop_drop, Hrest, <- app_assoc.
    now rewrite drop_app_length.
Qed.

Lemma ahead_cons f b bs :
  ahead f (b :: bs) → is_byte b ∧ ahead (advance f 1) bs.
Proof.
  intros H. pose proof H as (_ & Hbytes & _).
  apply (ahead_app f [b] bs) in H as [_ H]. split; [|exact H].
  now inversion Hbytes.
Qed.

Lemma read_u1_ahead f b bs :
  ahead f (b :: bs) → read_u1 f = Ok (b, advance f 1).
Proof.
  intros H. destruct (remaining_ahead _ _ H) as [rest Hrest].
  destruct (ahead_cons _ _ _ H) as [Hb _].
  unfold read_u1, fgetc. rewrite Hrest. simpl. now rewrite u1_small.
Qed.

Lemma read_u1_eof f : remaining f = [] → read_u1 f = Fault AssertionFailed.
Proof. intros H. unfold read_u1, fgetc. now rewrite H. Qed.

Lemma read_u2_ahead f b1 b2 bs :
  ahead f (b1 :: b2 :: bs) → read_u2 f = Ok (256 * b1 + b2, advance f 2).
Proof.
  intros H. unfold read_u2.
  rewrite (read_u1_ahead _ _ _ H), bind_Ok. cbn beta iota.
  destruct (ahead_cons _ _ _ H) as [Hb1 H1].
  rewrite (read_u1_ahead _ _ _ H1), bind_Ok. cbn beta iota.
  destruct (ahead_cons _ _ _ H1) as [Hb2 _].
  rewrite (u2_small b1) by (unfold is_byte in *; lia).
  destruct (big_endian_pair b1 b2 Hb1 Hb2) as [-> Hrange].
  rewrite u2_small by exact Hrange. now rewrite advance_advance.
Qed.

Lemma encode_u2_bytes x :
  is_u2 x →
  Forall is_byte (encode_u2 x) ∧ 256 * (x / 256) + x mod 256 = x.
Proof.
  unfold is_u2, is_byte, encode_u2. intros Hx. split.
  - repeat constructor; try (apply Z.div_pos; lia);
      try (apply Z.div_lt_upper_bound; lia); apply Z.mod_pos_bound; lia.
  - symmetry. apply Z.div_mod. lia.
Qed.

Lemma read_u2_encode f x bs :
  is_u2 x → ahead f (encode_u2 x ++ bs) → read_u2 f = Ok (x, advance f 2).
Proof.
  intros Hx H. unfold encode_u2 in H. simpl in H.
  rewrite (read_u2_ahead _ _ _ _ H).
  destruct (encode_u2_bytes x Hx) as [_ ->]. reflexivity.
Qed.

Lemma shift_16_pair hi lo :
  is_u2 hi → is_u2 lo →
  Int.u4 (Z.lor (Int.u4 (Z.shiftl (Int.u4 hi) 16)) lo) = 65536 * hi + lo.
Proof.
  unfold is_u2. intros Hhi Hlo.
  rewrite (u4_small hi) by lia.
  rewrite Z.shiftl_mul_pow2 by lia. rewrite (u4_small (hi * 2 ^ 16)) by lia.
  assert (Hdisjoint : Z.land (hi * 2 ^ 16) lo = 0).
  { apply Z.bits_inj'. intros n Hn. rewrite Z.land_spec, Z.bits_0.
    destruct (Z.ltb_spec n 16).
    - rewrite Z.mul_pow2_bits_low by lia. reflexivity.
    - replace (Z.testbit lo n) with false; [apply andb_false_r|].
      symmetry. destruct (Z.eq_dec lo 0) as [->|]; [apply Z.bits_0|].
      apply Z.bits_above_log2; [lia|].
      apply Z.log2_lt_pow2; [lia|].
      apply Z.lt_le_trans with (2 ^ 16); [lia|].
      apply Z.pow_le_mono_r; lia. }
  rewrite <- Z.lxor_lor, <- Z.add_nocarry_lxor by exact Hdisjoint.
  rewrite u4_small by lia. lia.
Qed.

Lemma read_u4_ahead f b3 b2 b1 b0 bs :
  ahead f (b3 :: b2 :: b1 :: b0 :: bs) →
  read_u4 f
  = Ok (2 ^ 24 * b3 + 2 ^ 16 * b2 + 2 ^ 8 * b1 + b0, advance f 4).
Proof.
  intros H. unfold read_u4.
  rewrite (read_u2_ahead _ _ _ _ H), bind_Ok. cbn beta iota.
  destruct (ahead_cons _ _ _ H) as [Hb3 H1].
  destruct (ahead_cons _ _ _ H1) as [Hb2 H2].
  rewrite advance_advance in H2. change (1 + 1) with 2 in H2.
  rewrite (read_u2_ahead _ _ _ _ H2), bind_Ok. cbn beta iota.
  destruct (ahead_cons _ _ _ H2) as [Hb1 H3].
  destruct (ahead_cons _ _ _ H3) as [Hb0 _].
  unfold is_byte in *.
  rewrite shift_16_pair by (unfold is_u2; lia).
  rewrite advance_advance. f_equal. f_equal. lia.
Qed.

Lemma encode_u4_bytes x :
  is_u4 x →
  is_u2 (x / 65536) ∧ is_u2 (x mod 65536)
  ∧ Forall is_byte (encode_u4 x)
  ∧ 65536 * (x / 65536) + x mod 65536 = x.
Proof.
  unfold is_u4. intros Hx.
  assert (Hhi : is_u2 (x / 65536)).
  { unfold is_u2. split; [apply Z.div_pos; lia|].
    apply Z.div_lt_upper_bound; lia. }
  assert (Hlo : is_u2 (x mod 65536)) by (apply Z.mod_pos_bound; lia).
  repeat split; try apply Hhi; try apply Hlo.
  - unfold encode_u4. apply Forall_app.
    split; now apply encode_u2_bytes.
  - symmetry. apply Z.div_mod. lia.
Qed.

Lemma read_u4_encode f x bs :
  is_u4 x → ahead f (encode_u4 x ++ bs) → read_u4 f = Ok (x, advance f 4).
Proof.
  intros Hx H. destruct (encode_u4_bytes x Hx) as (Hhi & Hlo & _ & Hsum).
  unfold encode_u4 in H. rewrite <- app_assoc in H. unfold read_u4.
  rewrite (read_u2_encode _ _ _ Hhi H), bind_Ok. cbn beta iota.
  apply ahead_app in H as [_ H]. change (Z.of_nat (length _)) with 2 in H.
  rewrite (read_u2_encode _ _ _ Hlo H), bind_Ok.
  cbn beta iota. rewrite shift_16_pair by assumption.
  rewrite advance_advance, Hsum. reflexivity.
Qed.

Lemma fread_ahead f bs rest :
  ahead f (bs ++ rest) →
  fread f (Z.of_nat (length bs)) = (bs, advance f (Z.of_nat (length bs))).
Proof.
  intros H. destruct (remaining_ahead _ _ H) as [rest' Hrest].
  destruct H as (_ & Hbytes & _). apply Forall_app in Hbytes as [Hbytes _].
  unfold fread. rewrite Hrest, Nat2Z.id, <- app_assoc, take_app_length.
  f_equal. clear -Hbytes. induction Hbytes as [|b bs Hb _ IH]; [reflexivity|].
  simpl. now rewrite IH, u1_small.
Qed.

Lemma fseek_advance f k n :
  0 <= position f + n → fseek (advance f k) (position f + n) = advance f n.
Proof.
  intros H. unfold fseek, advance. simpl.
  destruct (Z.leb_spec 0 (position f + n)); [reflexivity|lia].
Qed.

(** X1.  The readers are big-endian: [read_u2] on the next bytes [b1 b0]
    yields [256 b1 + b0] and [read_u4] on [b3 b2 b1 b0] yields
    [2^24 b3 + 2^16 b2 + 2^8 b1 + b0]; each moves the position by the
    number of bytes it read. *)
Theorem readers_big_endian :
  ∀ (f : FILE) (b3 b2 b1 b0 : Z) (bs : list Z),
    ahead f (b3 :: b2 :: b1 :: b0 :: bs) →
    read_u1 f = Ok (b3, advance f 1)
    ∧ read_u2 f = Ok (256 * b3 + b2, advance f 2)
    ∧ read_u4 f
      = Ok (2 ^ 24 * b3 + 2 ^ 16 * b2 + 2 ^ 8 * b1 + b0, advance f 4).
Proof.
  intros f b3 b2 b1 b0 bs H. repeat split.
  - now apply read_u1_ahead with (b2 :: b1 :: b0 :: bs).
  - now apply read_u2_ahead with (b1 :: b0 :: bs).
  - now apply read_u4_ahead with bs.
Qed.

Lemma readers_big_endian_witness :
  read_u1 (mk_file [1; 0xCA; 0xFE; 0xBA; 0xBE; 7] 1)
  = Ok (0xCA, mk_file [1; 0xCA; 0xFE; 0xBA; 0xBE; 7] 2)
  ∧ read_u2 (mk_file [1; 0xCA; 0xFE; 0xBA; 0xBE; 7] 1)
    = Ok (0xCAFE, mk_file [1; 0xCA; 0xFE; 0xBA; 0xBE; 7] 3)
  ∧ read_u4 (mk_file [1; 0xCA; 0xFE; 0xBA; 0xBE; 7] 1)
    = Ok (0xCAFEBABE, mk_file [1; 0xCA; 0xFE; 0xBA; 0xBE; 7] 5).
Proof.
  apply (readers_big_endian (mk_file [1; 0xCA; 0xFE; 0xBA; 0xBE; 7] 1)
           0xCA 0xFE 0xBA 0xBE [7]).
  repeat split; simpl; try lia.
  - repeat constructor; unfold is_byte; lia.
  - now exists [].
Defined.

Lemma remaining_advance f n :
  0 <= position f → 0 <= n →
  remaining (advance f n) = drop (Z.to_nat n) (remaining f).
Proof.
  intros Hpos Hn. unfold remaining, advance. simpl.
  destruct (Z.leb_spec 0 (position f)); [|lia].
  destruct (Z.leb_spec 0 (position f + n)); [|lia].
  rewrite drop_drop. f_equal. lia.
Qed.

Lemma remaining_negative f : position f < 0 → remaining f = [].
Proof.
  intros H. unfold remaining. destruct (Z.leb_spec 0 (position f)); [lia|].
  reflexivity.
Qed.

Lemma read_u1_some f b bs :
  remaining f = b :: bs → read_u1 f = Ok (Int.u1 b, advance f 1).
Proof. intros H. unfold read_u1, fgetc. now rewrite H. Qed.

Lemma read_u2_short f :
  (length (remaining f) < 2)%nat → read_u2 f = Fault AssertionFailed.
Proof.
  intros H. unfold read_u2.
  destruct (remaining f) as [|b bs] eqn:Hrem.
  - now rewrite read_u1_eof.
  - rewrite (read_u1_some _ _ _ Hrem), bind_Ok. cbn beta iota.
    rewrite read_u1_eof; [reflexivity|].
    destruct (Z.ltb_spec (position f) 0) as [Hneg|Hpos].
    + rewrite remaining_negative in Hrem by assumption. discriminate.
    + rewrite remaining_advance, Hrem by lia.
      destruct bs; [reflexivity|]. simpl in H. lia.
Qed.

Lemma read_u2_long f b1 b2 rest :
  remaining f = b1 :: b2 :: rest →
  ∃ x, read_u2 f = Ok (x, advance f 2).
Proof.
  intros Hrem. unfold read_u2.
  rewrite (read_u1_some _ _ _ Hrem), bind_Ok. cbn beta iota.
  destruct (Z.ltb_spec (position f) 0) as [Hneg|Hpos].
  - rewrite remaining_negative in Hrem by assumption. discriminate.
  - rewrite (read_u1_some _ b2 rest), bind_Ok
      by (rewrite remaining_advance, Hrem by lia; reflexivity).
    cbn beta iota. rewrite advance_advance. eauto.
Qed.

Lemma read_u4_short f :
  (length (remaining f) < 4)%nat → read_u4 f = Fault AssertionFailed.
Proof.
  intros H. unfold read_u4.
  destruct (remaining f) as [|b1 [|b2 rest]] eqn:Hrem;
    try (rewrite read_u2_short by (rewrite Hrem; simpl; lia); reflexivity).
  destruct (read_u2_long f b1 b2 rest Hrem) as [x ->]. rewrite bind_Ok.
  cbn beta iota. rewrite read_u2_short; [reflexivity|].
  destruct (Z.ltb_spec (position f) 0) as [Hneg|Hpos].
  - rewrite remaining_negative in Hrem by assumption. discriminate.
  - rewrite remaining_advance, Hrem by lia.
    change (Z.to_nat 2) with 2%nat. simpl in *. rewrite drop_0. lia.
Qed.

(** X2.  A field that the file ends before or within is fatal: with fewer
    than 4 bytes left [read_u4] fails its assertion, and so do [read_u2]
    with fewer than 2 and [read_u1] with none, wherever the position is
    (also past the end of the file, where [fseek] may have put it). *)
Theorem readers_fail_at_end_of_file :
  ∀ (f : FILE),
    (length (remaining f) < 4)%nat →
    read_u4 f = Fault AssertionFailed
    ∧ ((length (remaining f) < 2)%nat → read_u2 f = Fault AssertionFailed)
    ∧ ((length (remaining f) < 1)%nat → read_u1 f = Fault AssertionFailed).
Proof.
  intros f H. repeat split.
  - now apply read_u4_short.
  - apply read_u2_short.
  - intros H1. apply read_u1_eof. destruct (remaining f); [reflexivity|].
    simpl in H1. lia.
Qed.

Lemma readers_fail_at_end_of_file_witness :
  read_u4 Sample.truncated_file = Fault AssertionFailed
  ∧ ((length (remaining Sample.truncated_file) < 2)%nat →
     read_u2 Sample.truncated_file = Fault AssertionFailed)
  ∧ ((length (remaining Sample.truncated_file) < 1)%nat →
     read_u1 Sample.truncated_file = Fault AssertionFailed).
Proof.
  apply (readers_fail_at_end_of_file Sample.truncated_file).
  simpl. lia.
Defined.

(** ** The header *)

(** X3.  [get_class_header] accepts a file exactly when its first four
    bytes are [CA FE BA BE]; it then returns the two version fields and
    leaves the position 8 bytes further.  Any other magic number fails the
    assertion. *)
Theorem get_class_header_checks_magic :
  ∀ (f : FILE) (m3 m2 m1 m0 a1 a0 b1 b0 : Z) (bs : list Z),
    ahead f (m3 :: m2 :: m1 :: m0 :: a1 :: a0 :: b1 :: b0 :: bs) →
    get_class_header f
    = if (m3 =? 0xCA) && (m2 =? 0xFE) && (m1 =? 0xBA) && (m0 =? 0xBE)
      then Ok (mk_header CLASS_MAGIC (256 * a1 + a0) (256 * b1 + b0),
               advance f 8)
      else Fault AssertionFailed.
Proof.
  intros f m3 m2 m1 m0 a1 a0 b1 b0 bs H. unfold get_class_header.
  rewrite (read_u4_ahead _ _ _ _ _ _ H), bind_Ok. cbn beta iota.
  apply (ahead_app f [m3; m2; m1; m0]) in H as [Hm H].
  change (Z.of_nat (length _)) with 4 in H.
  destruct Hm as (_ & Hm & _).
  inversion Hm as [|? ? H3 Hm2]; subst. inversion Hm2 as [|? ? H2 Hm1]; subst.
  inversion Hm1 as [|? ? H1 Hm0]; subst. inversion Hm0 as [|? ? H0 _]; subst.
  unfold is_byte, CLASS_MAGIC in *.
  destruct (Z.eqb_spec (2 ^ 24 * m3 + 2 ^ 16 * m2 + 2 ^ 8 * m1 + m0)
              3405691582) as [Heq|Hne].
  - assert (m3 = 202 ∧ m2 = 254 ∧ m1 = 186 ∧ m0 = 190) as (-> & -> & -> & ->)
      by lia.
    cbn [assert Z.eqb Pos.eqb andb]. rewrite bind_Ok.
    rewrite (read_u2_ahead _ _ _ _ H), bind_Ok. cbn beta iota.
    apply (ahead_app _ [a1; a0]) in H as [_ H].
    change (Z.of_nat (length _)) with 2 in H. rewrite advance_advance in H.
    rewrite advance_advance.
    rewrite (read_u2_ahead _ _ _ _ H), bind_Ok. cbn beta iota.
    rewrite advance_advance. reflexivity.
  - cbn [assert]. 
    destruct (Z.eqb_spec m3 202); destruct (Z.eqb_spec m2 254);
      destruct (Z.eqb_spec m1 186); destruct (Z.eqb_spec m0 190);
      try reflexivity. subst. lia.
Qed.

Lemma get_class_header_checks_magic_witness :
  get_class_header (mk_file [0xCA; 0xFE; 0xBA; 0xBE; 0; 0; 0; 52; 9] 0)
  = Ok (mk_header CLASS_MAGIC 0 52,
        mk_file [0xCA; 0xFE; 0xBA; 0xBE; 0; 0; 0; 52; 9] 8).
Proof.
  apply (get_class_header_checks_magic
           (mk_file [0xCA; 0xFE; 0xBA; 0xBE; 0; 0; 0; 52; 9] 0)
           0xCA 0xFE 0xBA 0xBE 0 0 0 52 [9]).
  repeat split; simpl; try lia.
  - repeat constructor; unfold is_byte; lia.
  - now exists [].
Defined.

(** ** The constant pool *)

Lemma string_of_bytes_of_string s : string_of_bytes (bytes_of_string s) = s.
Proof.
  unfold string_of_bytes, bytes_of_string. rewrite map_map.
  rewrite <- (string_of_list_ascii_of_string s) at 2. f_equal.
  induction (list_ascii_of_string s) as [|c l IH]; [reflexivity|].
  simpl. now rewrite IH, Nat2Z.id, ascii_nat_embedding.
Qed.

Lemma bytes_of_string_bytes s : Forall is_byte (bytes_of_string s).
Proof.
  unfold bytes_of_string. apply Forall_map, Forall_forall. intros c _.
  pose proof (nat_ascii_bounded c). unfold is_byte. simpl. lia.
Qed.

Lemma int32_of_u4 v :
  Int.INT32_MIN <= v <= Int.INT32_MAX →
  is_u4 (Int.u4 v) ∧ Int.int32_t (Int.u4 v) = v.
Proof.
  unfold Int.INT32_MIN, Int.INT32_MAX, is_u4, Int.u4, Int.int32_t,
    Int.wrap_unsigned, Int.wrap_signed.
  intros Hv. split; [apply Z.mod_pos_bound; lia|].
  change (2 ^ (32 - 1)) with (2 ^ 31).
  rewrite Z.add_mod_idemp_l by lia. rewrite Z.mod_small; lia.
Qed.

Lemma tag_of_byte c : is_byte (tag_of c).
Proof. unfold is_byte. destruct c; simpl; lia. Qed.

Lemma read_constant_encode c f bs :
  constant_ok c → ahead f (encode_constant c ++ bs) →
  (read_u1 f ≫= λ '(tag, f1), read_constant tag f1)
  = Ok (c, advance f (Z.of_nat (length (encode_constant c)))).
Proof.
  intros Hc H. unfold encode_constant in *.
  rewrite <- app_comm_cons in H.
  rewrite (read_u1_ahead _ _ _ H), bind_Ok. cbn beta iota.
  apply ahead_cons in H as [_ H].
  destruct c as [info|v|i|a b|a b|a b]; simpl tag_of; cbn [read_constant];
    cbn [constant_ok] in Hc.
  - rewrite <- app_assoc in H.
    assert (Hlen : is_u2 (Z.of_nat (length (bytes_of_string info))))
      by (unfold is_u2; lia).
    rewrite (read_u2_encode _ _ _ Hlen H), bind_Ok.
    cbn beta iota. apply ahead_app in H as [_ H].
    change (Z.of_nat (length (encode_u2 _))) with 2 in H.
    rewrite advance_advance in *.
    rewrite (fread_ahead _ _ _ H). rewrite Z.eqb_refl. cbn [assert].
    rewrite bind_Ok, string_of_bytes_of_string, advance_advance.
    do 2 f_equal. f_equal. cbn [length]. rewrite length_app. simpl length. lia.
  - destruct (int32_of_u4 v Hc) as [Hu4 Hback].
    rewrite (read_u4_encode _ _ _ Hu4 H), bind_Ok. cbn beta iota.
    rewrite Hback, advance_advance. reflexivity.
  - rewrite (read_u2_encode _ _ _ Hc H), bind_Ok. cbn beta iota.
    rewrite advance_advance. reflexivity.
  - destruct Hc as [Ha Hb]. rewrite <- app_assoc in H.
    rewrite (read_u2_encode _ _ _ Ha H), bind_Ok. cbn beta iota.
    apply ahead_app in H as [_ H].
    change (Z.of_nat (length (encode_u2 _))) with 2 in H.
    rewrite (read_u2_encode _ _ _ Hb H), bind_Ok. cbn beta iota.
    rewrite !advance_advance. reflexivity.
  - destruct Hc as [Ha Hb]. rewrite <- app_assoc in H.
    rewrite (read_u2_encode _ _ _ Ha H), bind_Ok. cbn beta iota.
    apply ahead_app in H as [_ H].
    change (Z.of_nat (length (encode_u2 _))) with 2 in H.
    rewrite (read_u2_encode _ _ _ Hb H), bind_Ok. cbn beta iota.
    rewrite !advance_advance. reflexivity.
  - destruct Hc as [Ha Hb]. rewrite <- app_assoc in H.
    rewrite (read_u2_encode _ _ _ Ha H), bind_Ok. cbn beta iota.
    apply ahead_app in H as [_ H].
    change (Z.of_nat (length (encode_u2 _))) with 2 in H.
    rewrite (read_u2_encode _ _ _ Hb H), bind_Ok. cbn beta iota.
    rewrite !advance_advance. reflexivity.
Qed.

Lemma read_constants_encode pool : ∀ f bs,
  Forall constant_ok pool → ahead f (encode_constants pool ++ bs) →
  read_constants (length pool) f
  = Ok (pool, advance f (Z.of_nat (length (encode_constants pool)))).
Proof.
  induction pool as [|c pool IH]; intros f bs Hok H.
  - simpl. now rewrite advance_0.
  - inversion Hok as [|? ? Hc Hpool]; subst.
    change (encode_constants (c :: pool))
      with (encode_constant c ++ encode_constants pool) in *.
    rewrite <- app_assoc in H. cbn [length read_constants].
    pose proof (read_constant_encode c f _ Hc H) as Hread.
    apply bind_Ok_inv in Hread as ([tag f1] & Hu1 & Hread).
    rewrite Hu1, bind_Ok. cbn beta iota. rewrite Hread, bind_Ok.
    cbn beta iota. apply ahead_app in H as [_ H].
    rewrite (IH _ bs Hpool H), bind_Ok. cbn beta iota.
    rewrite advance_advance. do 2 f_equal. f_equal.
    rewrite length_app. lia.
Qed.

Lemma get_constant_pool_encode pool f bs :
  Z.of_nat (length pool) < 65535 → Forall constant_ok pool →
  ahead f (encode_constant_pool pool ++ bs) →
  get_constant_pool f
  = Ok (pool, advance f (Z.of_nat (length (encode_constant_pool pool)))).
Proof.
  intros Hlen Hok H. unfold get_constant_pool.
  unfold encode_constant_pool in *. rewrite <- app_assoc in H.
  assert (Hcount : is_u2 (Z.of_nat (length pool) + 1)) by (unfold is_u2; lia).
  rewrite (read_u2_encode _ _ _ Hcount H), bind_Ok.
  cbn beta iota. apply ahead_app in H as [_ H].
  change (Z.of_nat (length (encode_u2 _))) with 2 in H.
  replace (Z.of_nat (length pool) + 1 - 1) with (Z.of_nat (length pool))
    by lia.
  rewrite u2_small, Nat2Z.id by lia.
  rewrite (read_constants_encode pool _ bs Hok H), advance_advance.
  do 2 f_equal. f_equal. rewrite length_app. simpl. lia.
Qed.

(** X4.  Loading undoes the encoding of a constant pool: on a file where
    the encoding of [pool] comes next (count field, then each constant as
    tag and fields), [get_constant_pool] returns [pool] itself and leaves
    the position right after it.  The pool has fewer than 65535 constants
    and each fits the widths of the format. *)
Theorem get_constant_pool_round_trip :
  ∀ (pool : list cp_info) (f : FILE) (bs : list Z),
    Z.of_nat (length pool) < 65535 → Forall constant_ok pool →
    ahead f (encode_constant_pool pool ++ bs) →
    get_constant_pool f
    = Ok (pool,
          advance f (Z.of_nat (length (encode_constant_pool pool)))).
Proof. intros. now apply get_constant_pool_encode with bs. Qed.

Lemma get_constant_pool_round_trip_witness :
  get_constant_pool
    (mk_file (encode_constant_pool (constant_pool Sample.second_class)
              ++ [0; 33]) 0)
  = Ok (constant_pool Sample.second_class,
        advance
          (mk_file (encode_constant_pool (constant_pool Sample.second_class)
                    ++ [0; 33]) 0)
          (Z.of_nat (length (encode_constant_pool
                               (constant_pool Sample.second_class))))).
Proof.
  apply (get_constant_pool_round_trip (constant_pool Sample.second_class)
           (mk_file (encode_constant_pool (constant_pool Sample.second_class)
                     ++ [0; 33]) 0) [0; 33]).
  - simpl. lia.
  - repeat constructor; simpl; unfold is_u2; lia.
  - solve_ahead (@nil Z).
Defined.

Lemma read_constants_length n : ∀ f pool f',
  read_constants n f = Ok (pool, f') → length pool = n.
Proof.
  induction n as [|n IH]; intros f pool f' H.
  - simpl in H. now injection H as <- _.
  - cbn [read_constants] in H.
    apply bind_Ok_inv in H as ([tag f1] & _ & H).
    apply bind_Ok_inv in H as ([c f2] & _ & H).
    apply bind_Ok_inv in H as ([rest f3] & Hrest & H).
    injection H as <- _. simpl. f_equal. exact (IH _ _ _ Hrest).
Qed.

(** X5.  The number of constants the loader reads is the count field of the
    file minus one, as a 16-bit unsigned value: a count field [hi lo] gives
    a pool of [(256 hi + lo - 1) mod 65536] constants whenever loading
    succeeds.  So the count field 1 gives the empty pool, and the count
    field 0 does not: it makes the loader demand 65535 constants. *)
Theorem get_constant_pool_count :
  ∀ (f f' : FILE) (hi lo : Z) (bs : list Z) (pool : list cp_info),
    ahead f (hi :: lo :: bs) →
    get_constant_pool f = Ok (pool, f') →
    Z.of_nat (length pool) = (256 * hi + lo - 1) mod 65536.
Proof.
  intros f f' hi lo bs pool H Hload. unfold get_constant_pool in Hload.
  rewrite (read_u2_ahead _ _ _ _ H), bind_Ok in Hload.
  cbn beta iota in Hload. apply read_constants_length in Hload.
  rewrite Hload. unfold Int.u2, Int.wrap_unsigned.
  rewrite Z2Nat.id; [reflexivity|]. apply Z.mod_pos_bound. lia.
Qed.

Lemma get_constant_pool_count_witness :
  Z.of_nat (length [CONSTANT_Integer (-2); CONSTANT_Class 1])
  = (256 * 0 + 3 - 1) mod 65536.
Proof.
  apply (get_constant_pool_count
           (mk_file [0; 3; 3; 0xFF; 0xFF; 0xFF; 0xFE; 7; 0; 1] 0)
           (mk_file [0; 3; 3; 0xFF; 0xFF; 0xFF; 0xFE; 7; 0; 1] 10)
           0 3 [3; 0xFF; 0xFF; 0xFF; 0xFE; 7; 0; 1]).
  - repeat split; simpl; try lia.
    + repeat constructor; unfold is_byte; lia.
    + now exists [].
  - reflexivity.
Defined.

(** The count field 0 on a file that ends there: the loader wants a
    constant and meets the end of the file. *)
Example get_constant_pool_count_zero :
  get_constant_pool (mk_file [0; 0] 0) = Fault AssertionFailed
  ∧ get_constant_pool (mk_file [0; 1] 0) = Ok ([], mk_file [0; 1] 2).
Proof. split; reflexivity. Qed.

(** ** Class information *)

(** X6.  [get_class_info] reads five 16-bit fields and accepts the class
    exactly when the fourth and the fifth, the numbers of interfaces and
    of fields, are both 0; otherwise it fails its assertion. *)
Theorem get_class_info_rejects_interfaces_and_fields :
  ∀ (f : FILE) (a1 a0 t1 t0 s1 s0 i1 i0 d1 d0 : Z) (bs : list Z),
    ahead f (a1 :: a0 :: t1 :: t0 :: s1 :: s0 :: i1 :: i0 :: d1 :: d0 :: bs) →
    get_class_info f
    = if (256 * i1 + i0 =? 0) && (256 * d1 + d0 =? 0)
      then Ok (mk_class_info (256 * a1 + a0) (256 * t1 + t0) (256 * s1 + s0),
               advance f 10)
      else Fault AssertionFailed.
Proof.
  intros f a1 a0 t1 t0 s1 s0 i1 i0 d1 d0 bs H. unfold get_class_info.
  rewrite (read_u2_ahead _ _ _ _ H), bind_Ok. cbn beta iota.
  apply (ahead_app _ [a1; a0]) in H as [_ H].
  change (Z.of_nat (length _)) with 2 in H.
  rewrite (read_u2_ahead _ _ _ _ H), bind_Ok. cbn beta iota.
  apply (ahead_app _ [t1; t0]) in H as [_ H].
  change (Z.of_nat (length _)) with 2 in H.
  rewrite (read_u2_ahead _ _ _ _ H), bind_Ok. cbn beta iota.
  apply (ahead_app _ [s1; s0]) in H as [_ H].
  change (Z.of_nat (length _)) with 2 in H.
  rewrite (read_u2_ahead _ _ _ _ H), bind_Ok. cbn beta iota.
  apply (ahead_app _ [i1; i0]) in H as [_ H].
  change (Z.of_nat (length _)) with 2 in H.
  destruct (256 * i1 + i0 =? 0); [|reflexivity]. cbn [assert andb].
  rewrite bind_Ok.
  rewrite (read_u2_ahead _ _ _ _ H), bind_Ok. cbn beta iota.
  destruct (256 * d1 + d0 =? 0); [|reflexivity]. cbn [assert].
  rewrite bind_Ok, !advance_advance. reflexivity.
Qed.

Lemma get_class_info_rejects_interfaces_and_fields_witness :
  get_class_info (mk_file [0; 0x21; 0; 2; 0; 3; 0; 1; 0; 0] 0)
  = Fault AssertionFailed.
Proof.
  apply (get_class_info_rejects_interfaces_and_fields
           (mk_file [0; 0x21; 0; 2; 0; 3; 0; 1; 0; 0] 0)
           0 0x21 0 2 0 3 0 1 0 0 []).
  repeat split; simpl; try lia.
  - repeat constructor; unfold is_byte; lia.
  - now exists [].
Defined.

(** ** Method attributes *)

Lemma encode_attributes_cons a attrs :
  encode_attributes (a :: attrs) = encode_attribute a ++ encode_attributes attrs.
Proof. reflexivity. Qed.

Lemma encode_attribute_length a :
  Z.of_nat (length (encode_attribute a))
  = 6 + Z.of_nat (length (attribute_payload a)).
Proof.
  unfold encode_attribute. rewrite !length_app. simpl length. lia.
Qed.

Lemma read_code_encode f c trailer bs :
  is_u2 (max_stack c) → is_u2 (max_locals c) → is_u4 (code_length c) →
  ahead f (attribute_payload (Code_attribute 0 c trailer) ++ bs) →
  read_code f false
  = Ok (c, advance f (8 + code_length c)).
Proof.
  intros Hms Hml Hcl H. unfold read_code. cbn [negb assert].
  rewrite bind_Ok. cbn [attribute_payload] in H.
  rewrite <- !app_assoc in H.
  rewrite (read_u2_encode _ _ _ Hms H), bind_Ok. cbn beta iota.
  apply ahead_app in H as [_ H].
  change (Z.of_nat (length (encode_u2 _))) with 2 in H.
  rewrite (read_u2_encode _ _ _ Hml H), bind_Ok. cbn beta iota.
  apply ahead_app in H as [_ H].
  change (Z.of_nat (length (encode_u2 _))) with 2 in H.
  rewrite (read_u4_encode _ _ _ Hcl H), bind_Ok. cbn beta iota.
  apply ahead_app in H as [_ H].
  change (Z.of_nat (length (encode_u4 _))) with 4 in H.
  rewrite !advance_advance in *. unfold code_length in *.
  rewrite (fread_ahead _ _ _ H). rewrite Z.eqb_refl. cbn [assert].
  rewrite bind_Ok, advance_advance. destruct c. simpl. reflexivity.
Qed.

Lemma codes_in_cons_code name_index c trailer attrs :
  codes_in (Code_attribute name_index c trailer :: attrs)
  = c :: codes_in attrs.
Proof. reflexivity. Qed.

Lemma codes_in_cons_other name_index payload attrs :
  codes_in (Other_attribute name_index payload :: attrs) = codes_in attrs.
Proof. reflexivity. Qed.

Section Attributes.

Variable pool : list cp_info.

(** What the loop makes of the attributes of a method: it skips every
    attribute by its declared length, keeps the [Code] attribute, and fails
    at the second one. *)
Lemma read_attributes_encode attrs : ∀ f bs found,
  Forall (attribute_ok pool) attrs →
  ahead f (encode_attributes attrs ++ bs) →
  read_attributes (length attrs) f found pool
  = match option_list found ++ codes_in attrs with
    | [] => Ok (None, advance f (Z.of_nat (length (encode_attributes attrs))))
    | [c] =>
        Ok (Some c, advance f (Z.of_nat (length (encode_attributes attrs))))
    | _ => Fault AssertionFailed
    end.
Proof.
  induction attrs as [|a attrs IH]; intros f bs found Hok H.
  - simpl. rewrite advance_0, app_nil_r. now destruct found.
  - inversion Hok as [|? ? Ha Hattrs]; subst.
    destruct Ha as (Hname & Hlen & Hbytes & info & Hinfo & Hcode & Hfields).
    rewrite encode_attributes_cons, <- app_assoc in H.
    pose proof H as (Hpos & _).
    pose proof H as Hnext. apply ahead_app in Hnext as [_ Hnext].
    rewrite encode_attribute_length in Hnext.
    unfold encode_attribute in H. rewrite <- !app_assoc in H.
    cbn [length read_attributes].
    rewrite (read_u2_encode _ _ _ Hname H), bind_Ok. cbn beta iota.
    apply ahead_app in H as [_ H].
    change (Z.of_nat (length (encode_u2 _))) with 2 in H.
    rewrite (read_u4_encode _ _ _ Hlen H), bind_Ok. cbn beta iota.
    apply ahead_app in H as [_ H].
    change (Z.of_nat (length (encode_u4 _))) with 4 in H.
    rewrite !advance_advance in *. change (2 + 4) with 6 in *.
    rewrite Hinfo, bind_Ok. rewrite Hcode.
    unfold ftell. cbn [advance position].
    rewrite encode_attributes_cons, length_app, Nat2Z.inj_add,
      encode_attribute_length.
    destruct a as [name_index c trailer|name_index payload].
    + (* the Code attribute *)
      destruct Hfields as [Hms Hml].
      assert (Hcl : is_u4 (code_length c)).
      { unfold is_u4, code_length in *. cbn [attribute_payload] in Hlen.
        rewrite !length_app in Hlen. lia. }
      destruct found as [c0|].
      * (* a second one *)
        rewrite codes_in_cons_code.
        replace (bool_decide (is_Some (Some c0))) with true
          by (symmetry; apply bool_decide_eq_true; eauto).
        unfold read_code. cbn [negb assert]. reflexivity.
      * rewrite codes_in_cons_code.
        replace (bool_decide (is_Some (@None code_t))) with false
          by (symmetry; apply bool_decide_eq_false; intros [? ?];
              discriminate).
        rewrite (read_code_encode _ c trailer _ Hms Hml Hcl H), bind_Ok.
        cbn beta iota. rewrite bind_Ok. cbn beta iota.
        replace (position f + 6 + Z.of_nat (length (attribute_payload
                   (Code_attribute name_index c trailer))))
          with (position f + (6 + Z.of_nat (length (attribute_payload
                   (Code_attribute name_index c trailer))))) by lia.
        rewrite advance_advance, fseek_advance by lia.
        rewrite (IH _ bs (Some c) Hattrs Hnext), advance_advance.
        reflexivity.
    + (* another attribute *)
      rewrite codes_in_cons_other, bind_Ok. cbn beta iota.
      replace (position f + 6 + Z.of_nat (length (attribute_payload
                 (Other_attribute name_index payload))))
        with (position f + (6 + Z.of_nat (length (attribute_payload
                 (Other_attribute name_index payload))))) by lia.
      rewrite fseek_advance by lia.
      rewrite (IH _ bs found Hattrs Hnext), advance_advance.
      reflexivity.
Qed.

End Attributes.

Lemma read_method_attributes_encode pool attrs f bs :
  Forall (attribute_ok pool) attrs →
  ahead f (encode_attributes attrs ++ bs) →
  read_method_attributes f (Z.of_nat (length attrs)) pool
  = match codes_in attrs with
    | [c] => Ok (c, advance f (Z.of_nat (length (encode_attributes attrs))))
    | _ => Fault AssertionFailed
    end.
Proof.
  intros Hok H. unfold read_method_attributes.
  rewrite Nat2Z.id, (read_attributes_encode pool attrs f bs None Hok H).
  cbn [option_list app].
  destruct (codes_in attrs) as [|c [|c' cs]]; reflexivity.
Qed.

(** X7.  A method needs exactly one [Code] attribute.  On the encoding of
    well-formed attributes, [read_method_attributes] skips each attribute
    other than [Code] by its declared length, and skips what follows the
    bytecode inside [Code]; it returns the code when there is exactly one
    [Code] attribute, and fails its assertion when there is none or more
    than one. *)
Theorem read_method_attributes_one_code :
  ∀ (pool : list cp_info) (attrs : list attribute) (f : FILE)
    (bs : list Z),
    Forall (attribute_ok pool) attrs →
    ahead f (encode_attributes attrs ++ bs) →
    read_method_attributes f (Z.of_nat (length attrs)) pool
    = match codes_in attrs with
      | [c] =>
          Ok (c, advance f (Z.of_nat (length (encode_attributes attrs))))
      | _ => Fault AssertionFailed
      end.
Proof. intros. now apply read_method_attributes_encode with bs. Qed.

Lemma read_method_attributes_one_code_witness :
  read_method_attributes
    (mk_file (encode_attributes Sample.main_attributes ++ [7]) 0)
    (Z.of_nat (length Sample.main_attributes)) Sample.loader_pool
  = Ok (method_code Sample.call_second,
        advance (mk_file (encode_attributes Sample.main_attributes ++ [7]) 0)
          (Z.of_nat (length (encode_attributes Sample.main_attributes)))).
Proof.
  apply (read_method_attributes_one_code Sample.loader_pool
           Sample.main_attributes
           (mk_file (encode_attributes Sample.main_attributes ++ [7]) 0) [7]).
  - solve_attributes.
  - solve_ahead (@nil Z).
Defined.

(** ** The method table *)

Lemma encode_method_length e :
  Z.of_nat (length (encode_method e))
  = 8 + Z.of_nat (length (encode_attributes (entry_attributes e))).
Proof. unfold encode_method. rewrite !length_app. simpl length. lia. Qed.

Section Methods.

Variable pool : list cp_info.

Lemma read_methods_encode es : ∀ ms f bs,
  Forall2 (entry_loads_as pool) es ms →
  ahead f (concat (map encode_method es) ++ bs) →
  read_methods (length es) f pool
  = Ok (ms, advance f (Z.of_nat (length (concat (map encode_method es))))).
Proof.
  induction es as [|e es IH]; intros ms f bs Hload H.
  - inversion Hload; subst. simpl. now rewrite advance_0.
  - inversion Hload as [|? m ? ms' He Hes]; subst.
    destruct He as (Hflags & Hname & Hdesc & Hcount & Hn & Hd & Hstatic
                    & Hattrs & Hcode).
    change (concat (map encode_method (e :: es)))
      with (encode_method e ++ concat (map encode_method es)) in *.
    rewrite <- app_assoc in H.
    pose proof H as Hnext. apply ahead_app in Hnext as [_ Hnext].
    unfold encode_method in H. rewrite <- !app_assoc in H.
    cbn [length read_methods].
    rewrite (read_u2_encode _ _ _ Hflags H), bind_Ok. cbn beta iota.
    apply ahead_app in H as [_ H].
    change (Z.of_nat (length (encode_u2 _))) with 2 in H.
    rewrite (read_u2_encode _ _ _ Hname H), bind_Ok. cbn beta iota.
    apply ahead_app in H as [_ H].
    change (Z.of_nat (length (encode_u2 _))) with 2 in H.
    rewrite (read_u2_encode _ _ _ Hdesc H), bind_Ok. cbn beta iota.
    apply ahead_app in H as [_ H].
    change (Z.of_nat (length (encode_u2 _))) with 2 in H.
    rewrite (read_u2_encode _ _ _ Hcount H), bind_Ok. cbn beta iota.
    apply ahead_app in H as [_ H].
    change (Z.of_nat (length (encode_u2 _))) with 2 in H.
    rewrite !advance_advance in *. change (2 + (2 + (2 + 2))) with 8 in *.
    rewrite Hn, bind_Ok, Hd, bind_Ok.
    replace (strcmp_eq (name m) "<init>"
             || negb (Z.land (entry_flags e) IS_STATIC =? 0)) with true.
    2:{ symmetry. destruct Hstatic as [-> | Hs]; [reflexivity|].
        apply Z.eqb_neq in Hs. rewrite Hs. apply orb_true_r. }
    cbn [assert]. rewrite bind_Ok.
    rewrite (read_method_attributes_encode pool _ _ _ Hattrs H), Hcode.
    rewrite bind_Ok. cbn beta iota. rewrite advance_advance.
    rewrite <- encode_method_length.
    rewrite (IH ms' _ bs Hes Hnext), bind_Ok. cbn beta iota.
    rewrite advance_advance, length_app, Nat2Z.inj_add. now destruct m.
Qed.

Lemma get_methods_encode es ms f bs :
  is_u2 (Z.of_nat (length es)) →
  Forall2 (entry_loads_as pool) es ms →
  ahead f (encode_methods es ++ bs) →
  get_methods f pool
  = Ok (ms, advance f (Z.of_nat (length (encode_methods es)))).
Proof.
  intros Hcount Hload H. unfold get_methods, encode_methods in *.
  rewrite <- app_assoc in H.
  rewrite (read_u2_encode _ _ _ Hcount H), bind_Ok. cbn beta iota.
  apply ahead_app in H as [_ H].
  change (Z.of_nat (length (encode_u2 _))) with 2 in H.
  rewrite Nat2Z.id, (read_methods_encode es ms _ bs Hload H).
  rewrite advance_advance, length_app. simpl length. do 2 f_equal.
  f_equal. lia.
Qed.

End Methods.

(** X8.  Loading undoes the encoding of a method table.  When each entry of
    the file names Utf8 constants for its name and descriptor, is static or
    named [<init>], and has well-formed attributes with exactly one [Code]
    among them, [get_methods] returns the methods these entries describe
    (name, descriptor, [max_stack], [max_locals] and bytecode), in order,
    and leaves the position right after the table. *)
Theorem get_methods_round_trip :
  ∀ (pool : list cp_info) (es : list method_entry) (ms : list method_t)
    (f : FILE) (bs : list Z),
    is_u2 (Z.of_nat (length es)) →
    Forall2 (entry_loads_as pool) es ms →
    ahead f (encode_methods es ++ bs) →
    get_methods f pool
    = Ok (ms, advance f (Z.of_nat (length (encode_methods es)))).
Proof. intros. eapply get_methods_encode; eassumption. Qed.

(** X9.  The loader refuses a method that is not static, unless it is named
    [<init>]: when the next method of the file has a name constant other
    than [<init>] and access flags without the bit [0x0008], the loop fails
    its assertion, before it reads any attribute of that method. *)
Theorem read_methods_rejects_non_static :
  ∀ (pool : list cp_info) (f : FILE) (n : nat)
    (flags name_index descriptor_index count : Z)
    (name_info descriptor_info : string) (bs : list Z),
    is_u2 flags → is_u2 name_index → is_u2 descriptor_index → is_u2 count →
    ahead f (encode_u2 flags ++ encode_u2 name_index
             ++ encode_u2 descriptor_index ++ encode_u2 count ++ bs) →
    get_constant pool name_index = Ok (CONSTANT_Utf8 name_info) →
    get_constant pool descriptor_index = Ok (CONSTANT_Utf8 descriptor_info) →
    strcmp_eq name_info "<init>" = false →
    Z.land flags IS_STATIC = 0 →
    read_methods (S n) f pool = Fault AssertionFailed.
Proof.
  intros pool f n flags name_index descriptor_index count name_info
    descriptor_info bs Hflags Hname Hdesc Hcount H Hn Hd Hinit Hstatic.
  cbn [read_methods].
  rewrite (read_u2_encode _ _ _ Hflags H), bind_Ok. cbn beta iota.
  apply ahead_app in H as [_ H].
  change (Z.of_nat (length (encode_u2 _))) with 2 in H.
  rewrite (read_u2_encode _ _ _ Hname H), bind_Ok. cbn beta iota.
  apply ahead_app in H as [_ H].
  change (Z.of_nat (length (encode_u2 _))) with 2 in H.
  rewrite (read_u2_encode _ _ _ Hdesc H), bind_Ok. cbn beta iota.
  apply ahead_app in H as [_ H].
  change (Z.of_nat (length (encode_u2 _))) with 2 in H.
  rewrite (read_u2_encode _ _ _ Hcount H), bind_Ok. cbn beta iota.
  rewrite Hn, bind_Ok, Hd, bind_Ok, Hinit, Hstatic. reflexivity.
Qed.

(** ** The whole class file *)

Lemma get_class_header_encode f a b bs :
  is_u2 a → is_u2 b →
  ahead f (encode_u4 CLASS_MAGIC ++ encode_u2 a ++ encode_u2 b ++ bs) →
  get_class_header f = Ok (mk_header CLASS_MAGIC a b, advance f 8).
Proof.
  intros Ha Hb H. unfold get_class_header.
  assert (Hmagic : is_u4 CLASS_MAGIC) by (unfold is_u4, CLASS_MAGIC; lia).
  rewrite (read_u4_encode _ _ _ Hmagic H), bind_Ok. cbn beta iota.
  rewrite Z.eqb_refl. cbn [assert]. rewrite bind_Ok.
  apply ahead_app in H as [_ H].
  change (Z.of_nat (length (encode_u4 _))) with 4 in H.
  rewrite (read_u2_encode _ _ _ Ha H), bind_Ok. cbn beta iota.
  apply ahead_app in H as [_ H].
  change (Z.of_nat (length (encode_u2 _))) with 2 in H.
  rewrite (read_u2_encode _ _ _ Hb H), bind_Ok. cbn beta iota.
  rewrite !advance_advance. reflexivity.
Qed.

Lemma get_class_info_encode f info bs :
  is_u2 (access_flags info) → is_u2 (this_class info) →
  is_u2 (super_class info) →
  ahead f (encode_u2 (access_flags info) ++ encode_u2 (this_class info)
           ++ encode_u2 (super_class info) ++ encode_u2 0 ++ encode_u2 0
           ++ bs) →
  get_class_info f = Ok (info, advance f 10).
Proof.
  intros Ha Ht Hs H. unfold get_class_info.
  assert (H0 : is_u2 0) by (unfold is_u2; lia).
  rewrite (read_u2_encode _ _ _ Ha H), bind_Ok. cbn beta iota.
  apply ahead_app in H as [_ H].
  change (Z.of_nat (length (encode_u2 _))) with 2 in H.
  rewrite (read_u2_encode _ _ _ Ht H), bind_Ok. cbn beta iota.
  apply ahead_app in H as [_ H].
  change (Z.of_nat (length (encode_u2 _))) with 2 in H.
  rewrite (read_u2_encode _ _ _ Hs H), bind_Ok. cbn beta iota.
  apply ahead_app in H as [_ H].
  change (Z.of_nat (length (encode_u2 _))) with 2 in H.
  rewrite (read_u2_encode _ _ _ H0 H), bind_Ok. cbn beta iota.
  cbn [Z.eqb assert]. rewrite bind_Ok.
  apply ahead_app in H as [_ H].
  change (Z.of_nat (length (encode_u2 _))) with 2 in H.
  rewrite (read_u2_encode _ _ _ H0 H), bind_Ok. cbn beta iota.
  cbn [Z.eqb assert]. rewrite bind_Ok, !advance_advance. now destruct info.
Qed.

Lemma get_class_encode versions info pool es ms f bs :
  class_encodes versions info pool es ms →
  ahead f (encode_class versions info pool es ++ bs) →
  get_class f
  = Ok (mk_class pool ms,
        advance f (Z.of_nat (length (encode_class versions info pool es)))).
Proof.
  intros (Hv1 & Hv2 & Ha & Ht & Hs & Hlen & Hpool & Hcount & Hload) H.
  unfold get_class, encode_class in *. rewrite <- !app_assoc in H.
  rewrite (get_class_header_encode _ _ _ _ Hv1 Hv2 H), bind_Ok.
  cbn beta iota.
  apply (ahead_app _ (encode_u4 CLASS_MAGIC)) in H as [_ H].
  apply ahead_app in H as [_ H]. apply ahead_app in H as [_ H].
  change (Z.of_nat (length (encode_u4 _))) with 4 in H.
  change (Z.of_nat (length (encode_u2 _))) with 2 in H.
  rewrite !advance_advance in H. at_offset H 8.
  rewrite (get_constant_pool_encode _ _ _ Hlen Hpool H), bind_Ok.
  cbn beta iota. apply ahead_app in H as [_ H].
  rewrite (get_class_info_encode _ _ _ Ha Ht Hs H), bind_Ok.
  cbn beta iota.
  do 5 apply ahead_app in H as [_ H].
  change (Z.of_nat (length (encode_u2 _))) with 2 in H.
  rewrite !advance_advance in *.
  at_offset H (8 + Z.of_nat (length (encode_constant_pool pool)) + 10).
  match goal with
  | |- context [get_methods (advance f ?e)] =>
      replace e with (8 + Z.of_nat (length (encode_constant_pool pool)) + 10)
        by lia
  end.
  rewrite (get_methods_encode pool es ms _ bs Hcount Hload H), bind_Ok.
  cbn beta iota. rewrite advance_advance. do 2 f_equal. f_equal.
  rewrite !length_app. simpl length. lia.
Qed.

(** X10.  Loading undoes the encoding of a class file: on a file that
    holds the magic number, two version fields, the encoded constant pool,
    the class information with no interface and no field, and the encoded
    method table, [get_class] returns the class made of that pool and
    those methods, and leaves the position at the end of the encoding. *)
Theorem get_class_round_trip :
  ∀ (versions : Z * Z) (info : class_info_t) (pool : list cp_info)
    (es : list method_entry) (ms : list method_t) (f : FILE) (bs : list Z),
    class_encodes versions info pool es ms →
    ahead f (encode_class versions info pool es ++ bs) →
    get_class f
    = Ok (mk_class pool ms,
          advance f (Z.of_nat (length (encode_class versions info pool es)))).
Proof. intros. eapply get_class_encode; eassumption. Qed.

Lemma sample_class_encodes :
  class_encodes (0, 52) (mk_class_info 0x21 0 0) Sample.loader_pool
    Sample.second_entries (methods Sample.loaded_class).
Proof.
  unfold class_encodes. repeat split; try (unfold is_u2; simpl; lia).
  - repeat constructor; simpl; unfold is_u2; lia.
  - constructor; [|constructor; [|constructor]];
      (unfold entry_loads_as; repeat split; try (simpl; lia);
       [right; discriminate|solve_attributes]).
Defined.

Lemma get_class_round_trip_witness :
  get_class Sample.second_file
  = Ok (Sample.loaded_class,
        advance Sample.second_file
          (Z.of_nat (length (contents Sample.second_file)))).
Proof.
  apply (get_class_round_trip (0, 52) (mk_class_info 0x21 0 0)
           Sample.loader_pool Sample.second_entries
           (methods Sample.loaded_class) Sample.second_file []).
  - exact sample_class_encodes.
  - solve_ahead (@nil Z).
Defined.

Lemma get_methods_round_trip_witness :
  get_methods (mk_file (encode_methods Sample.second_entries) 0)
    Sample.loader_pool
  = Ok (methods Sample.loaded_class,
        advance (mk_file (encode_methods Sample.second_entries) 0)
          (Z.of_nat (length (encode_methods Sample.second_entries)))).
Proof.
  apply (get_methods_round_trip Sample.loader_pool Sample.second_entries
           (methods Sample.loaded_class)
           (mk_file (encode_methods Sample.second_entries) 0) []).
  - unfold is_u2. simpl. lia.
  - apply sample_class_encodes.
  - solve_ahead (@nil Z).
Defined.

Lemma read_methods_rejects_non_static_witness :
  read_methods 1 (mk_file [0; 1; 0; 5; 0; 6; 0; 0] 0) Sample.loader_pool
  = Fault AssertionFailed.
Proof.
  apply (read_methods_rejects_non_static Sample.loader_pool
           (mk_file [0; 1; 0; 5; 0; 6; 0; 0] 0) 0 1 5 6 0
           "main" Sample.main_descriptor []).
  - unfold is_u2. lia.
  - unfold is_u2. lia.
  - unfold is_u2. lia.
  - unfold is_u2. lia.
  - solve_ahead (@nil Z).
  - reflexivity.
  - reflexivity.
  - reflexivity.
  - reflexivity.
Defined.

(** ** The driver *)

(** X11.  The driver composes the loader and the interpreter.  On a file
    that encodes a class it fails its assertion when the class has no
    method [main] with the descriptor [([Ljava/lang/String;)V], before
    anything runs; otherwise it runs that method on locals that are all
    zero and on the empty heap, fails its assertion when [main] returns a
    value, and else prints exactly what the run printed. *)
Theorem jvm_main_loads_and_runs_main :
  ∀ (residue : nat → Z → Z) (fuel : nat) (versions : Z * Z)
    (info : class_info_t) (pool : list cp_info) (es : list method_entry)
    (ms : list method_t) (f : FILE) (bs : list Z),
    class_encodes versions info pool es ms →
    ahead f (encode_class versions info pool es ++ bs) →
    jvm_main residue fuel f
    = match find_method MAIN_METHOD MAIN_DESCRIPTOR ms with
      | None => Fault AssertionFailed
      | Some main_method =>
          '(r, w) ← execute residue fuel main_method
                      (replicate
                         (Z.to_nat (max_locals (method_code main_method))) 0)
                      (mk_class pool ms) (mk_world heap_init [] 0);
          if has_value r then Fault AssertionFailed else Ok (output w)
      end.
Proof.
  intros residue fuel versions info pool es ms f bs Hclass H.
  unfold jvm_main.
  rewrite (get_class_encode versions info pool es ms f bs Hclass H), bind_Ok.
  cbn beta iota. cbn [methods].
  destruct (find_method MAIN_METHOD MAIN_DESCRIPTOR ms) as [m|];
    [|reflexivity].
  destruct (execute _ _ _ _ _ _) as [[r w]|e]; [|reflexivity].
  rewrite bind_Ok. cbn beta iota. destruct r as [[|] v]; reflexivity.
Qed.

Lemma jvm_main_loads_and_runs_main_witness :
  jvm_main Sample.no_residue 7 Sample.second_file = Ok [9].
Proof.
  apply (jvm_main_loads_and_runs_main Sample.no_residue 7 (0, 52)
           (mk_class_info 0x21 0 0) Sample.loader_pool Sample.second_entries
           (methods Sample.loaded_class) Sample.second_file []).
  - exact sample_class_encodes.
  - solve_ahead (@nil Z).
Defined.

(** * Lookups in the class (read_class.c) *)

Lemma strcmp_eq_c_string a : ∀ b,
  strcmp_eq a b = true ↔ c_string a = c_string b.
Proof.
  induction a as [|x a IH]; intros [|y b]; cbn [strcmp_eq c_string].
  - tauto.
  - destruct (Ascii.eqb y NUL); split; (reflexivity || discriminate).
  - destruct (Ascii.eqb x NUL); split; (reflexivity || discriminate).
  - destruct (Ascii.eqb_spec x y) as [->|Hxy].
    + destruct (Ascii.eqb y NUL); [tauto|]. rewrite IH. split.
      * now intros ->.
      * now intros [= ->].
    + destruct (Ascii.eqb_spec x NUL) as [->|Hx];
        destruct (Ascii.eqb_spec y NUL) as [->|Hy];
        split; try discriminate; try congruence.
Qed.

Lemma find_method_test name0 descriptor0 m :
  strcmp_eq (name m) name0 && strcmp_eq (descriptor m) descriptor0 = true
  ↔ named name0 descriptor0 m.
Proof.
  unfold named. rewrite andb_true_iff, !strcmp_eq_c_string. tauto.
Qed.

(** X12.  [find_method] returns the first method of the table whose name and
    descriptor are, as C strings, the ones looked for, and the null pointer
    exactly when the table has no such method. *)
Theorem find_method_first_match :
  ∀ (name0 descriptor0 : string) (ms : list method_t),
    (∀ m, find_method name0 descriptor0 ms = Some m
          ↔ ∃ before after,
              ms = before ++ m :: after
              ∧ named name0 descriptor0 m
              ∧ Forall (fun m' => ¬ named name0 descriptor0 m') before)
    ∧ (find_method name0 descriptor0 ms = None
       ↔ Forall (fun m' => ¬ named name0 descriptor0 m') ms).
Proof.
  intros name0 descriptor0 ms. induction ms as [|m0 ms [IHsome IHnone]].
  - split.
    + intros m. split; [discriminate|].
      intros (before & after & Hms & _). now destruct before.
    + split; [constructor|reflexivity].
  - cbn [find_method].
    pose proof (find_method_test name0 descriptor0 m0) as Htest.
    destruct (strcmp_eq (name m0) name0
              && strcmp_eq (descriptor m0) descriptor0) eqn:Hb.
    + assert (Hm0 : named name0 descriptor0 m0) by now apply Htest.
      split.
      * intros m. split.
        -- intros [= <-]. exists [], ms. repeat split; try apply Hm0.
           constructor.
        -- intros (before & after & Hms & Hm & Hbefore).
           destruct before as [|m1 before]; simpl in Hms.
           ++ now injection Hms as -> _.
           ++ injection Hms as -> _. now inversion Hbefore.
      * split; [discriminate|]. intros H. now inversion H.
    + assert (Hm0 : ¬ named name0 descriptor0 m0).
      { intros H. apply Htest in H. discriminate. }
      split.
      * intros m. rewrite IHsome. split.
        -- intros (before & after & -> & Hm & Hbefore).
           exists (m0 :: before), after. repeat split; try apply Hm.
           now constructor.
        -- intros (before & after & Hms & Hm & Hbefore).
           destruct before as [|m1 before]; simpl in Hms.
           ++ injection Hms as -> _. contradiction.
           ++ injection Hms as _ ->. exists before, after.
              repeat split; try apply Hm. now inversion Hbefore.
      * rewrite IHnone. split.
        -- now constructor.
        -- intros H. now inversion H.
Qed.

Lemma get_constant_entry pool index :
  Z.of_nat (length pool) < 65536 →
  get_constant pool index
  = match entry pool index with
    | Some c => Ok c
    | None => Fault AssertionFailed
    end.
Proof.
  intros Hlen. unfold get_constant, entry, constant_pool_size.
  rewrite u2_small by lia.
  destruct (Z.ltb_spec 0 index); destruct (Z.leb_spec 1 index); try lia;
    [|reflexivity].
  destruct (Z.leb_spec index (Z.of_nat (length pool))); cbn [andb assert].
  - rewrite bind_Ok.
    destruct (lookup_lt_is_Some_2 pool (Z.to_nat (index - 1)) ltac:(lia))
      as [c Hc].
    rewrite Hc. apply array_get_ok; [lia|assumption].
  - rewrite lookup_ge_None_2 by lia. reflexivity.
Qed.

(** X13.  [get_constant] counts the entries of the pool from 1, and its
    assertion guards the access: an index from 1 to the size of the pool
    gives that entry, and every other index, 0 included, fails the
    assertion instead of reading outside the pool. *)
Theorem get_constant_checked :
  ∀ (pool : list cp_info) (index : Z),
    Z.of_nat (length pool) < 65536 →
    (1 <= index <= Z.of_nat (length pool) →
     ∃ c, pool !! Z.to_nat (index - 1) = Some c
          ∧ get_constant pool index = Ok c)
    ∧ (¬ 1 <= index <= Z.of_nat (length pool) →
       get_constant pool index = Fault AssertionFailed).
Proof.
  intros pool index Hlen. rewrite (get_constant_entry _ _ Hlen).
  unfold entry. split.
  - intros Hindex.
    destruct (lookup_lt_is_Some_2 pool (Z.to_nat (index - 1)) ltac:(lia))
      as [c Hc].
    exists c. split; [assumption|].
    destruct (Z.leb_spec 1 index); [|lia]. now rewrite Hc.
  - intros Hindex. destruct (Z.leb_spec 1 index); [|reflexivity].
    rewrite lookup_ge_None_2 by lia. reflexivity.
Qed.

Lemma get_constant_checked_witness :
  (1 <= 3 <= Z.of_nat (length (constant_pool Sample.second_class)) →
   ∃ c, constant_pool Sample.second_class !! Z.to_nat (3 - 1) = Some c
        ∧ get_constant (constant_pool Sample.second_class) 3 = Ok c)
  ∧ (¬ 1 <= 3 <= Z.of_nat (length (constant_pool Sample.second_class)) →
     get_constant (constant_pool Sample.second_class) 3
     = Fault AssertionFailed).
Proof.
  apply (get_constant_checked (constant_pool Sample.second_class) 3).
  simpl. lia.
Defined.

Lemma find_method_from_index_entry class index :
  Z.of_nat (length (constant_pool class)) < 65536 →
  find_method_from_index index class
  = match entry (constant_pool class) index with
    | Some (CONSTANT_Methodref _ name_and_type_index) =>
        match entry (constant_pool class) name_and_type_index with
        | Some (CONSTANT_NameAndType name_index descriptor_index) =>
            match entry (constant_pool class) name_index,
                  entry (constant_pool class) descriptor_index with
            | Some (CONSTANT_Utf8 name0), Some (CONSTANT_Utf8 descriptor0) =>
                Ok (find_method name0 descriptor0 (methods class))
            | _, _ => Fault AssertionFailed
            end
        | _ => Fault AssertionFailed
        end
    | _ => Fault AssertionFailed
    end.
Proof.
  intros Hlen. unfold find_method_from_index, get_method_name_and_type.
  rewrite !(get_constant_entry _ _ Hlen).
  destruct (entry (constant_pool class) index) as [[]|]; try reflexivity.
  rewrite bind_Ok, !(get_constant_entry _ _ Hlen).
  destruct (entry (constant_pool class) name_and_type_index) as [[]|];
    try reflexivity.
  rewrite !bind_Ok. cbn beta iota. rewrite !(get_constant_entry _ _ Hlen).
  destruct (entry (constant_pool class) name_index) as [[]|];
    try reflexivity.
  rewrite bind_Ok. rewrite ?(get_constant_entry _ _ Hlen).
  destruct (entry (constant_pool class) descriptor_index) as [[]|];
    reflexivity.
Qed.

(** X14.  [find_method_from_index] follows the method reference at the
    index to its name-and-type entry and on to the two strings, and looks
    the method up by them.  Every way in which this chain can be broken (an
    index outside the pool, an entry of another kind) fails an assertion:
    no index makes the lookup read outside the pool. *)
Theorem find_method_from_index_resolves :
  ∀ (class : class_file_t) (index : Z),
    Z.of_nat (length (constant_pool class)) < 65536 →
    (∀ name0 descriptor0,
       resolves (constant_pool class) index name0 descriptor0 →
       find_method_from_index index class
       = Ok (find_method name0 descriptor0 (methods class)))
    ∧ ((¬ ∃ name0 descriptor0,
            resolves (constant_pool class) index name0 descriptor0) →
       find_method_from_index index class = Fault AssertionFailed).
Proof.
  intros class index Hlen. rewrite (find_method_from_index_entry _ _ Hlen).
  split.
  - intros name0 descriptor0 (ci & nt & ni & di & -> & -> & -> & ->).
    reflexivity.
  - intros Hno.
    destruct (entry (constant_pool class) index) as [[]|] eqn:H1;
      try reflexivity.
    destruct (entry (constant_pool class) name_and_type_index) as [[]|]
      eqn:H2; try reflexivity.
    destruct (entry (constant_pool class) name_index) as [[]|] eqn:H3;
      try reflexivity.
    destruct (entry (constant_pool class) descriptor_index) as [[]|] eqn:H4;
      try reflexivity.
    exfalso. apply Hno. eexists _, _, _, _, _, _. eauto.
Qed.

Lemma find_method_from_index_resolves_witness :
  (∀ name0 descriptor0,
     resolves (constant_pool Sample.second_class) 1 name0 descriptor0 →
     find_method_from_index 1 Sample.second_class
     = Ok (find_method name0 descriptor0 (methods Sample.second_class)))
  ∧ ((¬ ∃ name0 descriptor0,
          resolves (constant_pool Sample.second_class) 1 name0 descriptor0) →
     find_method_from_index 1 Sample.second_class = Fault AssertionFailed).
Proof.
  apply (find_method_from_index_resolves Sample.second_class 1).
  simpl. lia.
Defined.

(** * More of the interpreter *)

Lemma int32_range x : Int.INT32_MIN <= Int.int32_t x <= Int.INT32_MAX.
Proof.
  unfold Int.int32_t, Int.wrap_signed, Int.INT32_MIN, Int.INT32_MAX.
  change (2 ^ (32 - 1)) with (2 ^ 31).
  pose proof (Z.mod_pos_bound (x + 2 ^ 31) (2 ^ 32)). lia.
Qed.

Lemma int32_congruent x : (Int.int32_t x - x) mod 2 ^ 32 = 0.
Proof.
  unfold Int.int32_t, Int.wrap_signed. change (2 ^ (32 - 1)) with (2 ^ 31).
  rewrite (Z.mod_eq (x + 2 ^ 31) (2 ^ 32)) by lia.
  replace (x + 2 ^ 31 - 2 ^ 32 * ((x + 2 ^ 31) / 2 ^ 32) - 2 ^ 31 - x)
    with (- ((x + 2 ^ 31) / 2 ^ 32) * 2 ^ 32) by lia.
  apply Z.mod_mul. lia.
Qed.

(** Fetching and decoding the instruction [i] that [Hat] says is at [pc]. *)
Ltac fetch i Hat :=
  unfold step; rewrite (bytecode_fetch _ _ _ _ Hat), bind_Ok;
  match goal with
  | |- context [decode ?x] => change (decode x) with (Some i)
  end;
  cbn [exec];
  rewrite ?(u4_pc _ _ _ 1 Hat) by (simpl; (discriminate || lia));
  rewrite ?(u4_pc _ _ _ _ Hat) by (simpl; (discriminate || lia)).

Section MoreSteps.

Variable residue : nat → Z → Z.
Variable class : class_file_t.
Variable method : method_t.
Variable call : method_t → list Z → world → result (optional_value_t * world).

Local Abbreviation step1 := (step residue class method call).

Lemma step_binary i f w value1 value2 :
  In i [i_iadd; i_isub; i_imul; i_idiv; i_irem; i_iand; i_ior; i_ixor] →
  at_pc method f [opcode i] → frame_ok f → on_top f [value1; value2] →
  step1 f w
  = (r ← perform_binary_operation value1 value2 i;
     Ok (Next (popped_pushed 2 f r (pc f + 1)) w)).
Proof.
  intros Hi Hat Hok Htop. pose proof Hok as [Hlen Hsp].
  pose proof Htop as [Hdepth _]. simpl in Hdepth.
  destruct (pop_two f value1 value2 Hok Htop) as [Hpop1 Hpop2].
  simpl in Hi.
  destruct Hi as [<-|[<-|[<-|[<-|[<-|[<-|[<-|[<-|[]]]]]]]]];
    match goal with
    | |- context [perform_binary_operation _ _ ?i] => fetch i Hat
    end;
    rewrite Hpop1, bind_Ok; cbn beta iota;
    rewrite Hpop2, bind_Ok; cbn beta iota;
    (destruct (perform_binary_operation _ _ _) as [r|e]; [|reflexivity]);
    rewrite !bind_Ok, push_ok by lia; rewrite bind_Ok;
    unfold popped_pushed, set_stack; simpl; repeat f_equal; lia.
Qed.

Lemma step_iushr f w v s :
  at_pc method f [0x7c] → frame_ok f → on_top f [v; s] →
  step1 f w
  = Ok (Next (popped_pushed 2 f
                (Int.int32_t (Z.shiftr (Int.u4 v) (s mod 32))) (pc f + 1)) w).
Proof.
  intros Hat Hok Htop. pose proof Hok as [Hlen Hsp].
  pose proof Htop as [Hdepth _]. simpl in Hdepth.
  destruct (pop_two f v s Hok Htop) as [Hpop1 Hpop2].
  fetch i_iushr Hat.
  rewrite Hpop1, bind_Ok. cbn beta iota.
  rewrite Hpop2, bind_Ok. cbn beta iota. unfold c_shru.
  destruct (shift_count_mod s) as [-> _].
  rewrite push_ok by lia. rewrite bind_Ok.
  unfold popped_pushed, set_stack. simpl. repeat f_equal; lia.
Qed.

Lemma step_iinc f w index b v :
  at_pc method f [0x84; index; b] →
  locals f !! Z.to_nat index = Some v →
  step1 f w
  = Ok (Next (mk_frame (operand_stack f) (stack_pointer f)
                (<[Z.to_nat index := Int.int32_t (v + sign_extend 8 b)]>
                   (locals f))
                (pc f + 3)) w).
Proof.
  intros Hat Hv.
  destruct (at_pc_lookup _ _ _ 1%nat index Hat eq_refl) as [_ Hi].
  destruct (at_pc_lookup _ _ _ 2%nat b Hat eq_refl) as [_ Hb].
  fetch i_iinc Hat.
  replace (pc f + 1 + 1) with (pc f + 2) by lia.
  rewrite ?(u4_pc _ _ _ _ Hat) by (simpl; (discriminate || lia)).
  replace (pc f + 2 + 1) with (pc f + 3) by lia.
  rewrite ?(u4_pc _ _ _ _ Hat) by (simpl; (discriminate || lia)).
  rewrite (bytecode_at _ _ _ 1 index Hat) by (lia || reflexivity).
  rewrite bind_Ok.
  rewrite (bytecode_at _ _ _ 2 b Hat) by (lia || reflexivity).
  rewrite bind_Ok. unfold is_byte in Hi.
  rewrite (array_get_ok _ _ v) by (lia || assumption). rewrite bind_Ok.
  pose proof (lookup_lt_Some _ _ _ Hv).
  rewrite array_set_ok by lia. rewrite bind_Ok.
  rewrite (u1_small b Hb), (int8_sign_extend b Hb). reflexivity.
Qed.

Lemma branch_offset_at f op b1 b2 :
  at_pc method f [op; b1; b2] →
  branch_offset method (pc f) = Ok (sign_extend 16 (256 * b1 + b2)).
Proof.
  intros Hat. unfold branch_offset.
  destruct (at_pc_lookup _ _ _ 1%nat b1 Hat eq_refl) as [_ Hb1].
  destruct (at_pc_lookup _ _ _ 2%nat b2 Hat eq_refl) as [_ Hb2].
  rewrite !(u4_pc _ _ _ _ Hat) by (simpl; (discriminate || lia)).
  rewrite (bytecode_at _ _ _ 1 b1 Hat) by (lia || reflexivity).
  rewrite bind_Ok.
  rewrite (bytecode_at _ _ _ 2 b2 Hat) by (lia || reflexivity).
  rewrite bind_Ok.
  destruct (big_endian_pair b1 b2 Hb1 Hb2) as [-> Hrange].
  rewrite u2_small by exact Hrange.
  now rewrite int16_sign_extend by exact Hrange.
Qed.

Lemma step_if i f w test v b1 b2 :
  unary_test i = Some test →
  at_pc method f [opcode i; b1; b2] → frame_ok f → on_top f [v] →
  step1 f w
  = Ok (Next (popped 1 f
                (if test v
                 then Int.u4 (pc f + sign_extend 16 (256 * b1 + b2))
                 else pc f + 3)) w).
Proof.
  intros Htest Hat Hok Htop. pose proof (pop_one f v Hok Htop) as Hpop.
  pose proof (branch_offset_at f _ b1 b2 Hat) as Hoff.
  destruct i; try discriminate Htest;
    match type of Htest with
    | unary_test ?i = _ => fetch i Hat
    end;
    rewrite Hoff, bind_Ok;
    unfold should_jump_based_on_instruction; rewrite Htest;
    rewrite Hpop, !bind_Ok; cbn beta iota; reflexivity.
Qed.

Lemma step_if_icmp i f w test value1 value2 b1 b2 :
  binary_test i = Some test →
  at_pc method f [opcode i; b1; b2] → frame_ok f →
  on_top f [value1; value2] →
  step1 f w
  = Ok (Next (popped 2 f
                (if test value1 value2
                 then Int.u4 (pc f + sign_extend 16 (256 * b1 + b2))
                 else pc f + 3)) w).
Proof.
  intros Htest Hat Hok Htop.
  destruct (pop_two f value1 value2 Hok Htop) as [Hpop1 Hpop2].
  pose proof (branch_offset_at f _ b1 b2 Hat) as Hoff.
  destruct i; try discriminate Htest;
    match type of Htest with
    | binary_test ?i = _ => fetch i Hat
    end;
    rewrite Hoff, bind_Ok;
    unfold should_jump_based_on_instruction; rewrite Htest;
    cbn [unary_test];
    rewrite Hpop1, !bind_Ok; cbn beta iota;
    rewrite Hpop2, !bind_Ok; cbn beta iota; reflexivity.
Qed.

Lemma step_goto f w b1 b2 :
  at_pc method f [0xa7; b1; b2] →
  step1 f w
  = Ok (Next (set_pc f (Int.u4 (pc f + sign_extend 16 (256 * b1 + b2)))) w).
Proof.
  intros Hat. pose proof (branch_offset_at f _ b1 b2 Hat) as Hoff.
  fetch i_goto Hat. rewrite Hoff, bind_Ok. reflexivity.
Qed.

Lemma step_store f w index v :
  at_pc method f [0x36; index] → frame_ok f → on_top f [v] →
  (Z.to_nat index < length (locals f))%nat →
  step1 f w
  = Ok (Next (mk_frame (operand_stack f) (stack_pointer f - 1)
                (<[Z.to_nat index := v]> (locals f)) (pc f + 2)) w).
Proof.
  intros Hat Hok Htop Hindex. pose proof (pop_one f v Hok Htop) as Hpop.
  destruct (at_pc_lookup _ _ _ 1%nat index Hat eq_refl) as [_ Hi].
  unfold is_byte in Hi.
  fetch i_istore Hat. replace (pc f + 1 + 1) with (pc f + 2) by lia.
  rewrite ?(u4_pc _ _ _ _ Hat) by (simpl; (discriminate || lia)).
  rewrite (bytecode_at _ _ _ 1 index Hat) by (lia || reflexivity).
  rewrite bind_Ok, Hpop, bind_Ok. cbn beta iota.
  rewrite array_set_ok by lia. rewrite bind_Ok. reflexivity.
Qed.

Lemma step_load f w index v :
  at_pc method f [0x15; index] → frame_ok f → has_room f →
  locals f !! Z.to_nat index = Some v →
  step1 f w = Ok (Next (popped_pushed 0 f v (pc f + 2)) w).
Proof.
  intros Hat [Hlen Hsp] Hroom Hv. unfold has_room in Hroom.
  destruct (at_pc_lookup _ _ _ 1%nat index Hat eq_refl) as [_ Hi].
  unfold is_byte in Hi.
  fetch i_iload Hat. replace (pc f + 1 + 1) with (pc f + 2) by lia.
  rewrite ?(u4_pc _ _ _ _ Hat) by (simpl; (discriminate || lia)).
  rewrite (bytecode_at _ _ _ 1 index Hat) by (lia || reflexivity).
  rewrite bind_Ok, (array_get_ok _ _ v) by (lia || assumption).
  rewrite bind_Ok, push_ok by lia. rewrite bind_Ok.
  unfold popped_pushed, set_stack. simpl. repeat f_equal; lia.
Qed.

Lemma step_invokevirtual f w v b1 b2 :
  at_pc method f [0xb6; b1; b2] → frame_ok f → on_top f [v] →
  step1 f w = Ok (Next (popped 1 f (pc f + 3)) (print w v)).
Proof.
  intros Hat Hok Htop. pose proof (pop_one f v Hok Htop) as Hpop.
  fetch i_invokevirtual Hat. rewrite Hpop, bind_Ok. reflexivity.
Qed.

Lemma step_getstatic f w b1 b2 :
  at_pc method f [0xb2; b1; b2] →
  step1 f w = Ok (Next (set_pc f (pc f + 3)) w).
Proof. intros Hat. fetch i_getstatic Hat. reflexivity. Qed.

Lemma step_ldc_Integer f w index v :
  at_pc method f [0x12; index] → frame_ok f → has_room f → 1 <= index →
  constant_pool class !! Z.to_nat (index - 1) = Some (CONSTANT_Integer v) →
  step1 f w = Ok (Next (popped_pushed 0 f v (pc f + 2)) w).
Proof.
  intros Hat [Hlen Hsp] Hroom Hindex Hc. unfold has_room in Hroom.
  fetch i_ldc Hat. replace (pc f + 1 + 1) with (pc f + 2) by lia.
  rewrite ?(u4_pc _ _ _ _ Hat) by (simpl; (discriminate || lia)).
  rewrite (bytecode_at _ _ _ 1 index Hat) by (lia || reflexivity).
  rewrite bind_Ok, (array_get_ok _ _ (CONSTANT_Integer v))
    by (lia || assumption).
  rewrite bind_Ok, push_ok by lia. rewrite bind_Ok.
  unfold popped_pushed, set_stack. simpl. repeat f_equal; lia.
Qed.

Lemma step_iconst i f w :
  In i [i_iconst_m1; i_iconst_0; i_iconst_1; i_iconst_2; i_iconst_3;
        i_iconst_4; i_iconst_5] →
  at_pc method f [opcode i] → frame_ok f → has_room f →
  step1 f w = Ok (Next (popped_pushed 0 f (opcode i - 3) (pc f + 1)) w).
Proof.
  intros Hi Hat [Hlen Hsp] Hroom. unfold has_room in Hroom. simpl in Hi.
  destruct Hi as [<-|[<-|[<-|[<-|[<-|[<-|[<-|[]]]]]]]];
    match goal with
    | |- context [opcode ?i - 3] => fetch i Hat
    end;
    rewrite push_ok by lia; rewrite bind_Ok;
    unfold popped_pushed, set_stack; simpl; repeat f_equal; lia.
Qed.

Lemma step_invokestatic_unresolved f w b1 b2 :
  at_pc method f [0xb8; b1; b2] →
  find_method_from_index (256 * b1 + b2) class = Ok None →
  step1 f w = Fault UndefinedBehaviour.
Proof.
  intros Hat Hfind.
  destruct (at_pc_lookup _ _ _ 1%nat b1 Hat eq_refl) as [_ Hb1].
  destruct (at_pc_lookup _ _ _ 2%nat b2 Hat eq_refl) as [_ Hb2].
  destruct (big_endian_pair b1 b2 Hb1 Hb2) as [Hpair Hrange].
  fetch i_invokestatic Hat.
  replace (pc f + 1 + 1) with (pc f + 2) by lia.
  rewrite ?(u4_pc _ _ _ _ Hat) by (simpl; (discriminate || lia)).
  rewrite (bytecode_at _ _ _ 1 b1 Hat) by (lia || reflexivity).
  rewrite bind_Ok.
  rewrite (bytecode_at _ _ _ 2 b2 Hat) by (lia || reflexivity).
  rewrite bind_Ok, Hpair, (u2_small _ Hrange), Hfind. reflexivity.
Qed.

End MoreSteps.

(** ** Arithmetic *)

(** X15.  [iadd], [isub] and [imul] pop the right operand first and the
    left operand second, and push the sum, the difference (left minus
    right) or the product, whenever that number is an [int32_t]. *)
Theorem arithmetic_exact_in_range :
  ∀ residue class method call (i : jvm_instruction_t) (op : Z → Z → Z)
    (f : frame) (w : world) (value1 value2 : Z),
    In (i, op) [(i_iadd, Z.add); (i_isub, Z.sub); (i_imul, Z.mul)] →
    at_pc method f [opcode i] → frame_ok f → on_top f [value1; value2] →
    in_int32 (op value1 value2) →
    step residue class method call f w
    = Ok (Next (popped_pushed 2 f (op value1 value2) (pc f + 1)) w).
Proof.
  intros residue class method call i op f w value1 value2 Hi Hat Hok Htop
    Hrange.
  unfold in_int32, Int.INT32_MIN, Int.INT32_MAX in Hrange.
  rewrite (step_binary residue class method call i f w value1 value2);
    try assumption.
  - simpl in Hi.
    destruct Hi as [[= <- <-]|[[= <- <-]|[[= <- <-]|[]]]];
      cbn [perform_binary_operation]; rewrite bind_Ok, int32_small;
      (reflexivity || lia).
  - simpl in Hi |- *.
    destruct Hi as [[= <- <-]|[[= <- <-]|[[= <- <-]|[]]]]; tauto.
Qed.

Lemma arithmetic_exact_in_range_witness :
  step Sample.no_residue (mk_class [] [Sample.arithmetic]) Sample.arithmetic
    Sample.no_call (mk_frame [10; 3] 1 [0] 0) Sample.empty_world
  = Ok (Next (mk_frame [7; 3] 0 [0] 1) Sample.empty_world).
Proof.
  apply (arithmetic_exact_in_range Sample.no_residue
           (mk_class [] [Sample.arithmetic]) Sample.arithmetic Sample.no_call
           i_isub Z.sub (mk_frame [10; 3] 1 [0] 0) Sample.empty_world 10 3).
  - right. left. reflexivity.
  - solve_at_pc.
  - solve_frame.
  - solve_frame.
  - unfold in_int32, Int.INT32_MIN, Int.INT32_MAX. simpl. lia.
Defined.

(** X16.  [idiv] and [irem], each wherever it occurs, divide the second
    cell from the top by the top one with C's operators and no check of
    the divisor: division by zero, and the division of [INT32_MIN] by -1,
    have no result.  Otherwise [idiv] pushes the quotient truncated toward
    zero and [irem] the remainder, which has the sign of the dividend. *)
Theorem division_truncates_unchecked :
  ∀ residue class method call (i : jvm_instruction_t) (op : Z → Z → Z)
    (f : frame) (w : world) (value1 value2 : Z),
    In (i, op) [(i_idiv, Z.quot); (i_irem, Z.rem)] →
    at_pc method f [opcode i] → frame_ok f → on_top f [value1; value2] →
    step residue class method call f w
    = if (value2 =? 0) || ((value1 =? Int.INT32_MIN) && (value2 =? -1))
      then Fault UndefinedBehaviour
      else Ok (Next (popped_pushed 2 f (op value1 value2) (pc f + 1)) w).
Proof.
  intros residue class method call i op f w value1 value2 Hi Hat Hok Htop.
  rewrite (step_binary residue class method call i f w value1 value2);
    try assumption.
  - simpl in Hi.
    destruct Hi as [[= <- <-]|[[= <- <-]|[]]];
      cbn [perform_binary_operation]; unfold c_div, c_rem;
      destruct ((value2 =? 0)
                || ((value1 =? Int.INT32_MIN) && (value2 =? -1)));
      reflexivity.
  - simpl in Hi |- *. destruct Hi as [[= <- <-]|[[= <- <-]|[]]]; tauto.
Qed.

(** -7 / 2 is -3 and -7 % 2 is -1; 1 / 0 has no result. *)
Lemma division_truncates_unchecked_witness :
  step Sample.no_residue (mk_class [] [Sample.arithmetic]) Sample.arithmetic
    Sample.no_call (mk_frame [-7; 2] 1 [0] 1) Sample.empty_world
  = Ok (Next (mk_frame [-3; 2] 0 [0] 2) Sample.empty_world)
  ∧ step Sample.no_residue (mk_class [] [Sample.arithmetic])
      Sample.arithmetic Sample.no_call (mk_frame [-7; 2] 1 [0] 2)
      Sample.empty_world
    = Ok (Next (mk_frame [-1; 2] 0 [0] 3) Sample.empty_world)
  ∧ step Sample.no_residue (mk_class [] [Sample.arithmetic])
      Sample.arithmetic Sample.no_call (mk_frame [1; 0] 1 [0] 1)
      Sample.empty_world
    = Fault UndefinedBehaviour.
Proof.
  split; [|split].
  - apply (division_truncates_unchecked Sample.no_residue
             (mk_class [] [Sample.arithmetic]) Sample.arithmetic
             Sample.no_call i_idiv Z.quot (mk_frame [-7; 2] 1 [0] 1)
             Sample.empty_world (-7) 2);
      [left; reflexivity|solve_at_pc|solve_frame|solve_frame].
  - apply (division_truncates_unchecked Sample.no_residue
             (mk_class [] [Sample.arithmetic]) Sample.arithmetic
             Sample.no_call i_irem Z.rem (mk_frame [-7; 2] 1 [0] 2)
             Sample.empty_world (-7) 2);
      [right; left; reflexivity|solve_at_pc|solve_frame|solve_frame].
  - apply (division_truncates_unchecked Sample.no_residue
             (mk_class [] [Sample.arithmetic]) Sample.arithmetic
             Sample.no_call i_idiv Z.quot (mk_frame [1; 0] 1 [0] 1)
             Sample.empty_world 1 0);
      [left; reflexivity|solve_at_pc|solve_frame|solve_frame].
Defined.

Lemma logical_shift_bound v s :
  1 <= s < 32 → 0 <= (v mod 2 ^ 32) / 2 ^ s < 2 ^ (32 - s).
Proof.
  intros Hs. pose proof (Z.mod_pos_bound v (2 ^ 32) ltac:(lia)) as Hv.
  assert (Hpow : 2 ^ 32 = 2 ^ s * 2 ^ (32 - s)).
  { rewrite <- Z.pow_add_r by lia. f_equal. lia. }
  assert (0 < 2 ^ s) by (apply Z.pow_pos_nonneg; lia).
  split.
  - apply Z.div_pos; lia.
  - apply Z.div_lt_upper_bound; [lia|]. rewrite <- Hpow. lia.
Qed.

(** X17.  [iushr] shifts the 32-bit pattern of the value to the right by
    the low 5 bits of the amount and fills with zeros: when the amount
    modulo 32 is not 0 it pushes the unsigned reading of the value divided
    by that power of two, which is never negative; when it is 0 it pushes
    the value back. *)
Theorem iushr_shifts_in_zeros :
  ∀ residue class method call (f : frame) (w : world) (v s : Z),
    at_pc method f [0x7c] → frame_ok f → on_top f [v; s] → in_int32 v →
    step residue class method call f w
    = Ok (Next (popped_pushed 2 f
                  (if s mod 32 =? 0 then v
                   else (v mod 2 ^ 32) / 2 ^ (s mod 32)) (pc f + 1)) w)
    ∧ (s mod 32 ≠ 0 →
       0 <= (v mod 2 ^ 32) / 2 ^ (s mod 32) < 2 ^ (32 - s mod 32)).
Proof.
  intros residue class method call f w v s Hat Hok Htop Hv.
  rewrite (step_iushr residue class method call f w v s Hat Hok Htop).
  pose proof (Z.mod_pos_bound s 32 ltac:(lia)) as Hm.
  split.
  - destruct (Z.eqb_spec (s mod 32) 0) as [->|Hne].
    + rewrite Z.shiftr_0_r. now destruct (int32_of_u4 v Hv) as [_ ->].
    + rewrite Z.shiftr_div_pow2 by lia.
      pose proof (logical_shift_bound v (s mod 32) ltac:(lia)) as Hb.
      assert (2 ^ (32 - s mod 32) <= 2 ^ 31)
        by (apply Z.pow_le_mono_r; lia).
      unfold Int.u4, Int.wrap_unsigned. rewrite int32_small by lia.
      reflexivity.
  - intros Hne. apply logical_shift_bound. lia.
Qed.

Lemma iushr_shifts_in_zeros_witness :
  step Sample.no_residue (mk_class [] [Sample.arithmetic]) Sample.arithmetic
    Sample.no_call (mk_frame [-1; 33] 1 [0] 3) Sample.empty_world
  = Ok (Next (mk_frame [2147483647; 33] 0 [0] 4) Sample.empty_world)
  ∧ (33 mod 32 ≠ 0 →
     0 <= (-1 mod 2 ^ 32) / 2 ^ (33 mod 32) < 2 ^ (32 - 33 mod 32)).
Proof.
  apply (iushr_shifts_in_zeros Sample.no_residue
           (mk_class [] [Sample.arithmetic]) Sample.arithmetic Sample.no_call
           (mk_frame [-1; 33] 1 [0] 3) Sample.empty_world (-1) 33).
  - solve_at_pc.
  - solve_frame.
  - solve_frame.
  - unfold in_int32, Int.INT32_MIN, Int.INT32_MAX. simpl. lia.
Defined.

(** X18.  [iinc] adds its second operand byte, read as a signed 8-bit
    number, to the local variable its first operand byte selects, and
    touches neither the operand stack nor the stack pointer; [pc] advances
    by 3.  The sum is required to be an [int32_t]. *)
Theorem iinc_adds_signed_byte :
  ∀ residue class method call (f : frame) (w : world) (index b v : Z),
    at_pc method f [0x84; index; b] →
    locals f !! Z.to_nat index = Some v →
    in_int32 (v + sign_extend 8 b) →
    step residue class method call f w
    = Ok (Next (mk_frame (operand_stack f) (stack_pointer f)
                  (<[Z.to_nat index := v + sign_extend 8 b]> (locals f))
                  (pc f + 3)) w).
Proof.
  intros residue class method call f w index b v Hat Hv Hrange.
  unfold in_int32, Int.INT32_MIN, Int.INT32_MAX in Hrange.
  rewrite (step_iinc residue class method call f w index b v Hat Hv).
  rewrite int32_small by lia. reflexivity.
Qed.

Lemma iinc_adds_signed_byte_witness :
  step Sample.no_residue (mk_class [] [Sample.arithmetic]) Sample.arithmetic
    Sample.no_call (mk_frame [0; 0] (-1) [10] 4) Sample.empty_world
  = Ok (Next (mk_frame [0; 0] (-1) [7] 7) Sample.empty_world).
Proof.
  apply (iinc_adds_signed_byte Sample.no_residue
           (mk_class [] [Sample.arithmetic]) Sample.arithmetic Sample.no_call
           (mk_frame [0; 0] (-1) [10] 4) Sample.empty_world 0 0xFD 10).
  - solve_at_pc.
  - reflexivity.
  - unfold in_int32, Int.INT32_MIN, Int.INT32_MAX, sign_extend. simpl. lia.
Defined.

(** ** Branches *)

(** X19.  A conditional branch, wherever it occurs, reads its two operand
    bytes, high byte first, as a signed 16-bit offset from the address of
    its own opcode.  [ifeq], [ifne], [iflt], [ifge], [ifgt], [ifle] pop one
    cell [v] and test [v = 0], [v <> 0], [v < 0], [v >= 0], [v > 0],
    [v <= 0]; the [if_icmp] forms pop two cells and test the same
    relations between the second cell from the top (left) and the top one
    (right).  When the test holds [pc] becomes [pc] plus the offset,
    reduced modulo 2^32, otherwise [pc + 3]; nothing else changes. *)
Theorem conditional_branches :
  (∀ residue class method call (i : jvm_instruction_t) (test : Z → bool)
     (f : frame) (w : world) (v b1 b2 : Z),
     In (i, test)
       [ (i_ifeq, fun v => v =? 0); (i_ifne, fun v => negb (v =? 0));
         (i_iflt, fun v => v <? 0); (i_ifge, fun v => v >=? 0);
         (i_ifgt, fun v => v >? 0); (i_ifle, fun v => v <=? 0) ] →
     at_pc method f [opcode i; b1; b2] → frame_ok f → on_top f [v] →
     step residue class method call f w
     = Ok (Next (popped 1 f
                   (if test v
                    then Int.u4 (pc f + sign_extend 16 (256 * b1 + b2))
                    else pc f + 3)) w))
  ∧ (∀ residue class method call (i : jvm_instruction_t)
       (test : Z → Z → bool) (g : frame) (w : world)
       (value1 value2 b1 b2 : Z),
       In (i, test)
         [ (i_if_icmpeq, fun a b => a =? b);
           (i_if_icmpne, fun a b => negb (a =? b));
           (i_if_icmplt, fun a b => a <? b);
           (i_if_icmpge, fun a b => a >=? b);
           (i_if_icmpgt, fun a b => a >? b);
           (i_if_icmple, fun a b => a <=? b) ] →
       at_pc method g [opcode i; b1; b2] → frame_ok g →
       on_top g [value1; value2] →
       step residue class method call g w
       = Ok (Next (popped 2 g
                     (if test value1 value2
                      then Int.u4 (pc g + sign_extend 16 (256 * b1 + b2))
                      else pc g + 3)) w)).
Proof.
  split.
  - intros residue class method call i test f w v b1 b2 Hi Hat Hok Htop.
    simpl in Hi.
    destruct Hi
      as [[= <- <-]|[[= <- <-]|[[= <- <-]|[[= <- <-]|[[= <- <-]|
          [[= <- <-]|[]]]]]]];
      match type of Hat with
      | at_pc _ _ [opcode ?i; _; _] =>
          rewrite (step_if residue class method call i f w _ v b1 b2 eq_refl
                     Hat Hok Htop)
      end;
      rewrite ?Z.geb_leb, ?Z.gtb_ltb; reflexivity.
  - intros residue class method call i test g w value1 value2 b1 b2 Hi Hat
      Hok Htop.
    simpl in Hi.
    destruct Hi
      as [[= <- <-]|[[= <- <-]|[[= <- <-]|[[= <- <-]|[[= <- <-]|
          [[= <- <-]|[]]]]]]];
      match type of Hat with
      | at_pc _ _ [opcode ?i; _; _] =>
          rewrite (step_if_icmp residue class method call i g w _
                     value1 value2 b1 b2 eq_refl Hat Hok Htop)
      end;
      rewrite ?Z.geb_leb, ?Z.gtb_ltb; reflexivity.
Qed.

(** [iflt -2] on 5 falls through and on -5 goes back by 2 (modulo 2^32);
    [if_icmplt +5] on 1 and 2 jumps, on 2 and 1 falls through. *)
Lemma conditional_branches_witness :
  step Sample.no_residue (mk_class [] [Sample.branches]) Sample.branches
    Sample.no_call (mk_frame [5; 0] 0 [0] 0) Sample.empty_world
  = Ok (Next (mk_frame [5; 0] (-1) [0] 3) Sample.empty_world)
  ∧ step Sample.no_residue (mk_class [] [Sample.branches]) Sample.branches
      Sample.no_call (mk_frame [-5; 0] 0 [0] 0) Sample.empty_world
    = Ok (Next (mk_frame [-5; 0] (-1) [0] 4294967294) Sample.empty_world)
  ∧ step Sample.no_residue (mk_class [] [Sample.branches]) Sample.branches
      Sample.no_call (mk_frame [1; 2] 1 [0] 3) Sample.empty_world
    = Ok (Next (mk_frame [1; 2] (-1) [0] 8) Sample.empty_world)
  ∧ step Sample.no_residue (mk_class [] [Sample.branches]) Sample.branches
      Sample.no_call (mk_frame [2; 1] 1 [0] 3) Sample.empty_world
    = Ok (Next (mk_frame [2; 1] (-1) [0] 6) Sample.empty_world).
Proof.
  destruct conditional_branches as [Hif Hicmp].
  split; [|split; [|split]].
  - apply (Hif Sample.no_residue (mk_class [] [Sample.branches])
             Sample.branches Sample.no_call i_iflt (fun v => v <? 0)
             (mk_frame [5; 0] 0 [0] 0) Sample.empty_world 5 0xFF 0xFE);
      [simpl; tauto|solve_at_pc|solve_frame|solve_frame].
  - apply (Hif Sample.no_residue (mk_class [] [Sample.branches])
             Sample.branches Sample.no_call i_iflt (fun v => v <? 0)
             (mk_frame [-5; 0] 0 [0] 0) Sample.empty_world (-5) 0xFF 0xFE);
      [simpl; tauto|solve_at_pc|solve_frame|solve_frame].
  - apply (Hicmp Sample.no_residue (mk_class [] [Sample.branches])
             Sample.branches Sample.no_call i_if_icmplt (fun a b => a <? b)
             (mk_frame [1; 2] 1 [0] 3) Sample.empty_world 1 2 0 5);
      [simpl; tauto|solve_at_pc|solve_frame|solve_frame].
  - apply (Hicmp Sample.no_residue (mk_class [] [Sample.branches])
             Sample.branches Sample.no_call i_if_icmplt (fun a b => a <? b)
             (mk_frame [2; 1] 1 [0] 3) Sample.empty_world 2 1 0 5);
      [simpl; tauto|solve_at_pc|solve_frame|solve_frame].
Defined.

Lemma u4_negative x : - 2 ^ 32 <= x < 0 → Int.u4 x = 2 ^ 32 + x.
Proof.
  intros Hx. unfold Int.u4, Int.wrap_unsigned.
  rewrite <- (Z_mod_plus_full x 1 (2 ^ 32)).
  replace (x + 1 * 2 ^ 32) with (2 ^ 32 + x) by lia.
  apply Z.mod_small. lia.
Qed.

(** X20.  [goto] adds the signed 16-bit offset to the address of its
    opcode, modulo 2^32, and checks nothing: a target at or past the end
    of the code makes the loop condition fail, so that [execute] returns
    void with the world as it is; a target before the start of the code
    wraps around to one just below 2^32. *)
Theorem goto_out_of_code_returns_void :
  ∀ residue class method call (f : frame) (w : world) (b1 b2 : Z),
    at_pc method f [0xa7; b1; b2] →
    let offset := sign_extend 16 (256 * b1 + b2) in
    step residue class method call f w
    = Ok (Next (set_pc f (Int.u4 (pc f + offset))) w)
    ∧ (code_length (method_code method) <= Int.u4 (pc f + offset) →
       ∀ fuel,
         run residue (S (S fuel)) class method f w = Ok (void_result, w))
    ∧ (pc f + offset < 0 → Int.u4 (pc f + offset) = 2 ^ 32 + (pc f + offset)).
Proof.
  intros residue class method call f w b1 b2 Hat offset.
  pose proof (at_pc_bound _ _ _ Hat ltac:(discriminate)) as Hbound.
  simpl in Hbound. pose proof Hat as (Hpc & _).
  destruct (at_pc_lookup _ _ _ 1%nat b1 Hat eq_refl) as [_ Hb1].
  destruct (at_pc_lookup _ _ _ 2%nat b2 Hat eq_refl) as [_ Hb2].
  unfold is_byte in Hb1, Hb2.
  pose proof (sign_extend_16_range (256 * b1 + b2) ltac:(lia)) as Hoff.
  fold offset in Hoff.
  repeat split.
  - now apply step_goto.
  - intros Hout fuel. cbn [run].
    destruct (Z.ltb_spec (pc f) (code_length (method_code method))); [|lia].
    rewrite (step_goto residue class method _ f w b1 b2 Hat).
    rewrite bind_Ok. cbn [set_pc pc].
    fold offset.
    destruct (Z.ltb_spec (Int.u4 (pc f + offset))
                (code_length (method_code method))); [lia|reflexivity].
  - intros Hneg. apply u4_negative. lia.
Qed.

Lemma goto_out_of_code_returns_void_witness :
  step Sample.no_residue (mk_class [] [Sample.branches]) Sample.branches
    Sample.no_call (mk_frame [0; 0] (-1) [0] 6) Sample.empty_world
  = Ok (Next (mk_frame [0; 0] (-1) [0] 32518) Sample.empty_world)
  ∧ (10 <= 32518 →
     ∀ fuel,
       run Sample.no_residue (S (S fuel)) (mk_class [] [Sample.branches])
         Sample.branches (mk_frame [0; 0] (-1) [0] 6) Sample.empty_world
       = Ok (void_result, Sample.empty_world))
  ∧ (6 + 32512 < 0 → 32518 = 2 ^ 32 + (6 + 32512)).
Proof.
  apply (goto_out_of_code_returns_void Sample.no_residue
           (mk_class [] [Sample.branches]) Sample.branches Sample.no_call
           (mk_frame [0; 0] (-1) [0] 6) Sample.empty_world 0x7F 0).
  solve_at_pc.
Defined.

(** ** Locals, printing, constants *)

Lemma at_pc_prefix method f a b :
  at_pc method f (a ++ b) → at_pc method f a.
Proof.
  intros (Hpc & Hlen & Hbs & Hbytes). repeat split; try assumption.
  - apply (f_equal (take (length a))) in Hbs.
    rewrite take_take, length_app in Hbs.
    rewrite Nat.min_l in Hbs by lia. now rewrite take_app_length in Hbs.
  - now apply Forall_app in Hbytes as [? _].
Qed.

Lemma at_pc_skip method f f' a b :
  at_pc method f (a ++ b) → pc f' = pc f + Z.of_nat (length a) →
  at_pc method f' b.
Proof.
  intros (Hpc & Hlen & Hbs & Hbytes) Hpc'. repeat split; try assumption.
  - lia.
  - apply (f_equal (drop (length a))) in Hbs.
    rewrite drop_app_length, length_app, <- take_drop_commute, drop_drop
      in Hbs.
    rewrite Hpc'.
    now replace (Z.to_nat (pc f + Z.of_nat (length a)))
      with (Z.to_nat (pc f) + length a)%nat by lia.
  - now apply Forall_app in Hbytes as [_ ?].
Qed.

(** X21.  [istore] followed by [iload] of the same local is a round trip:
    the value on top of the stack is in the local afterwards, and the
    operand stack and the stack pointer are again what they were. *)
Theorem istore_iload_round_trip :
  ∀ residue class method call (f : frame) (w : world) (index v : Z),
    at_pc method f [0x36; index; 0x15; index] → frame_ok f →
    on_top f [v] → (Z.to_nat index < length (locals f))%nat →
    ∃ f1,
      step residue class method call f w = Ok (Next f1 w)
      ∧ step residue class method call f1 w
        = Ok (Next (mk_frame (operand_stack f) (stack_pointer f)
                      (<[Z.to_nat index := v]> (locals f)) (pc f + 4)) w).
Proof.
  intros residue class method call f w index v Hat Hok Htop Hindex.
  pose proof Hok as [Hlen Hsp]. pose proof Htop as [Hdepth _].
  simpl in Hdepth.
  pose proof (on_top_lookup f [v] 0 v Htop eq_refl) as Hv.
  replace (Z.to_nat (stack_pointer f + 1 - Z.of_nat (length [v]) + Z.of_nat 0))
    with (Z.to_nat (stack_pointer f)) in Hv by (simpl; lia).
  set (f1 := mk_frame (operand_stack f) (stack_pointer f - 1)
               (<[Z.to_nat index := v]> (locals f)) (pc f + 2)).
  exists f1. split.
  - apply step_store; try assumption.
    now apply (at_pc_prefix method f [0x36; index] [0x15; index]).
  - rewrite (step_load residue class method call f1 w index v).
    + unfold popped_pushed, f1. cbn [operand_stack stack_pointer locals pc].
      replace (stack_pointer f - 1 - Z.of_nat 0 + 1) with (stack_pointer f)
        by lia.
      rewrite list_insert_id by assumption.
      do 3 f_equal. lia.
    + now apply (at_pc_skip method f f1 [0x36; index] [0x15; index]).
    + split; simpl; lia.
    + unfold has_room. simpl. lia.
    + apply list_lookup_insert_eq. assumption.
Qed.

Lemma istore_iload_round_trip_witness :
  ∃ f1,
    step Sample.no_residue (mk_class [] [Sample.store_load])
      Sample.store_load Sample.no_call (mk_frame [8] 0 [0; 0] 0)
      Sample.empty_world
    = Ok (Next f1 Sample.empty_world)
    ∧ step Sample.no_residue (mk_class [] [Sample.store_load])
        Sample.store_load Sample.no_call f1 Sample.empty_world
      = Ok (Next (mk_frame [8] 0 [0; 8] 4) Sample.empty_world).
Proof.
  apply (istore_iload_round_trip Sample.no_residue
           (mk_class [] [Sample.store_load]) Sample.store_load Sample.no_call
           (mk_frame [8] 0 [0; 0] 0) Sample.empty_world 1 8).
  - solve_at_pc.
  - solve_frame.
  - solve_frame.
  - simpl. lia.
Defined.

(** X22.  Printing.  [getstatic], wherever it occurs, only skips its
    operand bytes: it pushes nothing.  [invokevirtual], wherever it occurs,
    pops one cell and appends it to the output as one line, whatever method
    its operand bytes refer to; it looks no method up and changes neither
    the heap nor the locals. *)
Theorem getstatic_invokevirtual_print :
  (∀ residue class method call (f : frame) (w : world) (b1 b2 : Z),
     at_pc method f [0xb2; b1; b2] →
     step residue class method call f w = Ok (Next (set_pc f (pc f + 3)) w))
  ∧ (∀ residue class method call (g : frame) (w : world) (c1 c2 v : Z),
       at_pc method g [0xb6; c1; c2] → frame_ok g → on_top g [v] →
       step residue class method call g w
       = Ok (Next (popped 1 g (pc g + 3))
               (mk_world (heap w) (output w ++ [v]) (frames w)))).
Proof.
  split.
  - intros. now apply step_getstatic with b1 b2.
  - intros. now apply step_invokevirtual with c1 c2.
Qed.

(** [getstatic] in [Sample.println], and [invokevirtual] in [Sample.hello],
    a method that has no [getstatic]. *)
Lemma getstatic_invokevirtual_print_witness :
  step Sample.no_residue (mk_class [] [Sample.println]) Sample.println
    Sample.no_call (mk_frame [0] (-1) [0] 0) Sample.empty_world
  = Ok (Next (mk_frame [0] (-1) [0] 3) Sample.empty_world)
  ∧ step Sample.no_residue (mk_class [] [Sample.hello]) Sample.hello
      Sample.no_call (mk_frame [42] 0 [0] 2) Sample.empty_world
    = Ok (Next (mk_frame [42] (-1) [0] 5) (mk_world heap_init [42] 0)).
Proof.
  destruct getstatic_invokevirtual_print as [Hgetstatic Hinvokevirtual].
  split.
  - apply (Hgetstatic Sample.no_residue (mk_class [] [Sample.println])
             Sample.println Sample.no_call (mk_frame [0] (-1) [0] 0)
             Sample.empty_world 0 2).
    solve_at_pc.
  - apply (Hinvokevirtual Sample.no_residue (mk_class [] [Sample.hello])
             Sample.hello Sample.no_call (mk_frame [42] 0 [0] 2)
             Sample.empty_world 0 0 42);
      [solve_at_pc|solve_frame|solve_frame].
Defined.

(** X23.  [ldc], wherever it occurs, takes entry [index] of the constant
    pool, counted from 1, where [index] is its one operand byte, and
    pushes the value of an Integer entry; [pc] advances by 2 and nothing
    else changes. *)
Theorem ldc_Integer_pushes_value :
  ∀ residue class method call (f : frame) (w : world) (index v : Z),
    at_pc method f [0x12; index] → frame_ok f → has_room f →
    entry (constant_pool class) index = Some (CONSTANT_Integer v) →
    step residue class method call f w
    = Ok (Next (popped_pushed 0 f v (pc f + 2)) w).
Proof.
  intros residue class method call f w index v Hat Hok Hroom Hv.
  unfold entry in Hv. destruct (Z.leb_spec 1 index); [|discriminate].
  now apply step_ldc_Integer with index.
Qed.

Lemma ldc_Integer_pushes_value_witness :
  step Sample.no_residue Sample.ldc_int_class Sample.ldc_int Sample.no_call
    (mk_frame [0; 0] (-1) [0] 0) Sample.empty_world
  = Ok (Next (mk_frame [100000; 0] 0 [0] 2) Sample.empty_world).
Proof.
  apply (ldc_Integer_pushes_value Sample.no_residue Sample.ldc_int_class
           Sample.ldc_int Sample.no_call (mk_frame [0; 0] (-1) [0] 0)
           Sample.empty_world 1 100000).
  - solve_at_pc.
  - solve_frame.
  - solve_frame.
  - reflexivity.
Defined.

(** ** Invocation of a method the class does not have *)

Lemma find_method_none name0 descriptor0 ms :
  Forall (fun m => ¬ named name0 descriptor0 m) ms →
  find_method name0 descriptor0 ms = None.
Proof.
  induction 1 as [|m ms Hm _ IH]; [reflexivity|]. cbn [find_method].
  destruct (strcmp_eq (name m) name0
            && strcmp_eq (descriptor m) descriptor0) eqn:Hb; [|exact IH].
  apply find_method_test in Hb. contradiction.
Qed.

(** X24.  [invokestatic] does not check what the lookup of the method
    returns.  When the constant-pool index resolves to a name and a
    descriptor that no method of the class has, the lookup returns the null
    pointer, which is then dereferenced: the step has no defined result. *)
Theorem invokestatic_unresolved_is_undefined :
  ∀ residue class method call (f : frame) (w : world) (b1 b2 : Z)
    (name0 descriptor0 : string),
    at_pc method f [0xb8; b1; b2] →
    Z.of_nat (length (constant_pool class)) < 65536 →
    resolves (constant_pool class) (256 * b1 + b2) name0 descriptor0 →
    Forall (fun m => ¬ named name0 descriptor0 m) (methods class) →
    step residue class method call f w = Fault UndefinedBehaviour.
Proof.
  intros residue class method call f w b1 b2 name0 descriptor0 Hat Hlen
    (ci & nt & ni & di & H1 & H2 & H3 & H4) Hnone.
  apply step_invokestatic_unresolved with b1 b2; [assumption|].
  rewrite (find_method_from_index_entry _ _ Hlen), H1, H2, H3, H4.
  now rewrite find_method_none.
Qed.

Lemma invokestatic_unresolved_is_undefined_witness :
  step Sample.no_residue Sample.absent_class Sample.call_absent
    Sample.no_call (mk_frame [0] (-1) [0] 0) Sample.empty_world
  = Fault UndefinedBehaviour.
Proof.
  apply (invokestatic_unresolved_is_undefined Sample.no_residue
           Sample.absent_class Sample.call_absent Sample.no_call
           (mk_frame [0] (-1) [0] 0) Sample.empty_world 0 1 "absent" "()V").
  - solve_at_pc.
  - simpl. lia.
  - exists 0, 2, 3, 4. repeat split; reflexivity.
  - constructor; [|constructor]. intros [H _]. discriminate H.
Defined.

(** * Invariants of the interpreter *)

Lemma array_get_inv {A : Type} (a : list A) (i : Z) (v : A) :
  array_get a i = Ok v →
  0 <= i < Z.of_nat (length a) ∧ a !! Z.to_nat i = Some v.
Proof.
  unfold array_get. destruct (Z.leb_spec 0 i); [|discriminate].
  destruct (Z.ltb_spec i (Z.of_nat (length a))); [|discriminate].
  cbn [andb]. destruct (a !! Z.to_nat i) as [x|]; [|discriminate].
  intros [= ->]. split; [lia|reflexivity].
Qed.

Lemma array_set_inv {A : Type} (a : list A) (i : Z) (v : A) (a' : list A) :
  array_set a i v = Ok a' →
  0 <= i < Z.of_nat (length a) ∧ a' = <[Z.to_nat i := v]> a.
Proof.
  unfold array_set. destruct (Z.leb_spec 0 i); [|discriminate].
  destruct (Z.ltb_spec i (Z.of_nat (length a))); [|discriminate].
  cbn [andb]. intros [= <-]. split; [lia|reflexivity].
Qed.

Lemma array_set_length {A : Type} (a : list A) (i : Z) (v : A) (a' : list A) :
  array_set a i v = Ok a' → length a' = length a.
Proof.
  intros H. apply array_set_inv in H as [_ ->]. apply length_insert.
Qed.

(** Inversion of a successful chain of binds in [H]. *)
Ltac invert_binds H :=
  repeat first
    [ apply bind_Ok_inv in H as (? & ? & H)
    | match type of H with
      | (let '(_, _) := ?p in _) = Ok _ => destruct p
      end
    | progress cbn beta iota in H ].

Lemma heap_grows_refl h : heap_grows h h.
Proof. split; [lia|]. intros r a Ha. now exists a. Qed.

Lemma heap_grows_trans h1 h2 h3 :
  heap_grows h1 h2 → heap_grows h2 h3 → heap_grows h1 h3.
Proof.
  intros [Hc1 H1] [Hc2 H2]. split; [lia|]. intros r a Ha.
  destruct (H1 r a Ha) as (a' & Ha' & Hlen').
  destruct (H2 r a' Ha') as (a'' & Ha'' & Hlen'').
  exists a''. split; [assumption|congruence].
Qed.

Lemma world_grows_refl w : world_grows w w.
Proof.
  repeat split; try apply heap_grows_refl; try lia.
  exists []. now rewrite app_nil_r.
Qed.

Lemma world_grows_trans w1 w2 w3 :
  world_grows w1 w2 → world_grows w2 w3 → world_grows w1 w3.
Proof.
  intros ([p1 Ho1] & Hh1 & Hf1) ([p2 Ho2] & Hh2 & Hf2). repeat split.
  - exists (p1 ++ p2). now rewrite Ho2, Ho1, app_assoc.
  - apply (heap_grows_trans _ _ _ Hh1 Hh2).
  - apply (heap_grows_trans _ _ _ Hh1 Hh2).
  - lia.
Qed.

Lemma heap_add_inv h p h' r :
  heap_counted h → heap_add h p = Ok (h', r) →
  heap_grows h h' ∧ heap_counted h'.
Proof.
  intros [Hlen Hmax]. unfold heap_add, Int.INT32_MAX in *.
  assert (H0 : 0 <= count h) by lia.
  destruct (Z.eq_dec (count h) (2 ^ 31 - 1)) as [Hfull|Hroom].
  - rewrite Hfull. discriminate.
  - rewrite (int32_small (count h + 1)) by lia.
    destruct (allocatable _); [|discriminate]. intros [= <- <-].
    rewrite take_ge by lia. repeat split; cbn [ptr count].
    + lia.
    + intros i a Ha. exists a. split; [|reflexivity].
      rewrite lookup_app_l; [assumption|]. now apply lookup_lt_Some in Ha.
    + rewrite length_app. simpl. lia.
    + unfold Int.INT32_MAX. lia.
Qed.

Lemma iastore_heap_grows h ref arr index v arr' table :
  heap_counted h → heap_get h ref = Ok arr →
  array_set arr index v = Ok arr' → array_set (ptr h) ref arr' = Ok table →
  heap_grows h (mk_heap table (count h))
  ∧ heap_counted (mk_heap table (count h)).
Proof.
  intros [Hlen Hmax] Hget Harr Htable.
  apply array_get_inv in Hget as [Href Hget].
  apply array_set_length in Harr.
  apply array_set_inv in Htable as [_ ->].
  repeat split; cbn [ptr count]; try lia.
  - intros r a Ha. destruct (Nat.eq_dec r (Z.to_nat ref)) as [->|Hne].
    + exists arr'. split.
      * apply list_lookup_insert_eq. now apply lookup_lt_Some in Ha.
      * congruence.
    + exists a. split; [|reflexivity].
      now rewrite list_lookup_insert_ne by congruence.
  - now rewrite length_insert.
Qed.

Section Growth.

Variable residue : nat → Z → Z.
Variable class : class_file_t.
Variable method : method_t.
Variable call : method_t → list Z → world → result (optional_value_t * world).

Hypothesis call_grows : ∀ m l w r w',
  heap_counted (heap w) → call m l w = Ok (r, w') →
  world_grows w w' ∧ heap_counted (heap w').

Lemma exec_world_grows i f w o :
  heap_counted (heap w) →
  exec residue class method call i f w = Ok o →
  world_grows w (world_of o) ∧ heap_counted (heap (world_of o)).
Proof.
  intros Hheap H.
  destruct i;
    cbn [exec should_jump_based_on_instruction unary_test binary_test] in H;
    invert_binds H; injection H as <-; cbn [world_of];
    try (split; [apply world_grows_refl|assumption]).
  - (* iastore *)
    match goal with
    | Hget : heap_get _ _ = Ok _, Harr : array_set _ _ _ = Ok ?a,
      Htable : array_set (ptr _) _ ?a = Ok _ |- _ =>
        destruct (iastore_heap_grows _ _ _ _ _ _ _ Hheap Hget Harr Htable)
          as [Hg Hc]
    end.
    split; [|exact Hc]. split; [|split]; cbn [set_heap heap frames output].
    + exists []. now rewrite app_nil_r.
    + exact Hg.
    + lia.
  - (* invokevirtual *)
    split; [|assumption]. split; [|split]; cbn [print heap frames output].
    + now eexists.
    + apply heap_grows_refl.
    + lia.
  - (* invokestatic *)
    match goal with
    | Hcall : call _ _ (new_frame w) = Ok _ |- _ =>
        apply call_grows in Hcall as [(Ho & Hh & Hf) Hc]; [|exact Hheap]
    end.
    split; [|exact Hc]. split; [|split]; try assumption.
    cbn [new_frame frames] in Hf. lia.
  - (* newarray *)
    match goal with
    | Hadd : heap_add _ _ = Ok _ |- _ =>
        apply (heap_add_inv _ _ _ _ Hheap) in Hadd as [Hg Hc]
    end.
    split; [|exact Hc]. split; [|split]; cbn [set_heap heap frames output].
    + exists []. now rewrite app_nil_r.
    + exact Hg.
    + lia.
Qed.

Lemma step_world_grows f w o :
  heap_counted (heap w) →
  step residue class method call f w = Ok o →
  world_grows w (world_of o) ∧ heap_counted (heap (world_of o)).
Proof.
  intros Hheap H. unfold step in H.
  apply bind_Ok_inv in H as (instruction & _ & H).
  destruct (decode instruction) as [i|].
  - now apply exec_world_grows with i f.
  - injection H as <-. split; [apply world_grows_refl|assumption].
Qed.

End Growth.

(** The same along a whole run, nested activations included. *)
Lemma run_world_grows_all residue class fuel : ∀ method f w r w',
  heap_counted (heap w) →
  run residue fuel class method f w = Ok (r, w') →
  world_grows w w' ∧ heap_counted (heap w').
Proof.
  induction fuel as [|fuel IH]; intros method f w r w' Hheap H;
    [discriminate|].
  cbn [run] in H.
  destruct (pc f <? code_length (method_code method)).
  - apply bind_Ok_inv in H as (o & Hstep & H).
    apply step_world_grows in Hstep as [Hg Hc]; [| |exact Hheap].
    + destruct o as [f1 w1|r1 w1]; cbn [world_of] in *.
      * apply IH in H as [Hg' Hc']; [|exact Hc].
        split; [|exact Hc']. apply (world_grows_trans _ _ _ Hg Hg').
      * now injection H as <- <-.
    + intros m l w0 r0 w0' Hheap0 Hrun. now apply IH in Hrun.
  - injection H as <- <-. split; [apply world_grows_refl|assumption].
Qed.

(** X26.  Whatever [execute] runs, nested calls included, the world only
    grows: the lines printed before are a prefix of the output afterwards,
    every reference of the heap is still a reference afterwards, to an
    array of the same length, and the table of the heap still has [count]
    entries.  Nothing is ever removed from the heap or from the output. *)
Theorem execute_world_grows :
  ∀ residue (fuel : nat) (method : method_t) (locals0 : list Z)
    (class : class_file_t) (w : world) (r : optional_value_t) (w' : world),
    heap_counted (heap w) →
    execute residue fuel method locals0 class w = Ok (r, w') →
    world_grows w w' ∧ heap_counted (heap w').
Proof.
  intros residue fuel method locals0 class w r w' Hheap H.
  now apply (run_world_grows_all residue class fuel method
               (enter method locals0) w r w').
Qed.

Lemma execute_world_grows_witness :
  world_grows Sample.empty_world (mk_world (mk_heap [[2; 0; 0]] 1) [2] 0)
  ∧ heap_counted (heap (mk_world (mk_heap [[2; 0; 0]] 1) [2] 0)).
Proof.
  apply (execute_world_grows Sample.no_residue 6 Sample.allocate [0]
           (mk_class [] [Sample.allocate]) Sample.empty_world void_result
           (mk_world (mk_heap [[2; 0; 0]] 1) [2] 0)).
  - unfold heap_counted, Int.INT32_MAX. simpl. lia.
  - reflexivity.
Defined.
